(** * IGCN: complex tensor algebra and Gabor-modulated convolution layers

    A shallow embedding of [igcn/cmplx.py] and [igcn/cmplx_modules.py].

    Conventions of the embedding.
    - A torch tensor is its shape together with its elements in row-major
      (C-contiguous) order; [view] therefore only replaces the shape.
    - Floating-point elements are idealised as real numbers ([R]) where a
      property only compares, selects or rearranges them; the module [IEEE]
      runs [magnitude] on binary floating-point numbers, where rounding and
      overflow show.  Index tensors hold natural numbers.
    - Python integers that the code divides or takes remainders of are [Z].
    - Primitives of the host framework ([F.conv2d], [F.max_pool2d], ...) and
      the helpers of [igcn.igabor] and [igcn.utils], whose sources are not
      part of the tree, are the fields of the class [Host].
    - Exceptions raised by Python code of the tree, by the torch
      constructors it calls (as torch 2 raises them) and by the convolution
      of a forward pass are values of [error]; keyword arguments handed on
      to torch hold integers. *)

From Stdlib Require Import String.
From Stdlib Require Import List Arith ZArith Reals Lra Lia Bool SpecFloat.
Import ListNotations.

Set Implicit Arguments.

(* ================================================================== *)
(** ** Row-major tensors *)

Module Tensor.

Record tensor (A : Type) : Type := mkT { shape : list nat; data : list A }.

Arguments mkT {A} _ _.
Arguments shape {A} _.
Arguments data {A} _.

(** Number of elements of a shape. *)
Definition numel (s : list nat) : nat := fold_right Nat.mul 1 s.

(** A tensor is well formed when its storage has as many elements as its
    shape announces. *)
Definition wf {A} (t : tensor A) : Prop := length (data t) = numel (shape t).

(** [t.size(d)], a Python integer. *)
Definition size {A} (t : tensor A) (d : nat) : Z := Z.of_nat (nth d (shape t) 0).

Definition dim {A} (t : tensor A) : nat := length (shape t).

(** Row-major offset of a multi-index. *)
Fixpoint ravel (s idx : list nat) : nat :=
  match s, idx with
  | _ :: s', i :: idx' => i * numel s' + ravel s' idx'
  | _, _ => 0
  end.

(** Multi-index of a row-major offset. *)
Fixpoint unravel (s : list nat) (k : nat) : list nat :=
  match s with
  | [] => []
  | _ :: s' => (k / numel s') :: unravel s' (k mod numel s')
  end.

(** [idx] addresses an element of a tensor of shape [s]. *)
Fixpoint in_range (s idx : list nat) : Prop :=
  match s, idx with
  | [], [] => True
  | d :: s', i :: idx' => i < d /\ in_range s' idx'
  | _, _ => False
  end.

(** [t[i0, i1, ...]] with a full multi-index; [dflt] stands for an index
    error. *)
Definition get {A} (dflt : A) (t : tensor A) (idx : list nat) : A :=
  nth (ravel (shape t) idx) (data t) dflt.

(** The tensor of shape [s] whose element at [idx] is [f idx]. *)
Definition tabulate {A} (s : list nat) (f : list nat -> A) : tensor A :=
  mkT s (map (fun k => f (unravel s k)) (seq 0 (numel s))).

(** [t[i]]: the [i]-th slice along the leading axis. *)
Definition select0 {A} (t : tensor A) (i : nat) : tensor A :=
  let m := numel (tl (shape t)) in
  mkT (tl (shape t)) (firstn m (skipn (i * m) (data t))).

(** [torch.stack(ts, dim=0)] of equally shaped tensors. *)
Definition stack {A} (ts : list (tensor A)) : tensor A :=
  mkT (length ts :: match ts with [] => [] | t :: _ => shape t end)
      (concat (map data ts)).

Definition tmap {A B} (f : A -> B) (t : tensor A) : tensor B :=
  mkT (shape t) (map f (data t)).

(** Elementwise operation on two tensors of one shape. *)
Definition tmap2 {A B C} (f : A -> B -> C) (a : tensor A) (b : tensor B)
  : tensor C :=
  mkT (shape a) (map (fun p => f (fst p) (snd p)) (combine (data a) (data b))).

(** Resolution of a [view] argument list, in which one entry may be [-1]. *)
Definition resolve_view (n : nat) (s : list Z) : list nat :=
  let known := numel (map Z.to_nat (filter (fun z => (0 <=? z)%Z) s)) in
  map (fun z => if (z =? -1)%Z then n / known else Z.to_nat z) s.

(** [t.view(s)]: same storage, new shape. *)
Definition view {A} (s : list Z) (t : tensor A) : tensor A :=
  mkT (resolve_view (length (data t)) s) (data t).

(** [t.view_as(other)]. *)
Definition view_as {A B} (t : tensor A) (other : tensor B) : tensor A :=
  mkT (shape other) (data t).

(** [t.unsqueeze(d)]. *)
Definition unsqueeze {A} (d : nat) (t : tensor A) : tensor A :=
  mkT (firstn d (shape t) ++ 1 :: skipn d (shape t)) (data t).

(** [t.squeeze(d)]: drops axis [d] when its size is 1. *)
Definition squeeze {A} (d : nat) (t : tensor A) : tensor A :=
  if nth d (shape t) 0 =? 1
  then mkT (firstn d (shape t) ++ skipn (S d) (shape t)) (data t)
  else t.

(** [t.flatten(start_dim=d)]. *)
Definition flatten_from {A} (d : nat) (t : tensor A) : tensor A :=
  mkT (firstn d (shape t) ++ [numel (skipn d (shape t))]) (data t).

(** [l] with the entries at positions [a] and [b] exchanged. *)
Definition swap (a b : nat) (l : list nat) : list nat :=
  map (fun k => nth (if k =? a then b else if k =? b then a else k) l 0)
      (seq 0 (length l)).

(** [t.transpose(a, b)]. *)
Definition transpose {A} (dflt : A) (a b : nat) (t : tensor A) : tensor A :=
  tabulate (swap a b (shape t)) (fun I => get dflt t (swap a b I)).

(** Broadcasting (trailing axes aligned, size-1 axes stretched). *)
Definition pad (n : nat) (s : list nat) : list nat :=
  repeat 1 (n - length s) ++ s.

Definition bshape (s1 s2 : list nat) : list nat :=
  let n := Nat.max (length s1) (length s2) in
  map (fun p => if fst p =? 1 then snd p else fst p)
      (combine (pad n s1) (pad n s2)).

(** Index into an operand of shape [s] for the result index [I]. *)
Definition bidx (s I : list nat) : list nat :=
  map (fun p => if fst p =? 1 then 0 else snd p)
      (combine s (skipn (length I - length s) I)).

Definition bop {A B C} (da : A) (db : B) (f : A -> B -> C)
  (a : tensor A) (b : tensor B) : tensor C :=
  tabulate (bshape (shape a) (shape b))
    (fun I => f (get da a (bidx (shape a) I)) (get db b (bidx (shape b) I))).

(** [torch.where(c, x, y)]. *)
Definition where_ {A} (dflt : A) (c : tensor bool) (x y : tensor A)
  : tensor A :=
  tabulate (bshape (bshape (shape c) (shape x)) (shape y))
    (fun I => if get false c (bidx (shape c) I)
              then get dflt x (bidx (shape x) I)
              else get dflt y (bidx (shape y) I)).

(** List surgery on multi-indices and shapes. *)
Definition remove_at (d : nat) (l : list nat) : list nat :=
  firstn d l ++ skipn (S d) l.

Definition insert_at (d v : nat) (l : list nat) : list nat :=
  firstn d l ++ v :: skipn d l.

Definition replace_at (d v : nat) (l : list nat) : list nat :=
  firstn d l ++ v :: skipn (S d) l.

(** The elements met along axis [d] from the position [I] of the other
    axes. *)
Definition fibre {A} (dflt : A) (d : nat) (t : tensor A) (I : list nat)
  : list A :=
  map (fun g => get dflt t (insert_at d g I)) (seq 0 (nth d (shape t) 0)).

(** Reduction of axis [d] by [f]; the axis is kept with size 1 when
    [keepdim] is set. *)
Definition reduce_dim {A B} (dflt : A) (f : list A -> B) (d : nat)
  (keepdim : bool) (t : tensor A) : tensor B :=
  if keepdim
  then tabulate (replace_at d 1 (shape t))
         (fun I => f (fibre dflt d t (remove_at d I)))
  else tabulate (remove_at d (shape t)) (fun I => f (fibre dflt d t I)).

(** [t.gather(dim=d, index=idx)]; torch raises on an index that is out of
    range along [d]. *)
Definition gather {A} (dflt : A) (d : nat) (t : tensor A) (idx : tensor nat)
  : option (tensor A) :=
  if forallb (fun v => v <? nth d (shape t) 0) (data idx)
  then Some (tabulate (shape idx)
               (fun I => get dflt t (replace_at d (get 0 idx I) I)))
  else None.

(** [t.repeat(n, 1, ..., 1)]. *)
Definition repeat0 {A} (n : nat) (t : tensor A) : tensor A :=
  mkT (match shape t with [] => [] | d :: s => n * d :: s end)
      (concat (repeat (data t) n)).

End Tensor.
Import Tensor.

Local Open Scope R_scope.

(* ================================================================== *)
(** ** Python values, exceptions and host primitives *)

Inductive error : Type :=
| ValueError (msg : string)
| ZeroDivisionError
| UnboundLocalError (name : string)
| TypeError
| RuntimeError.

(** Outcome of a call that may raise. *)
Inductive result (A : Type) : Type :=
| Ok (a : A)
| Raise (e : error).

Arguments Ok {A} _.
Arguments Raise {A} _.

Definition bind {A B} (r : result A) (k : A -> result B) : result B :=
  match r with
  | Ok a => k a
  | Raise e => Raise e
  end.

Notation "x <- r ;; k" := (bind r (fun x => k))
  (at level 61, r at next level, right associativity).

(** Keyword arguments forwarded verbatim to a host primitive. *)
Definition kwargs : Type := list (string * Z).

(** A kernel size as callers write it: an integer or a pair. *)
Inductive ksize : Type :=
| KInt (k : Z)
| KPair (kh kw : Z).

(** The Python objects that reach a string-valued mode selector. *)
Inductive pyobj : Type :=
| PyNone
| PyStr (s : string)
| PyTensor (t : tensor R).

(** [o == s] for a string literal [s]; a tensor or [None] never equals a
    string. *)
Definition py_eq_str (o : pyobj) (s : string) : bool :=
  match o with
  | PyStr s' => String.eqb s' s
  | _ => false
  end.

(** What a pooling callable hands back: a tensor, an index tensor, or a
    2-tuple of such. *)
Inductive pyval : Type :=
| VTensor (t : tensor R)
| VIndex (t : tensor nat)
| VPair (a b : pyval).

(** [a, b = v]: a pair is taken apart; a tensor is iterated along its
    leading axis and must have exactly two slices there. *)
Definition unpack2 (v : pyval) : result (pyval * pyval) :=
  match v with
  | VPair a b => Ok (a, b)
  | VTensor t =>
      match shape t with
      | [] => Raise TypeError
      | 2%nat :: _ => Ok (VTensor (select0 t 0), VTensor (select0 t 1))
      | _ => Raise (ValueError "unpack")
      end
  | VIndex t =>
      match shape t with
      | [] => Raise TypeError
      | 2%nat :: _ => Ok (VIndex (select0 t 0), VIndex (select0 t 1))
      | _ => Raise (ValueError "unpack")
      end
  end.

(** Primitives of torch and numpy, and the helpers imported from
    [igcn.igabor] and [igcn.utils]. *)
Class Host : Type := {
  (* torch.nn.functional *)
  conv2d : tensor R -> tensor R -> kwargs -> tensor R;
  conv_transpose2d : tensor R -> tensor R -> kwargs -> tensor R;
  (* whether F.conv2d takes this input and weight with these keyword
     arguments; it raises RuntimeError when it does not *)
  conv2d_accepts : tensor R -> tensor R -> kwargs -> bool;
  max_pool2d : tensor R -> ksize -> kwargs -> tensor R;
  max_pool2d_return_indices :
    tensor R -> ksize -> kwargs -> tensor R * tensor nat;
  avg_pool2d : tensor R -> ksize -> kwargs -> tensor R;
  (* numpy.random: the sample drawn for the given parameters and size *)
  rayleigh : R -> list nat -> tensor R;
  uniform : R -> R -> list nat -> tensor R;
  (* contents of a freshly allocated or randomly initialised tensor *)
  fresh : string -> list nat -> tensor R;
  (* igcn.igabor *)
  gabor_cmplx : tensor R -> tensor R -> tensor R;
  (* igcn.utils *)
  shape_info : Type;
  _compress_shape : tensor R -> tensor R * shape_info;
  _recover_shape : tensor R -> shape_info -> tensor R;
  _pair : ksize -> ksize
}.

(* ================================================================== *)
(** ** igcn/cmplx.py *)

Definition Rgtb (a b : R) : bool := if Rlt_dec b a then true else false.

Definition zeros_like (t : tensor R) : tensor R := tmap (fun _ => 0) t.

Definition tadd : tensor R -> tensor R -> tensor R := tmap2 Rplus.
Definition tsub : tensor R -> tensor R -> tensor R := tmap2 Rminus.
Definition tmul : tensor R -> tensor R -> tensor R := tmap2 Rmult.

Definition sum (l : list R) : R := fold_right Rplus 0 l.

(** Values and indices of [torch.max] along one axis, and [torch.mean]. *)
Definition list_max (l : list R) : R :=
  match l with
  | [] => 0
  | a :: l' => fold_left Rmax l' a
  end.

Fixpoint argmax_from (i best : nat) (vbest : R) (l : list R) : nat :=
  match l with
  | [] => best
  | v :: l' =>
      if Rgtb v vbest then argmax_from (S i) i v l'
      else argmax_from (S i) best vbest l'
  end.

Definition argmax (l : list R) : nat :=
  match l with
  | [] => 0%nat
  | a :: l' => argmax_from 1 0 a l'
  end.

Definition mean (l : list R) : R := sum l / INR (length l).

Definition torch_max (t : tensor R) (d : nat) (keepdim : bool)
  : tensor R * tensor nat :=
  (reduce_dim 0 list_max d keepdim t, reduce_dim 0 argmax d keepdim t).

Definition torch_mean (t : tensor R) (d : nat) : tensor R :=
  reduce_dim 0 mean d false t.

(** [cmplx(real, imag)]. *)
Definition cmplx {A} (real imag : tensor A) : tensor A := stack [real; imag].

Definition new_cmplx (real : tensor R) : tensor R :=
  cmplx real (zeros_like real).

(** Default [eps] of [magnitude], [1e-8]. *)
Definition eps_default : R := 1 / 100000000.

(** [magnitude(x, eps, sq)]. *)
Definition magnitude (x : tensor R) (eps : R) (sq : bool) : tensor R :=
  let x := reduce_dim 0 sum 0 false (tmap (fun v => v ^ 2) x) in
  if sq then x
  else tmap sqrt (tmap (fun v => Rmax v eps) x).

Section WithHost.
Context {H : Host}.

(** [conv_cmplx(x, w, transpose, **kwargs)]. *)
Definition conv_cmplx (x w : tensor R) (transpose : bool) (kw : kwargs)
  : tensor R :=
  let conv := if transpose then conv_transpose2d else conv2d in
  let w := if transpose then Tensor.transpose 0 1 2 w else w in
  cmplx
    (tsub (conv (select0 x 0) (select0 w 0) kw)
          (conv (select0 x 1) (select0 w 1) kw))
    (tadd (conv (select0 x 0) (select0 w 1) kw)
          (conv (select0 x 1) (select0 w 0) kw)).

(** Whether the four real convolutions of [conv_cmplx(x, w, **kwargs)] go
    through; [F.conv2d] raises [RuntimeError] otherwise. *)
Definition conv_cmplx_accepts (x w : tensor R) (kw : kwargs) : bool :=
  conv2d_accepts (select0 x 0) (select0 w 0) kw
  && conv2d_accepts (select0 x 1) (select0 w 1) kw
  && conv2d_accepts (select0 x 0) (select0 w 1) kw
  && conv2d_accepts (select0 x 1) (select0 w 0) kw.

(** [max_mag_pool(x, kernel_size, **kwargs)]. *)
Definition max_mag_pool (x : tensor R) (kernel_size : ksize) (kw : kwargs)
  : result (tensor R) :=
  let r := magnitude x eps_default false in
  let idxs := snd (max_pool2d_return_indices r kernel_size kw) in
  let cmplx_idxs := cmplx idxs idxs in
  match gather 0 3 (flatten_from 3 x) (flatten_from 3 cmplx_idxs) with
  | Some max_by_mags => Ok (view_as max_by_mags cmplx_idxs)
  | None => Raise RuntimeError
  end.

(** [pool_cmplx(x, kernel_size, operator, **kwargs)]. *)
Definition pool_cmplx (x : tensor R) (kernel_size : ksize) (operator : pyobj)
  (kw : kwargs) : result (tensor R) :=
  let '(x, xs) := _compress_shape x in
  let pool :=
    if py_eq_str operator "avg" || py_eq_str operator "average"
    then avg_pool2d else max_pool2d in
  x <- (if py_eq_str operator "mag"
        then max_mag_pool x kernel_size kw
        else Ok (cmplx (pool (select0 x 0) kernel_size kw)
                       (pool (select0 x 1) kernel_size kw))) ;;
  Ok (_recover_shape x xs).

(** [max_mag_gabor_pool(x, **kwargs)]. *)
Definition max_mag_gabor_pool (x : tensor R)
  : result (tensor R * tensor nat) :=
  let r := magnitude x eps_default false in
  let idxs := snd (torch_max r 2 true) in
  let idxs := repeat0 2 (unsqueeze 0 idxs) in
  match gather 0 3 x idxs with
  | Some g => Ok (squeeze 3 g, idxs)
  | None => Raise RuntimeError
  end.

(** [torch.nn.init._calculate_fan_in_and_fan_out]. *)
Definition _calculate_fan_in_and_fan_out (t : tensor R) : result (Z * Z) :=
  if (dim t <? 2)%nat then Raise (ValueError "fan")
  else
    let receptive_field_size := Z.of_nat (numel (skipn 2 (shape t))) in
    Ok ((size t 1 * receptive_field_size)%Z,
        (size t 0 * receptive_field_size)%Z).

(** [1 / n] for a Python integer [n]. *)
Definition py_inv (n : Z) : result R :=
  if (n =? 0)%Z then Raise ZeroDivisionError else Ok (1 / IZR n).

(** [init_weights(w, mode, polar)]; the result is the new [w.data]. *)
Definition init_weights (w : tensor R) (mode : pyobj) (polar : bool)
  : result (tensor R) :=
  fans <- _calculate_fan_in_and_fan_out (select0 w 0) ;;
  let '(fan_in, fan_out) := fans in
  let sigma : option R := None in
  sigma <- (if py_eq_str mode "he"
            then s <- py_inv fan_in ;; Ok (Some s)
            else Ok sigma) ;;
  sigma <- (if py_eq_str mode "glorot"
            then s <- py_inv (fan_in + fan_out) ;; Ok (Some s)
            else Ok sigma) ;;
  match sigma with
  | None => Raise (UnboundLocalError "sigma")
  | Some sigma =>
      let mag := rayleigh sigma (shape (select0 w 0)) in
      let phase := uniform (- PI) PI (shape (select0 w 0)) in
      if polar then Ok (cmplx mag phase)
      else Ok (cmplx (tmul mag (tmap cos phase)) (tmul mag (tmap sin phase)))
  end.

End WithHost.

(** [relu_cmplx_z(x)]. *)
Definition relu_cmplx_z (x : tensor R) : tensor R :=
  let x := where_ 0 (tmap (fun v => Rgtb v 0) (select0 x 0)) x (zeros_like x) in
  let x := where_ 0 (tmap (fun v => Rgtb v 0) (select0 x 1)) x (zeros_like x) in
  x.

(* ================================================================== *)
(** ** [magnitude] on floating-point tensors

    The elements of a torch tensor are binary floating-point numbers:
    [prec = 24] and [emax = 128] for the default [float32], 53 and 1024 for
    [float64].  Products, sums and square roots are rounded to nearest, ties
    to even, and overflow to an infinity. *)

Module IEEE.
Section Format.
Variables prec emax : Z.

Definition fmul : spec_float -> spec_float -> spec_float := SFmul prec emax.
Definition fadd : spec_float -> spec_float -> spec_float := SFadd prec emax.
Definition fsqrt : spec_float -> spec_float := SFsqrt prec emax.

(** [torch.sum] along an axis: the elements are added up from the first
    one on. *)
Definition fsum (l : list spec_float) : spec_float :=
  match l with
  | [] => S754_zero false
  | a :: l' => fold_left fadd l' a
  end.

(** [torch.clamp(v, min=lo)]; a NaN stays a NaN. *)
Definition clamp_min (lo v : spec_float) : spec_float :=
  match v, lo with
  | S754_nan, _ => S754_nan
  | _, S754_nan => S754_nan
  | _, _ => if SFltb v lo then lo else v
  end.

(** [magnitude(x, eps, sq)]: [x.pow(2)] is [x * x]. *)
Definition magnitude (x : tensor spec_float) (eps : spec_float) (sq : bool)
  : tensor spec_float :=
  let x := reduce_dim S754_nan fsum 0 false (tmap (fun v => fmul v v) x) in
  if sq then x
  else tmap fsqrt (tmap (clamp_min eps) x).




End Format.





End IEEE.

(* ================================================================== *)
(** ** igcn/cmplx_modules.py *)

(** [a % b] and [a // b] on Python integers. *)
Definition py_mod (a b : Z) : result Z :=
  if (b =? 0)%Z then Raise ZeroDivisionError else Ok (a mod b)%Z.

Definition py_floordiv (a b : Z) : result Z :=
  if (b =? 0)%Z then Raise ZeroDivisionError else Ok (a / b)%Z.

(** [kwargs.get(key, dflt)]. *)
Fixpoint kw_get (key : string) (dflt : Z) (kw : kwargs) : Z :=
  match kw with
  | [] => dflt
  | (k, v) :: kw' => if String.eqb k key then v else kw_get key dflt kw'
  end.

(** [key in kwargs]. *)
Definition kw_mem (key : string) (kw : kwargs) : bool :=
  existsb (fun p => String.eqb (fst p) key) kw.

(** Every keyword of a call is one of the names [names]. *)
Definition kw_among (names : list string) (kw : kwargs) : bool :=
  forallb (fun p => existsb (String.eqb (fst p)) names) kw.

Module IGaborCmplx.
Section WithHost.
Context {H : Host}.

Record t : Type := mk {
  gabor_params : tensor R;
  gabor_filters : tensor R;
  no_g : Z;
  layer : bool;
  calc_filters : bool  (* whether the filter bank needs recalculating *)
}.

(** [IGaborCmplx(no_g, layer, kernel_size)].  In the order of the source:
    [torch.Tensor(2, no_g)] refuses a negative size; the orientations are
    the sweep [arange(no_g) / no_g * pi]; [1 / math.sqrt(no_g)] raises for
    [no_g = 0]; the star in [torch.Tensor(2, no_g, 1, 1, *kernel_size)] needs
    a pair, and the tensor sides that are not negative; the flag
    [calc_filters] starts as [True]. *)
Definition __init__ (no_g : Z) (layer : bool) (kernel_size : ksize)
  : result t :=
  if (no_g <? 0)%Z then Raise RuntimeError
  else
    let n := Z.to_nat no_g in
    let sweep := map (fun k => INR k / IZR no_g * PI) (seq 0 n) in
    bound <- (if (no_g =? 0)%Z then Raise ZeroDivisionError
              else Ok (1 / sqrt (IZR no_g))) ;;
    let gabor_params :=
      mkT [2; n]%nat (sweep ++ data (uniform (- bound) bound [n])) in
    match kernel_size with
    | KInt _ => Raise TypeError
    | KPair kh kw =>
        if ((kh <? 0) || (kw <? 0))%Z then Raise RuntimeError
        else
          Ok {| gabor_params := gabor_params;
                gabor_filters :=
                  fresh "gabor_filters"
                    [2; n; 1; 1; Z.to_nat kh; Z.to_nat kw]%nat;
                no_g := no_g;
                layer := layer;
                calc_filters := true |}
    end.

(** Generates the gabor filter bank. *)
Definition generate_gabor_filters (self : t) (x : tensor R) : t :=
  {| gabor_params := gabor_params self;
     gabor_filters := unsqueeze 2 (gabor_cmplx x (gabor_params self));
     no_g := no_g self;
     layer := layer self;
     calc_filters := false |}.

(** Called in the backward hook so that the filter bank is regenerated. *)
Definition set_filter_calc (self : t) : t :=
  {| gabor_params := gabor_params self;
     gabor_filters := gabor_filters self;
     no_g := no_g self;
     layer := layer self;
     calc_filters := true |}.

(** [forward(x)]: the module after the call and the modulated weight.  (The
    two [log.debug] lines only read sizes; they change nothing.) *)
Definition forward (self : t) (x : tensor R) : t * tensor R :=
  let self :=
    if calc_filters self then generate_gabor_filters self x else self in
  let out := bop 0 0 Rmult (gabor_filters self) (unsqueeze 1 x) in
  let out := view ([2; -1] ++ map Z.of_nat (skipn 3 (shape out)))%Z out in
  let out :=
    if layer self
    then view (size x 0 :: size x 1 * no_g self
                 :: map Z.of_nat (skipn 2 (shape x)))%Z out
    else out in
  (self, out).

(** An optimizer step writes new values into [gabor_params]. *)
Definition set_params (self : t) (p : tensor R) : t :=
  {| gabor_params := p;
     gabor_filters := gabor_filters self;
     no_g := no_g self;
     layer := layer self;
     calc_filters := calc_filters self |}.

End WithHost.
End IGaborCmplx.

Module Conv2d.
Section WithHost.
Context {H : Host}.

Record t : Type := mk {
  in_channels : Z;
  out_channels : Z;
  weight : tensor R
}.

(** The keyword parameters of [torch.nn.Conv2d], and those of them that
    take an integer. *)
Definition keywords : list string :=
  ["stride"; "padding"; "dilation"; "groups"; "bias"; "padding_mode";
   "device"; "dtype"]%string.

Definition integer_keywords : list string :=
  ["stride"; "padding"; "dilation"; "groups"; "bias"]%string.

(** [torch.nn.Conv2d(in_channels, out_channels, kernel_size, **kwargs)],
    the keyword values being integers.  In the order of torch: a keyword
    that is no parameter is refused when the call is bound ([TypeError]);
    [groups] is positive and divides both channel counts ([ValueError]
    otherwise); an integer is no padding mode ([ValueError]); the weight,
    of shape [[out, in / groups, kh, kw]], is allocated, which torch
    refuses for an integer as [dtype] ([TypeError]), for a device index (the
    host has no accelerator, [RuntimeError]) and for a negative side
    ([RuntimeError]).  The channel counts and the weight are kept. *)
Definition __init__ (name : string) (in_channels out_channels : Z)
  (kernel_size : ksize) (kw : kwargs) : result t :=
  let groups := kw_get "groups" 1 kw in
  if negb (kw_among keywords kw) then Raise TypeError
  else if (groups <=? 0)%Z
  then Raise (ValueError "groups must be a positive integer")
  else if negb (in_channels mod groups =? 0)%Z
  then Raise (ValueError "in_channels must be divisible by groups")
  else if negb (out_channels mod groups =? 0)%Z
  then Raise (ValueError "out_channels must be divisible by groups")
  else if kw_mem "padding_mode" kw
  then Raise (ValueError "padding_mode must be one of the known modes")
  else if kw_mem "dtype" kw then Raise TypeError
  else if kw_mem "device" kw then Raise RuntimeError
  else
    let '(kh, kw_) := match kernel_size with
                      | KInt k => (k, k)
                      | KPair a b => (a, b)
                      end in
    if ((out_channels <? 0) || (in_channels / groups <? 0)
        || (kh <? 0) || (kw_ <? 0))%Z
    then Raise RuntimeError
    else
      Ok {| in_channels := in_channels;
            out_channels := out_channels;
            weight := fresh name
              [Z.to_nat out_channels;
               Z.to_nat (in_channels / groups);
               Z.to_nat kh; Z.to_nat kw_] |}.

End WithHost.
End Conv2d.

(** The error raised when the filter count does not divide the output
    features (the message is kept without its two numbers). *)
Definition config_error : error :=
  ValueError "Number of filters does not divide output features".

Module IGConvCmplx.
Section WithHost.
Context {H : Host}.

(** The attribute [gabor_pooling] after construction. *)
Inductive pooling : Type :=
| PoolNone                       (* None *)
| PoolTorchMax                   (* torch.max *)
| PoolTorchMean                  (* torch.mean *)
| PoolMaxMag                     (* max_mag_gabor_pool *)
| PoolStr (s : string).          (* any other string, left as it is *)

Record t : Type := mk {
  ReConv : Conv2d.t;
  ImConv : Conv2d.t;
  gabor : IGaborCmplx.t;
  no_g : Z;
  gabor_pooling : pooling;
  include_gparams : bool;
  conv_kwargs : kwargs
}.

Definition select_pooling (gabor_pooling : option string) : pooling :=
  match gabor_pooling with
  | None => PoolNone
  | Some s =>
      if String.eqb s "max" then PoolTorchMax
      else if String.eqb s "avg" then PoolTorchMean
      else if String.eqb s "mag" then PoolMaxMag
      else PoolStr s
  end.

(** [IGConvCmplx(input_features, output_features, kernel_size, no_g,
    gabor_pooling, include_gparams, weight_init, **conv_kwargs)]. *)
Definition __init__ (input_features output_features : Z)
  (kernel_size : ksize) (no_g : Z) (gabor_pooling : option string)
  (include_gparams : bool) (weight_init : option string)
  (conv_kwargs : kwargs) : result t :=
  output_features <-
    match gabor_pooling with
    | None =>
        r <- py_mod output_features no_g ;;
        if negb (r =? 0)%Z
        then Raise config_error
        else py_floordiv output_features no_g
    | Some _ => Ok output_features
    end ;;
  let kernel_size := _pair kernel_size in
  ReConv <-
    Conv2d.__init__ "ReConv.weight" input_features output_features
      kernel_size conv_kwargs ;;
  ImConv <-
    Conv2d.__init__ "ImConv.weight" input_features output_features
      kernel_size conv_kwargs ;;
  ReConv <-
    match weight_init with
    | Some s =>
        (* init_weights(self.ReConv.weight, self.ImConv.weight, weight_init):
           the imaginary kernel lands in [mode], the string in [polar] *)
        w <- init_weights (Conv2d.weight ReConv)
               (PyTensor (Conv2d.weight ImConv)) (negb (String.eqb s "")) ;;
        Ok (Conv2d.mk (Conv2d.in_channels ReConv)
              (Conv2d.out_channels ReConv) w)
    | None => Ok ReConv
    end ;;
  gabor <- IGaborCmplx.__init__ no_g false kernel_size ;;
  Ok {| ReConv := ReConv;
        ImConv := ImConv;
        gabor := gabor;
        no_g := no_g;
        gabor_pooling := select_pooling gabor_pooling;
        include_gparams := include_gparams;
        conv_kwargs := conv_kwargs |}.

(** [self.gabor_pooling(pool_out, dim=3)]. *)
Definition call_pooling (f : pooling) (pool_out : tensor R) : result pyval :=
  match f with
  | PoolNone => Raise TypeError
  | PoolTorchMax =>
      let '(values, indices) := torch_max pool_out 3 false in
      Ok (VPair (VTensor values) (VIndex indices))
  | PoolTorchMean => Ok (VTensor (torch_mean pool_out 3))
  | PoolMaxMag =>
      r <- max_mag_gabor_pool pool_out ;;
      Ok (VPair (VTensor (fst r)) (VIndex (snd r)))
  | PoolStr _ => Raise TypeError
  end.

(** The weight handed to the convolution by [forward]. *)
Definition enhanced_weight (self : t) : IGaborCmplx.t * tensor R :=
  IGaborCmplx.forward (gabor self)
    (cmplx (Conv2d.weight (ReConv self)) (Conv2d.weight (ImConv self))).

(** The reshaped convolution output that [forward] hands to the pooling. *)
Definition pool_view (self : t) (enhanced_weight out : tensor R)
  : result (tensor R) :=
  per_group <- py_floordiv (size enhanced_weight 1) (no_g self) ;;
  Ok (view [2; size out 1; per_group; no_g self; size out 3; size out 4]%Z
        out).

(** [forward(x)]: the module after the call and the value returned.  The
    filter module has been called, and its cache updated, before the
    convolution can raise. *)
Definition forward (self : t) (x : tensor R) : t * result pyval :=
  let '(g, enhanced_weight) := enhanced_weight self in
  let self := {| ReConv := ReConv self; ImConv := ImConv self; gabor := g;
                 no_g := no_g self; gabor_pooling := gabor_pooling self;
                 include_gparams := include_gparams self;
                 conv_kwargs := conv_kwargs self |} in
  if negb (conv_cmplx_accepts x enhanced_weight (conv_kwargs self))
  then (self, Raise RuntimeError)
  else
    let out := conv_cmplx x enhanced_weight false (conv_kwargs self) in
    match gabor_pooling self with
    | PoolNone => (self, Ok (VTensor out))
    | f =>
        (self,
         pool_out <- pool_view self enhanced_weight out ;;
         r <- call_pooling f pool_out ;;
         p <- unpack2 r ;;
         let '(pool_out, max_idxs) := p in
         let out := pool_out in
         Ok out)
    end.

(** The layer with another state of its filter module. *)
Definition with_gabor (self : t) (g : IGaborCmplx.t) : t :=
  {| ReConv := ReConv self; ImConv := ImConv self; gabor := g;
     no_g := no_g self; gabor_pooling := gabor_pooling self;
     include_gparams := include_gparams self;
     conv_kwargs := conv_kwargs self |}.

(** An optimizer step writes new values into the parameters of the layer:
    the two kernels and the Gabor parameters. *)
Definition set_params (self : t) (re im params : tensor R) : t :=
  {| ReConv := Conv2d.mk (Conv2d.in_channels (ReConv self))
                 (Conv2d.out_channels (ReConv self)) re;
     ImConv := Conv2d.mk (Conv2d.in_channels (ImConv self))
                 (Conv2d.out_channels (ImConv self)) im;
     gabor := IGaborCmplx.set_params (gabor self) params;
     no_g := no_g self; gabor_pooling := gabor_pooling self;
     include_gparams := include_gparams self;
     conv_kwargs := conv_kwargs self |}.

(** What can happen to a layer between construction and disposal: a
    forward call, the backward hook of its filter module (registered in
    [IGaborCmplx.__init__], fired by a gradient computation through the
    layer), and an optimizer step. *)
Inductive event : Type :=
| Forward (x : tensor R)
| BackwardHook
| OptimizerStep (re im params : tensor R).

Definition step (self : t) (e : event) : t :=
  match e with
  | Forward x => fst (forward self x)
  | BackwardHook => with_gabor self (IGaborCmplx.set_filter_calc (gabor self))
  | OptimizerStep re im params => set_params self re im params
  end.

End WithHost.
End IGConvCmplx.

Module MaxPoolCmplx.
Section WithHost.
Context {H : Host}.

Record t : Type := mk {
  kernel_size : ksize;
  pool_kwargs : kwargs;
  operator : pyobj
}.

Definition __init__ (kernel_size : ksize) (maxmag : bool)
  (pool_kwargs : kwargs) : t :=
  {| kernel_size := _pair kernel_size;
     pool_kwargs := pool_kwargs;
     operator := if maxmag then PyStr "maxmag" else PyNone |}.

Definition forward (self : t) (x : tensor R) : result (tensor R) :=
  pool_cmplx x (kernel_size self) (operator self) (pool_kwargs self).

End WithHost.
End MaxPoolCmplx.

Module AvgPoolCmplx.
Section WithHost.
Context {H : Host}.

Record t : Type := mk {
  kernel_size : ksize;
  pool_kwargs : kwargs
}.

Definition __init__ (kernel_size : ksize) (pool_kwargs : kwargs) : t :=
  {| kernel_size := _pair kernel_size; pool_kwargs := pool_kwargs |}.

Definition forward (self : t) (x : tensor R) : result (tensor R) :=
  pool_cmplx x (kernel_size self) (PyStr "avg") (pool_kwargs self).

End WithHost.
End AvgPoolCmplx.

(* ================================================================== *)
(** ** A reference host

    Executable stand-ins for the primitives, used to run the layers on
    concrete inputs: convolution and pooling with torch's default stride,
    padding and dilation; samplers that return one admissible sample; a
    filter generator that is a function of its parameters and of the kernel
    size only. *)

Module Ref.

(** All multi-indices of a shape, in row-major order. *)
Definition indices (s : list nat) : list (list nat) :=
  map (unravel s) (seq 0 (numel s)).

Definition dims (k : ksize) : nat * nat :=
  match k with
  | KInt k => (Z.to_nat k, Z.to_nat k)
  | KPair a b => (Z.to_nat a, Z.to_nat b)
  end.

Definition sz {A} (t : tensor A) (d : nat) : nat := nth d (shape t) 0%nat.

(** Cross-correlation of [x : [B, Ci, H, W]] with [w : [Co, Ci, kh, kw]]. *)
Definition conv2d (x w : tensor R) (_ : kwargs) : tensor R :=
  tabulate [sz x 0; sz w 0; sz x 2 + 1 - sz w 2; sz x 3 + 1 - sz w 3]%nat
    (fun I =>
       match I with
       | [b; c; i; j] =>
           sum (map (fun J =>
                       match J with
                       | [ci; u; v] =>
                           get 0 x [b; ci; i + u; j + v]%nat
                           * get 0 w [c; ci; u; v]
                       | _ => 0
                       end)
                    (indices [sz w 1; sz w 2; sz w 3]))
       | _ => 0
       end).

(** [conv2d] takes a batched input and a weight with as many input
    channels, the kernel fitting into the input. *)
Definition conv2d_accepts (x w : tensor R) (_ : kwargs) : bool :=
  ((dim x =? 4) && (dim w =? 4) && (sz x 1 =? sz w 1)
   && (sz w 2 <=? sz x 2) && (sz w 3 <=? sz x 3))%nat.

(** Transposed convolution of [x : [B, Ci, H, W]] with
    [w : [Ci, Co, kh, kw]]. *)
Definition conv_transpose2d (x w : tensor R) (_ : kwargs) : tensor R :=
  tabulate [sz x 0; sz w 1; sz x 2 + sz w 2 - 1; sz x 3 + sz w 3 - 1]%nat
    (fun I =>
       match I with
       | [b; c; i; j] =>
           sum (map (fun J =>
                       match J with
                       | [ci; u; v] =>
                           if ((u <=? i) && (i - u <? sz x 2)
                               && (v <=? j) && (j - v <? sz x 3))%nat
                           then get 0 x [b; ci; i - u; j - v]%nat
                                * get 0 w [ci; c; u; v]
                           else 0
                       | _ => 0
                       end)
                    (indices [sz w 0; sz w 2; sz w 3]))
       | _ => 0
       end).

(** The offsets, within one [H * W] plane, of the window that produces the
    output position [(i, j)]. *)
Definition window (kh kw W i j : nat) : list nat :=
  map (fun J =>
         match J with
         | [u; v] => ((i * kh + u) * W + (j * kw + v))%nat
         | _ => 0%nat
         end)
      (indices [kh; kw]).

Definition pool {B} (f : list nat -> list R -> B) (x : tensor R) (k : ksize)
  : tensor B :=
  let '(kh, kw) := dims k in
  tabulate [sz x 0; sz x 1; sz x 2 / kh; sz x 3 / kw]%nat
    (fun I =>
       match I with
       | [b; c; i; j] =>
           let offs := window kh kw (sz x 3) i j in
           f offs
             (map (fun o => get 0 (flatten_from 2 x) [b; c; o]) offs)
       | _ => f [] []
       end).

Definition max_pool2d (x : tensor R) (k : ksize) (_ : kwargs) : tensor R :=
  pool (fun _ vs => list_max vs) x k.

Definition max_pool2d_return_indices (x : tensor R) (k : ksize) (kw : kwargs)
  : tensor R * tensor nat :=
  (max_pool2d x k kw, pool (fun offs vs => nth (argmax vs) offs 0%nat) x k).

Definition avg_pool2d (x : tensor R) (k : ksize) (_ : kwargs) : tensor R :=
  pool (fun _ vs => mean vs) x k.

Definition const (v : R) (s : list nat) : tensor R :=
  mkT s (repeat v (numel s)).

(** Modelled from the spec: [igcn/igabor.py] is not part of the tree.  The
    bank is a function of the parameters and of the kernel size only and has
    one complex filter per parameter pair; here filter [g] is constant over
    the kernel, its real part the first parameter of [g], its imaginary part
    the second. *)
Definition gabor_cmplx (weight params : tensor R) : tensor R :=
  tabulate [2; sz params 1; 1; sz weight 3; sz weight 4]%nat
    (fun I =>
       match I with
       | c :: g :: _ => get 0 params [c; g]
       | _ => 0
       end).

(** Modelled from the spec: [igcn/utils.py] is not part of the tree.  An
    integer kernel size stands for a square kernel. *)
Definition _pair (k : ksize) : ksize :=
  match k with
  | KInt k => KPair k k
  | KPair a b => KPair a b
  end.

(** The host of the examples; [_compress_shape] and [_recover_shape] (of
    [igcn/utils.py]) leave a rank-5 tensor as it is. *)
#[export] Instance host : Host :=
  Build_Host
    conv2d conv_transpose2d conv2d_accepts
    max_pool2d max_pool2d_return_indices avg_pool2d
    (fun sigma s => const sigma s)
    (fun low high s => const ((low + high) / 2) s)
    (fun _ s => const 0 s)
    gabor_cmplx
    (fun x => (x, tt))
    (fun x _ => x)
    _pair.

End Ref.

(* ================================================================== *)
(** ** A small layer to run

    Two Gabor filters with real parts [f0], [f1] and three base output
    channels with real kernels [w0], [w1], [w2]; one input channel, 1x1
    kernels, imaginary parts of filters and kernels all 1; the filter bank
    has not been generated yet.  The input is the single complex pixel
    [1 + 0i]. *)

Module Demo.

Definition layer (gabor_pooling : IGConvCmplx.pooling) (f0 f1 w0 w1 w2 : R)
  : IGConvCmplx.t :=
  {| IGConvCmplx.ReConv := Conv2d.mk 1 3 (mkT [3; 1; 1; 1]%nat [w0; w1; w2]);
     IGConvCmplx.ImConv := Conv2d.mk 1 3 (mkT [3; 1; 1; 1]%nat [1; 1; 1]);
     IGConvCmplx.gabor :=
       IGaborCmplx.mk (mkT [2; 2]%nat [f0; f1; 1; 1])
         (Ref.const 0 [2; 2; 1; 1; 1; 1]%nat) 2 false true;
     IGConvCmplx.no_g := 2;
     IGConvCmplx.gabor_pooling := gabor_pooling;
     IGConvCmplx.include_gparams := false;
     IGConvCmplx.conv_kwargs := [] |}.

Definition x : tensor R := mkT [2; 1; 1; 1; 1]%nat [1; 0].

(** The reshaped convolution output that [forward] pools over. *)
Definition pool_out (self : IGConvCmplx.t) : result (tensor R) :=
  let ew := snd (@IGConvCmplx.enhanced_weight Ref.host self) in
  IGConvCmplx.pool_view self ew (@conv_cmplx Ref.host x ew false []).

End Demo.

(* ================================================================== *)
(** ** Further exceptions *)

(** The exceptions met in the rest of the code, beside those of [error]. *)
Inductive exception : Type :=
| Builtin (e : error)
| AttributeError (name : string)
| IndexError
| AssertionError
| KeyError (key : string).

Inductive outcome (A : Type) : Type :=
| Returns (a : A)
| Raises (e : exception).

Arguments Returns {A} _.
Arguments Raises {A} _.

Definition lift {A} (r : result A) : outcome A :=
  match r with
  | Ok a => Returns a
  | Raise e => Raises (Builtin e)
  end.

Definition and_then {A B} (r : outcome A) (k : A -> outcome B) : outcome B :=
  match r with
  | Returns a => k a
  | Raises e => Raises e
  end.

Notation "x <~ r ;; k" := (and_then r (fun x => k))
  (at level 61, r at next level, right associativity).

(* ================================================================== *)
(** ** Further functions of igcn/cmplx.py *)

(** Arithmetic operators of torch, with broadcasting. *)
Definition badd : tensor R -> tensor R -> tensor R := bop 0 0 Rplus.
Definition bsub : tensor R -> tensor R -> tensor R := bop 0 0 Rminus.
Definition bmul : tensor R -> tensor R -> tensor R := bop 0 0 Rmult.
Definition bdiv : tensor R -> tensor R -> tensor R := bop 0 0 Rdiv.

(** [torch.nn.functional.relu]. *)
Definition relu (t : tensor R) : tensor R := tmap (fun v => Rmax v 0) t.

(** [t.repeat(reps)]: torch refuses fewer repetitions than the tensor has
    axes; otherwise the shape is padded on the left with ones up to the
    number of repetitions, then every axis is tiled. *)
Definition trepeat {A} (dflt : A) (reps : list nat) (t : tensor A)
  : option (tensor A) :=
  if (length reps <? dim t)%nat then None
  else
    let s := pad (length reps) (shape t) in
    Some (tabulate (map (fun p => (fst p * snd p)%nat) (combine reps s))
            (fun I => get dflt (mkT s (data t))
                        (map (fun p => (snd p mod fst p)%nat) (combine s I)))).

(** [phase(x, eps)]. *)
Definition phase (x : tensor R) (eps : R) : tensor R :=
  tmap atan (bdiv (select0 x 1) (tmap (fun v => Rmax v eps) (select0 x 0))).

(** The local function [mult] of [cmplx_mult]. *)
Definition mult (x y : tensor R) : tensor R :=
  stack [bsub (bmul (select0 x 0) (select0 y 0))
              (bmul (select0 x 1) (select0 y 1));
         badd (bmul (select0 x 0) (select0 y 1))
              (bmul (select0 x 1) (select0 y 0))].

(** [cmplx_mult( *args )]. *)
Definition cmplx_mult (args : list (tensor R)) : outcome (tensor R) :=
  match args with
  | [x; y] => Returns (mult x y)
  | [] => Raises IndexError
  | prod :: items => Returns (fold_left mult items prod)
  end.

(** [relu_cmplx(x)]. *)
Definition relu_cmplx (x : tensor R) : tensor R :=
  cmplx (relu (select0 x 0)) (relu (select0 x 1)).

(** The argument [b] of [relu_cmplx_mod]: its default is a Python float,
    callers pass a tensor. *)
Inductive bias : Type :=
| BFloat (v : R)
| BTensor (t : tensor R).

(** [relu_cmplx_mod(x, b)]. *)
Definition relu_cmplx_mod (x : tensor R) (b : bias) : outcome (tensor R) :=
  let r := magnitude x eps_default false in
  match b with
  | BFloat _ => Raises (AttributeError "dim")
  | BTensor b =>
      let b :=
        if (dim r <? dim b)%nat then flatten_from 0 b
        else if (dim b <? dim r)%nat then unsqueeze (dim b) b
        else b in
      Returns (bdiv (bmul (relu (badd r b)) x) r)
  end.

(** What [gather] asks of the index shape: off the gathered axis [d] the
    index is no larger than the tensor. *)
Definition index_fits (d : nat) (si sx : list nat) : bool :=
  forallb (fun k => (k =? d)%nat || (nth k si 0 <=? nth k sx 0)%nat)
    (seq 0 (length si)).

(** [max_summed_mag_gabor_pool(x)].  In the order of the source:
    [sum(dim=(-1, -2))] needs two axes and [torch.max(dim=2)] three, of
    nonzero size along the reduced one ([IndexError] otherwise); [repeat]
    takes at least as many repetitions as there are axes, and [gather] an
    index of the rank of [x] that fits into [x] off the gathered axis
    ([RuntimeError] otherwise). *)
Definition max_summed_mag_gabor_pool (x : tensor R)
  : outcome (tensor R * tensor nat) :=
  let r := magnitude x eps_default false in
  if (dim r <? 3)%nat then Raises IndexError
  else
    let r_summed :=
      reduce_dim 0 sum (dim r - 2) true
        (reduce_dim 0 sum (dim r - 1) true r) in
    if (nth 2 (shape r_summed) 0 =? 0)%nat then Raises IndexError
    else
      let idxs := snd (torch_max r_summed 2 true) in
      match
        trepeat 0%nat
          [2; 1; 1; 1; nth (dim x - 2) (shape x) 0;
           nth (dim x - 1) (shape x) 0]%nat
          (unsqueeze 0 idxs)
      with
      | None => Raises (Builtin RuntimeError)
      | Some idxs =>
          if negb (dim idxs =? dim x)%nat
             || negb (index_fits 3 (shape idxs) (shape x))
          then Raises (Builtin RuntimeError)
          else
            match gather 0 3 x idxs with
            | Some g => Returns (squeeze 3 g, idxs)
            | None => Raises (Builtin RuntimeError)
            end
      end.

Section Softmax.
(** [torch.nn.functional.softmax], with its optional axis. *)
Variable softmax : tensor R -> option Z -> tensor R.


End Softmax.

(* ================================================================== *)
(** ** Further modules of igcn/cmplx_modules.py *)

Module ConvCmplx.
Section WithHost.
Context {H : Host}.

Record t : Type := mk {
  ReConv : Conv2d.t;
  ImConv : Conv2d.t;
  conv_kwargs : kwargs
}.

(** [ConvCmplx(input_features, output_features, kernel_size, weight_init,
    **conv_kwargs)]. *)
Definition __init__ (input_features output_features : Z)
  (kernel_size : ksize) (weight_init : option string) (conv_kwargs : kwargs)
  : result t :=
  let kernel_size := _pair kernel_size in
  ReConv <-
    Conv2d.__init__ "ReConv.weight" input_features output_features
      kernel_size conv_kwargs ;;
  ImConv <-
    Conv2d.__init__ "ImConv.weight" input_features output_features
      kernel_size conv_kwargs ;;
  ReConv <-
    match weight_init with
    | Some s =>
        (* init_weights(self.ReConv.weight, self.ImConv.weight, weight_init) *)
        w <- init_weights (Conv2d.weight ReConv)
               (PyTensor (Conv2d.weight ImConv)) (negb (String.eqb s "")) ;;
        Ok (Conv2d.mk (Conv2d.in_channels ReConv)
              (Conv2d.out_channels ReConv) w)
    | None => Ok ReConv
    end ;;
  Ok {| ReConv := ReConv; ImConv := ImConv; conv_kwargs := conv_kwargs |}.

Definition forward (self : t) (x : tensor R) : result (tensor R) :=
  let cmplx_weight :=
    cmplx (Conv2d.weight (ReConv self)) (Conv2d.weight (ImConv self)) in
  if negb (conv_cmplx_accepts x cmplx_weight (conv_kwargs self))
  then Raise RuntimeError
  else Ok (conv_cmplx x cmplx_weight false (conv_kwargs self)).

End WithHost.
End ConvCmplx.

Module ReLUCmplx.
Section WithHost.
Context {H : Host}.

(** The function bound to [self.relu]. *)
Inductive fn : Type :=
| Fn_relu_cmplx
| Fn_relu_cmplx_z
| Fn_relu_cmplx_mod.

Record t : Type := mk {
  inplace : bool;
  b : option (tensor R);   (* relu_kwargs['b'], present for 'mod' *)
  relu : option fn         (* the attribute is absent for an unknown type *)
}.

(** [ReLUCmplx(inplace, relu_type, channels)]. *)
Definition __init__ (inplace : bool) (relu_type : pyobj)
  (channels : option Z) : outcome t :=
  if py_eq_str relu_type "c"
  then Returns {| inplace := inplace; b := None; relu := Some Fn_relu_cmplx |}
  else if py_eq_str relu_type "z"
  then Returns {| inplace := inplace; b := None; relu := Some Fn_relu_cmplx_z |}
  else if py_eq_str relu_type "mod"
  then
    match channels with
    | None => Raises AssertionError
    | Some c =>
        if (c <? 0)%Z then Raises (Builtin RuntimeError)
        else if (c =? 0)%Z then Raises (Builtin ZeroDivisionError)
        else
          Returns {| inplace := inplace;
                     b := Some (uniform (- 2 / sqrt (IZR c)) 0
                                  [Z.to_nat c; 1; 1]%nat);
                     relu := Some Fn_relu_cmplx_mod |}
    end
  else Returns {| inplace := inplace; b := None; relu := None |}.

(** [forward(x)], that is [self.relu(x, **self.relu_kwargs)]. *)
Definition forward (self : t) (x : tensor R) : outcome (tensor R) :=
  match relu self with
  | None => Raises (AttributeError "relu")
  | Some Fn_relu_cmplx => Returns (relu_cmplx x)
  | Some Fn_relu_cmplx_z => Returns (relu_cmplx_z x)
  | Some Fn_relu_cmplx_mod =>
      relu_cmplx_mod x
        match b self with
        | Some b => BTensor b
        | None => BFloat eps_default
        end
  end.

End WithHost.
End ReLUCmplx.

(* ================================================================== *)
(** ** igcn/models.py: the complex convolution blocks *)

(** ['sub' in s] for Python strings. *)
Fixpoint contains (sub s : string) : bool :=
  String.prefix sub s
  || match s with
     | EmptyString => false
     | String _ s' => contains sub s'
     end.

Module Block.
Section WithHost.
Context {H : Host}.

(** The pooling class bound to the local name [Pool]. *)
Inductive pool_class : Type :=
| ClsMaxPoolCmplx
| ClsAvgPoolCmplx.

Inductive pool_module : Type :=
| AMaxPool (m : MaxPoolCmplx.t)
| AnAvgPool (m : AvgPoolCmplx.t).

(** [if 'max' in pooling: ... elif pooling == 'avg': ...]; the name stays
    unbound otherwise. *)
Definition select_Pool (pooling : string) : option pool_class :=
  if contains "max" pooling then Some ClsMaxPoolCmplx
  else if String.eqb pooling "avg" then Some ClsAvgPoolCmplx
  else None.

(** [Pool(kernel_size=2, stride=2)]. *)
Definition make_Pool (Pool : option pool_class) : outcome pool_module :=
  match Pool with
  | None => Raises (Builtin (UnboundLocalError "Pool"))
  | Some ClsMaxPoolCmplx =>
      Returns (AMaxPool (MaxPoolCmplx.__init__ (KInt 2) true [("stride"%string, 2%Z)]))
  | Some ClsAvgPoolCmplx =>
      Returns (AnAvgPool (AvgPoolCmplx.__init__ (KInt 2) [("stride"%string, 2%Z)]))
  end.

(** [n if p is not None else 1]. *)
Definition div_of (no_g : Z) (pooling : option string) : Z :=
  match pooling with
  | Some _ => no_g
  | None => 1%Z
  end.

Record single : Type := mk_single {
  s_conv : IGConvCmplx.t;
  s_pool : pool_module;
  s_bnorm_eps : R;
  s_relu : ReLUCmplx.t
}.

(** [SingleIGConvCmplx(in_channels, out_channels, kernel_size, no_g,
    prev_gabor_pooling, gabor_pooling, pooling, weight_init, last)]. *)
Definition SingleIGConvCmplx (in_channels out_channels kernel_size no_g : Z)
  (prev_gabor_pooling gabor_pooling : option string) (pooling : string)
  (weight_init : option string) (last : bool) : outcome single :=
  let padding := (kernel_size / 2 - 1)%Z in
  let max_g_div := div_of no_g gabor_pooling in
  let prev_max_g_div := div_of no_g prev_gabor_pooling in
  let Pool := select_Pool pooling in
  conv <~ lift (i <- py_floordiv in_channels prev_max_g_div ;;
                o <- py_floordiv out_channels max_g_div ;;
                IGConvCmplx.__init__ i o (KInt kernel_size) no_g gabor_pooling
                  false weight_init [("padding"%string, padding)]) ;;
  pool <~ make_Pool Pool ;;
  relu <~ ReLUCmplx.__init__ true (PyStr "c") None ;;
  Returns {| s_conv := conv; s_pool := pool; s_bnorm_eps := eps_default;
             s_relu := relu |}.

Record double : Type := mk_double {
  d_conv1 : IGConvCmplx.t;
  d_conv2 : IGConvCmplx.t;
  d_pool : pool_module;
  d_bnorm_eps : R;
  d_relu : ReLUCmplx.t
}.

(** [DoubleIGConvCmplx(in_channels, out_channels, kernel_size, no_g,
    prev_gabor_pooling, gabor_pooling, pooling, weight_init, all_gp, first,
    last)]. *)
Definition DoubleIGConvCmplx (in_channels out_channels kernel_size no_g : Z)
  (prev_gabor_pooling gabor_pooling : option string) (pooling : string)
  (weight_init : option string) (all_gp first last : bool) : outcome double :=
  let padding := (kernel_size / 2 - 1)%Z in
  let all_gp_div := if all_gp then no_g else 1%Z in
  let max_g_div := div_of no_g gabor_pooling in
  let prev_max_g_div := div_of no_g prev_gabor_pooling in
  let first_div := if first then 2%Z else 1%Z in
  let all_gp := if all_gp then gabor_pooling else None in
  let Pool := select_Pool pooling in
  conv1 <~ lift (i <- py_floordiv in_channels prev_max_g_div ;;
                 h <- py_floordiv out_channels first_div ;;
                 o <- py_floordiv h all_gp_div ;;
                 IGConvCmplx.__init__ i o (KInt kernel_size) no_g all_gp
                   false weight_init [("padding"%string, padding)]) ;;
  conv2 <~ lift (h <- py_floordiv out_channels first_div ;;
                 i <- py_floordiv h all_gp_div ;;
                 o <- py_floordiv out_channels max_g_div ;;
                 IGConvCmplx.__init__ i o (KInt kernel_size) no_g
                   gabor_pooling false weight_init
                   [("padding"%string, (padding + (if last then 1 else 0))%Z)]) ;;
  pool <~ make_Pool Pool ;;
  relu <~ ReLUCmplx.__init__ true (PyStr "c") None ;;
  Returns {| d_conv1 := conv1; d_conv2 := conv2; d_pool := pool;
             d_bnorm_eps := eps_default; d_relu := relu |}.

(** The forward call of the pooling stage of a block. *)
Definition pool_forward (p : pool_module) (x : tensor R)
  : result (tensor R) :=
  match p with
  | AMaxPool m => MaxPoolCmplx.forward m x
  | AnAvgPool m => AvgPoolCmplx.forward m x
  end.

End WithHost.
End Block.

(* ================================================================== *)
(** ** segmentation.py *)

Module Segmentation.

Inductive metrics_class : Type :=
| DAFMetric
| RCFMetric
| DenoisingTracker
| SegmentationTracker
| MultiClassSegmentationTracker.

Inductive criterion : Type :=
| DAFLoss
| RCFLoss
| MSELoss
| BCEWithLogitsLoss
| CrossEntropyLoss.

(** [get_metrics_criterion(variant, denoise, binary)]. *)
Definition get_metrics_criterion (variant : string) (denoise binary : bool)
  : option (metrics_class * criterion) :=
  let chosen : option (metrics_class * criterion) := None in
  let chosen :=
    if contains "DAF" variant then Some (DAFMetric, DAFLoss) else chosen in
  let chosen :=
    if contains "RCF" variant then Some (RCFMetric, RCFLoss)
    else if denoise then Some (DenoisingTracker, MSELoss)
    else if binary then Some (SegmentationTracker, BCEWithLogitsLoss)
    else Some (MultiClassSegmentationTracker, CrossEntropyLoss) in
  chosen.

(** [key.split('.')[-1]]. *)
Fixpoint last_component_from (acc key : string) : string :=
  match key with
  | EmptyString => acc
  | String c key' =>
      if Ascii.eqb c (Ascii.ascii_of_nat 46) then
        last_component_from EmptyString key'
      else last_component_from (String.append acc (String c EmptyString)) key'
  end.

Definition last_component (key : string) : string :=
  last_component_from EmptyString key.

(** [checkpoint['model_state_dict']], an ordered dictionary. *)
Definition state_dict : Type := list (string * tensor R).

Fixpoint dict_get (key : string) (d : state_dict) : option (tensor R) :=
  match d with
  | [] => None
  | (k, v) :: d' => if String.eqb k key then Some v else dict_get key d'
  end.

(** [d[key] = v]. *)
Fixpoint dict_set (key : string) (v : tensor R) (d : state_dict)
  : state_dict :=
  match d with
  | [] => [(key, v)]
  | (k, w) :: d' =>
      if String.eqb k key then (k, v) :: d' else (k, w) :: dict_set key v d'
  end.

(** [model.preprocess]: [None], a scaling module with its [n_scaling], or
    an object without that attribute. *)
Inductive preprocess : Type :=
| PreNone
| PreScaling (n_scaling : Z)
| PreOther.

(** The loop of [load] over the keys: an entry whose last key component is
    [gabor_filters] gets a new axis at position 1, which torch refuses for a
    tensor without axes. *)
Fixpoint legacy_fix (d : state_dict) : outcome state_dict :=
  match d with
  | [] => Returns []
  | (k, v) :: d' =>
      v <~ (if String.eqb (last_component k) "gabor_filters"
            then if (dim v <? 1)%nat then Raises IndexError
                 else Returns (unsqueeze 1 v)
            else Returns v) ;;
      rest <~ legacy_fix d' ;;
      Returns ((k, v) :: rest)
  end.

(** [load(model, save_path, legacy, pretrain, att)], from the state
    dictionary read from [save_path] to the one handed to
    [model.load_state_dict]. *)
Definition load (pre : preprocess) (checkpoint : state_dict)
  (legacy pretrain att : bool) : outcome state_dict :=
  checkpoint <~
    (if pretrain then
       let scal_key :=
         (if att then "down1.0.weight" else "inc.conv1.0.weight")%string in
       match dict_get scal_key checkpoint with
       | None => Raises (KeyError scal_key)
       | Some weight =>
           out_c <~ match pre with
                    | PreNone => Returns 1%Z
                    | PreScaling n => Returns n
                    | PreOther => Raises (AttributeError "n_scaling")
                    end ;;
           if (2 * out_c <? 0)%Z then Raises (Builtin RuntimeError)
           else
             match trepeat 0 [1; 1; Z.to_nat (2 * out_c); 1; 1]%nat weight with
             | None => Raises (Builtin RuntimeError)
             | Some w =>
                 Returns (dict_set scal_key (if att then squeeze 0 w else w)
                            checkpoint)
             end
       end
     else Returns checkpoint) ;;
  if legacy then legacy_fix checkpoint else Returns checkpoint.

End Segmentation.

(* ================================================================== *)
(** * Properties *)

(** ** Indexing of row-major tensors *)

Section Indexing.
Variable A : Type.
Implicit Types (s I : list nat) (t : tensor A).

Lemma in_range_length s : forall I, in_range s I -> length I = length s.
Proof.
  induction s as [|d s IH]; intros [|i I]; simpl; try tauto.
  intros [_ HI]. f_equal. now apply IH.
Qed.

Lemma ravel_lt s : forall I, in_range s I -> (ravel s I < numel s)%nat.
Proof.
  induction s as [|d s IH]; intros [|i I]; simpl; try tauto; try lia.
  intros [Hi HI]. specialize (IH _ HI). nia.
Qed.

Lemma unravel_ravel s : forall I, in_range s I -> unravel s (ravel s I) = I.
Proof.
  induction s as [|d s IH]; intros [|i I]; simpl; try tauto.
  intros [Hi HI]. pose proof (ravel_lt _ _ HI) as Hlt.
  assert (Hn : numel s <> 0%nat) by lia.
  rewrite Nat.div_add_l by exact Hn.
  rewrite (Nat.div_small (ravel s I)) by exact Hlt.
  rewrite Nat.add_0_r. f_equal.
  rewrite Nat.add_comm, Nat.Div0.mod_add.
  rewrite Nat.mod_small by exact Hlt. now apply IH.
Qed.

Lemma get_tabulate (d : A) s (f : list nat -> A) I :
  in_range s I -> get d (tabulate s f) I = f I.
Proof.
  intros HI. unfold get, tabulate; simpl.
  pose proof (ravel_lt _ _ HI) as Hlt.
  rewrite (nth_indep _ d (f (unravel s 0))) by (now rewrite length_map, length_seq).
  rewrite (map_nth (fun k => f (unravel s k)) (seq 0 (numel s)) 0%nat).
  rewrite seq_nth by exact Hlt. simpl. now rewrite unravel_ravel.
Qed.

Lemma wf_tabulate s (f : list nat -> A) : wf (tabulate s f).
Proof. unfold wf, tabulate; simpl. now rewrite length_map, length_seq. Qed.

(** Indexing a slice is indexing the tensor with the slice number in
    front. *)
Lemma get_select0 (d : A) t i d0 s I :
  shape t = d0 :: s -> in_range s I ->
  get d (select0 t i) I = get d t (i :: I).
Proof.
  intros Hs HI. unfold get, select0. rewrite Hs. simpl.
  pose proof (ravel_lt _ _ HI) as Hlt.
  rewrite nth_firstn.
  destruct (ravel s I <? numel s)%nat eqn:E.
  - now rewrite nth_skipn.
  - apply Nat.ltb_ge in E. lia.
Qed.

(** The two slices of a stacked pair are its components. *)
Lemma select0_cmplx_0 (re im : tensor A) :
  wf re -> select0 (cmplx re im) 0 = re.
Proof.
  destruct re as [s l]. unfold wf, select0, cmplx, stack; simpl.
  intros Hl. f_equal. rewrite app_nil_r, <- Hl.
  rewrite firstn_app, Nat.sub_diag, firstn_all. simpl. now rewrite app_nil_r.
Qed.

Lemma select0_cmplx_1 (re im : tensor A) :
  wf re -> wf im -> shape im = shape re -> select0 (cmplx re im) 1 = im.
Proof.
  destruct re as [s l], im as [s' l']. unfold wf, select0, cmplx, stack; simpl.
  intros Hl Hl' ->. f_equal. rewrite app_nil_r, Nat.add_0_r, <- Hl.
  rewrite skipn_app, Nat.sub_diag, skipn_all. simpl.
  rewrite Hl, <- Hl'. apply firstn_all.
Qed.

Lemma shape_cmplx (re im : tensor A) : shape (cmplx re im) = 2%nat :: shape re.
Proof. reflexivity. Qed.

Lemma wf_cmplx (re im : tensor A) :
  wf re -> wf im -> shape im = shape re -> wf (cmplx re im).
Proof.
  unfold wf, cmplx, stack; simpl. intros Hr Hi Hs.
  rewrite app_nil_r, length_app, Hr, Hi, Hs. lia.
Qed.

(** Elements of a stacked pair. *)
Lemma get_cmplx_0 (d : A) (re im : tensor A) I :
  in_range (shape re) I -> wf re ->
  get d (cmplx re im) (0%nat :: I) = get d re I.
Proof.
  intros HI Hr.
  rewrite <- get_select0 with (d0 := 2%nat) (s := shape re)
    by (trivial; apply shape_cmplx).
  now rewrite select0_cmplx_0.
Qed.

Lemma get_cmplx_1 (d : A) (re im : tensor A) I :
  in_range (shape re) I -> wf re -> wf im -> shape im = shape re ->
  get d (cmplx re im) (1%nat :: I) = get d im I.
Proof.
  intros HI Hr Hi Hs.
  rewrite <- get_select0 with (d0 := 2%nat) (s := shape re)
    by (trivial; apply shape_cmplx).
  now rewrite select0_cmplx_1.
Qed.

End Indexing.

Section Elementwise.
Variables A B : Type.

Lemma get_tmap (d : A) (d' : B) (f : A -> B) (t : tensor A) I :
  wf t -> in_range (shape t) I -> get d' (tmap f t) I = f (get d t I).
Proof.
  intros Hw HI. unfold get, tmap; simpl.
  pose proof (ravel_lt _ _ HI) as Hlt. rewrite <- Hw in Hlt.
  rewrite (nth_indep _ d' (f d)) by (now rewrite length_map).
  apply map_nth.
Qed.

Lemma wf_tmap (f : A -> B) (t : tensor A) : wf t -> wf (tmap f t).
Proof. unfold wf, tmap; simpl. now rewrite length_map. Qed.

(** Summing (or otherwise reducing) the leading axis of a pair. *)
Lemma get_reduce_dim0 (d : A) (f : list A -> B) (d' : B) (t : tensor A) s I :
  shape t = 2%nat :: s -> in_range s I ->
  get d' (reduce_dim d f 0 false t) I
  = f [get d t (0%nat :: I); get d t (1%nat :: I)].
Proof.
  intros Hs HI. unfold reduce_dim, remove_at, fibre, insert_at.
  rewrite Hs. simpl. now rewrite get_tabulate.
Qed.

End Elementwise.

(* ------------------------------------------------------------------ *)
(** ** Magnitude *)

Lemma shape_magnitude (x : tensor R) (eps : R) (s : list nat) :
  shape x = 2%nat :: s -> shape (magnitude x eps false) = s.
Proof. intros Hs. unfold magnitude, reduce_dim, remove_at. simpl. now rewrite Hs. Qed.

Lemma wf_magnitude (x : tensor R) (eps : R) : wf (magnitude x eps false).
Proof. unfold magnitude. apply wf_tmap, wf_tmap, wf_tabulate. Qed.

Lemma get_magnitude (x : tensor R) (eps : R) (s I : list nat) :
  shape x = 2%nat :: s -> wf x -> in_range s I ->
  get 0 (magnitude x eps false) I
  = sqrt (Rmax (get 0 x (0%nat :: I) ^ 2 + get 0 x (1%nat :: I) ^ 2) eps).
Proof.
  intros Hs Hw HI. unfold magnitude.
  set (r := reduce_dim 0 sum 0 false (tmap (fun v => v ^ 2) x)).
  assert (Hr : shape r = s).
  { unfold r, reduce_dim, remove_at. simpl. now rewrite Hs. }
  assert (Hwr : wf r) by apply wf_tabulate.
  rewrite get_tmap with (d := 0);
    [| now apply wf_tmap | change (in_range (shape r) I); now rewrite Hr].
  rewrite get_tmap with (d := 0); [| exact Hwr | now rewrite Hr].
  unfold r. rewrite get_reduce_dim0 with (s := s) by (trivial; exact Hs).
  rewrite !get_tmap with (d := 0)
    by (trivial; rewrite Hs; simpl; split; (lia || assumption)).
  unfold sum. simpl. do 2 f_equal. ring.
Qed.

(** With exact real arithmetic in place of floating point, each element of
    [magnitude] is [sqrt (max (re^2 + im^2) eps)], its square is within
    [eps] of [re^2 + im^2], and it is at least [sqrt eps]. *)
Lemma magnitude_exact_arithmetic (re im : tensor R) (eps : R) (I : list nat) :
  wf re -> wf im -> shape im = shape re -> 0 < eps ->
  in_range (shape re) I ->
  let m := get 0 (magnitude (cmplx re im) eps false) I in
  let s := get 0 re I ^ 2 + get 0 im I ^ 2 in
  shape (magnitude (cmplx re im) eps false) = shape re
  /\ wf (magnitude (cmplx re im) eps false)
  /\ m = sqrt (Rmax s eps)
  /\ Rabs (m ^ 2 - s) <= eps
  /\ sqrt eps <= m
  /\ 0 < m.
Proof.
  intros Hr Hi Hs Heps HI m s.
  assert (Hm : m = sqrt (Rmax s eps)).
  { unfold m, s.
    rewrite get_magnitude with (s := shape re)
      by (trivial; (apply shape_cmplx || now apply wf_cmplx)).
    rewrite get_cmplx_0, get_cmplx_1 by assumption. reflexivity. }
  assert (Hs0 : 0 <= s) by (unfold s; nra).
  assert (HM : eps <= Rmax s eps) by apply Rmax_r.
  assert (HM' : s <= Rmax s eps) by apply Rmax_l.
  assert (Hsq : m ^ 2 = Rmax s eps).
  { rewrite Hm. simpl. rewrite Rmult_1_r. apply sqrt_sqrt. lra. }
  split; [apply shape_magnitude, shape_cmplx|].
  split; [apply wf_magnitude|].
  split; [exact Hm|].
  split.
  - rewrite Hsq. unfold Rmax in *. destruct (Rle_dec s eps);
      apply Rabs_le; lra.
  - split.
    + rewrite Hm. apply sqrt_le_1_alt. exact HM.
    + rewrite Hm. apply sqrt_lt_R0. lra.
Qed.

(* ------------------------------------------------------------------ *)
(** ** Magnitude in floating point *)

Section Rounding.
Variables prec emax : Z.
Hypothesis prec_gt_0 : (0 < prec)%Z.
Hypothesis emax_ge : (prec + 2 <= emax)%Z.




























(** *** The rounded square root is monotone *)
















(** *** Rounding gives numbers of the format *)












End Rounding.



(* ------------------------------------------------------------------ *)
(** ** Broadcasting a condition over the complex axis *)

Lemma map_combine_self (f : nat * nat -> nat) (s : list nat) :
  (forall d, f (d, d) = d) -> map f (combine s s) = s.
Proof. intros Hf. induction s as [|d s IH]; simpl; [|rewrite Hf, IH]; reflexivity. Qed.

Lemma bshape_same (s : list nat) : bshape s s = s.
Proof.
  unfold bshape, pad. rewrite Nat.max_id, Nat.sub_diag. simpl.
  apply map_combine_self. intros d; simpl. now destruct (d =? 1)%nat.
Qed.

Lemma bshape_cons (d0 : nat) (s : list nat) : bshape s (d0 :: s) = d0 :: s.
Proof.
  unfold bshape, pad. simpl length.
  rewrite Nat.max_r by lia.
  replace (S (length s) - length s)%nat with 1%nat by lia.
  rewrite Nat.sub_diag. simpl. f_equal.
  apply map_combine_self. intros d; simpl. now destruct (d =? 1)%nat.
Qed.

Lemma bidx_full (s I : list nat) : in_range s I -> bidx s I = I.
Proof.
  intros HI. unfold bidx.
  rewrite (in_range_length _ _ HI), Nat.sub_diag. simpl.
  revert I HI. induction s as [|d s IH]; intros [|i I]; simpl; try tauto.
  intros [Hi HI]. rewrite IH by exact HI. f_equal.
  destruct (d =? 1)%nat eqn:E; [apply Nat.eqb_eq in E; lia | reflexivity].
Qed.

Lemma bidx_tail (s I : list nat) (c0 : nat) :
  in_range s I -> bidx s (c0 :: I) = I.
Proof.
  intros HI. pose proof (bidx_full _ _ HI) as Hb. unfold bidx in *.
  simpl length. rewrite (in_range_length _ _ HI) in *.
  replace (S (length s) - length s)%nat with 1%nat by lia.
  rewrite Nat.sub_diag in Hb. exact Hb.
Qed.

Section Where.
Variable A : Type.
Variable d : A.

Lemma shape_where (c : tensor bool) (x y : tensor A) d0 s :
  shape c = s -> shape x = d0 :: s -> shape y = d0 :: s ->
  shape (where_ d c x y) = d0 :: s.
Proof.
  intros Hc Hx Hy. unfold where_. simpl.
  now rewrite Hc, Hx, Hy, bshape_cons, bshape_same.
Qed.

Lemma get_where (c : tensor bool) (x y : tensor A) d0 s c0 I :
  shape c = s -> shape x = d0 :: s -> shape y = d0 :: s ->
  (c0 < d0)%nat -> in_range s I ->
  get d (where_ d c x y) (c0 :: I)
  = if get false c I then get d x (c0 :: I) else get d y (c0 :: I).
Proof.
  intros Hc Hx Hy Hc0 HI. unfold where_.
  rewrite Hc, Hx, Hy, bshape_cons, bshape_same.
  assert (HI' : in_range (d0 :: s) (c0 :: I)) by (simpl; tauto).
  rewrite get_tabulate by exact HI'.
  now rewrite (bidx_full _ _ HI'), bidx_tail.
Qed.

End Where.

Lemma wf_select0 (A : Type) (t : tensor A) d0 s i :
  shape t = d0 :: s -> wf t -> (i < d0)%nat -> wf (select0 t i).
Proof.
  unfold wf, select0. intros Hs Hw Hi. rewrite Hs in *. simpl in *.
  rewrite length_firstn, length_skipn. nia.
Qed.

Lemma get_zeros_like (t : tensor R) I : get 0 (zeros_like t) I = 0.
Proof.
  unfold get, zeros_like, tmap; simpl.
  generalize (ravel (shape t) I). induction (data t) as [|a l IH]; intros [|k]; simpl; auto.
Qed.

Lemma Rgtb_spec (a : R) : Rgtb a 0 = true <-> 0 < a.
Proof. unfold Rgtb. destruct (Rlt_dec 0 a); split; intros; (congruence || lra || tauto). Qed.

(* ------------------------------------------------------------------ *)
(** ** The 'z' rectifier *)

Lemma get_relu_cmplx_z (x : tensor R) (s : list nat) (c : nat) (I : list nat) :
  shape x = 2%nat :: s -> wf x -> (c < 2)%nat -> in_range s I ->
  get 0 (relu_cmplx_z x) (c :: I)
  = if Rgtb (get 0 x (0%nat :: I)) 0 && Rgtb (get 0 x (1%nat :: I)) 0
    then get 0 x (c :: I) else 0.
Proof.
  intros Hs Hw Hc HI. unfold relu_cmplx_z.
  set (c1 := tmap (fun v => Rgtb v 0) (select0 x 0)).
  set (x1 := where_ 0 c1 x (zeros_like x)).
  assert (Hc1 : shape c1 = s) by (unfold c1; simpl; now rewrite Hs).
  assert (Hx1 : shape x1 = 2%nat :: s)
    by (apply shape_where; trivial; simpl; exact Hs).
  assert (Hg1 : forall c', (c' < 2)%nat ->
            get 0 x1 (c' :: I)
            = if Rgtb (get 0 x (0%nat :: I)) 0 then get 0 x (c' :: I) else 0).
  { intros c' Hc'. unfold x1.
    rewrite get_where with (d0 := 2%nat) (s := s) by (trivial; simpl; exact Hs).
    unfold c1. rewrite get_tmap with (d := 0);
      [| apply wf_select0 with (d0 := 2%nat) (s := s); (trivial || lia)
       | simpl; now rewrite Hs ].
    rewrite get_select0 with (d0 := 2%nat) (s := s) by trivial.
    now rewrite get_zeros_like. }
  assert (Hw1 : wf x1) by apply wf_tabulate.
  clearbody x1.
  rewrite get_where with (d0 := 2%nat) (s := s);
    [| simpl; now rewrite Hx1 | exact Hx1 | simpl; exact Hx1 | exact Hc | exact HI].
  rewrite get_tmap with (d := 0);
    [| apply wf_select0 with (d0 := 2%nat) (s := s);
       [exact Hx1 | exact Hw1 | lia]
     | simpl; now rewrite Hx1 ].
  rewrite get_select0 with (d0 := 2%nat) (s := s) by trivial.
  rewrite get_zeros_like, !Hg1 by lia.
  destruct (Rgtb (get 0 x (0%nat :: I)) 0); simpl; [reflexivity|].
  destruct (Rgtb 0 0) eqn:E; [apply Rgtb_spec in E; lra | reflexivity].
Qed.

(** C8. The 'z' rectifier is a joint gate: at every element position the
    complex value passes unchanged, in both components, when the real and
    the imaginary component there are both strictly positive, and both
    components of the output are zero otherwise. *)
Theorem relu_cmplx_z_joint_gate (x : tensor R) (s I : list nat) :
  shape x = 2%nat :: s -> wf x -> in_range s I ->
  let re := get 0 x (0%nat :: I) in
  let im := get 0 x (1%nat :: I) in
  let re' := get 0 (relu_cmplx_z x) (0%nat :: I) in
  let im' := get 0 (relu_cmplx_z x) (1%nat :: I) in
  shape (relu_cmplx_z x) = shape x
  /\ (0 < re /\ 0 < im -> re' = re /\ im' = im)
  /\ (~ (0 < re /\ 0 < im) -> re' = 0 /\ im' = 0).
Proof.
  intros Hs Hw HI re im re' im'.
  assert (Hre : re' = if Rgtb re 0 && Rgtb im 0 then re else 0)
    by (apply get_relu_cmplx_z with (s := s); trivial; lia).
  assert (Him : im' = if Rgtb re 0 && Rgtb im 0 then im else 0)
    by (apply get_relu_cmplx_z with (s := s); trivial; lia).
  split.
  { unfold relu_cmplx_z.
    set (x1 := where_ 0 _ x (zeros_like x)).
    assert (Hx1 : shape x1 = 2%nat :: s)
      by (apply shape_where; trivial; simpl; now rewrite Hs).
    clearbody x1. rewrite Hs.
    apply shape_where; [simpl; now rewrite Hx1 | exact Hx1 | exact Hx1]. }
  rewrite Hre, Him. split.
  - intros [H1 H2]. apply Rgtb_spec in H1, H2. now rewrite H1, H2.
  - intros Hn. destruct (Rgtb re 0) eqn:E1, (Rgtb im 0) eqn:E2; simpl; auto.
    apply Rgtb_spec in E1, E2. tauto.
Qed.

Lemma relu_cmplx_z_joint_gate_witness :
  let x := mkT [2; 2]%nat [1; 5; 2; -3] in
  shape x = [2; 2]%nat /\ wf x /\ in_range [2%nat] [1%nat]
  /\ (~ (0 < 5 /\ 0 < -3) ->
      get 0 (relu_cmplx_z x) [0; 1]%nat = 0
      /\ get 0 (relu_cmplx_z x) [1; 1]%nat = 0).
Proof.
  intros x.
  assert (HI : in_range [2%nat] [1%nat]) by (simpl; lia).
  pose proof (@relu_cmplx_z_joint_gate x [2%nat] [1%nat] eq_refl eq_refl HI)
    as W.
  repeat split; try (simpl; lia); apply W; assumption.
Defined.

(* ------------------------------------------------------------------ *)
(** ** The filter cache of [IGaborCmplx] *)

Section FilterCache.
Context {H : Host}.

Lemma forward_flag (self : IGaborCmplx.t) (x : tensor R) :
  IGaborCmplx.calc_filters (fst (IGaborCmplx.forward self x)) = false.
Proof.
  unfold IGaborCmplx.forward; simpl.
  destruct (IGaborCmplx.calc_filters self) eqn:E; simpl; congruence.
Qed.

Lemma forward_valid (self : IGaborCmplx.t) (x : tensor R) :
  IGaborCmplx.calc_filters self = false ->
  fst (IGaborCmplx.forward self x) = self.
Proof. intros E. unfold IGaborCmplx.forward; simpl. now rewrite E. Qed.

(** The weight produced by [forward] is a function of the filter bank in
    use, of [x], and of the fixed attributes. *)
Lemma forward_out_eq (s1 s2 : IGaborCmplx.t) (x : tensor R) :
  IGaborCmplx.gabor_filters (fst (IGaborCmplx.forward s1 x))
  = IGaborCmplx.gabor_filters (fst (IGaborCmplx.forward s2 x)) ->
  IGaborCmplx.layer s1 = IGaborCmplx.layer s2 ->
  IGaborCmplx.no_g s1 = IGaborCmplx.no_g s2 ->
  snd (IGaborCmplx.forward s1 x) = snd (IGaborCmplx.forward s2 x).
Proof.
  unfold IGaborCmplx.forward.
  destruct (IGaborCmplx.calc_filters s1), (IGaborCmplx.calc_filters s2);
    cbn [fst snd IGaborCmplx.gabor_filters IGaborCmplx.layer IGaborCmplx.no_g
         IGaborCmplx.generate_gabor_filters];
    intros E1 E2 E3; rewrite E1, E2, E3; reflexivity.
Qed.

(** The fixed attributes survive a forward call. *)
Lemma forward_attrs (self : IGaborCmplx.t) (x : tensor R) :
  IGaborCmplx.layer (fst (IGaborCmplx.forward self x)) = IGaborCmplx.layer self
  /\ IGaborCmplx.no_g (fst (IGaborCmplx.forward self x)) = IGaborCmplx.no_g self.
Proof.
  unfold IGaborCmplx.forward. cbn [fst].
  destruct (IGaborCmplx.calc_filters self); split; reflexivity.
Qed.

(** A forward call repeated on the same weight returns the same result. *)
Lemma forward_again (self : IGaborCmplx.t) (x : tensor R) :
  snd (IGaborCmplx.forward (fst (IGaborCmplx.forward self x)) x)
  = snd (IGaborCmplx.forward self x).
Proof.
  destruct (forward_attrs self x) as [Hl Hn].
  apply forward_out_eq; trivial.
  now rewrite (@forward_valid _ x (forward_flag self x)).
Qed.

(** What a constructed module says about its arguments. *)
Lemma IGaborCmplx_init_inv (n : Z) (layer : bool) (k : ksize)
  (g : IGaborCmplx.t) :
  IGaborCmplx.__init__ n layer k = Ok g ->
  (0 < n)%Z
  /\ (exists kh kw, k = KPair kh kw /\ (0 <= kh)%Z /\ (0 <= kw)%Z)
  /\ IGaborCmplx.no_g g = n
  /\ IGaborCmplx.layer g = layer
  /\ IGaborCmplx.calc_filters g = true.
Proof.
  unfold IGaborCmplx.__init__.
  destruct (Z.ltb_spec n 0); [discriminate|].
  destruct (Z.eqb_spec n 0); cbn [bind]; [discriminate|].
  destruct k as [c | kh kw]; [discriminate|].
  destruct (Z.ltb_spec kh 0); cbn [orb]; [discriminate|].
  destruct (Z.ltb_spec kw 0); [discriminate|].
  intros [= <-]. cbn. repeat split; try lia. now exists kh, kw.
Qed.

(** The keywords [Conv2d] is constructed with are the integer-valued
    ones. *)
Lemma integer_keywords_spec (kw : kwargs) :
  kw_among Conv2d.integer_keywords kw
  = kw_among Conv2d.keywords kw
    && negb (kw_mem "padding_mode" kw)
    && negb (kw_mem "dtype" kw)
    && negb (kw_mem "device" kw).
Proof.
  induction kw as [|[k v] kw IH]; [reflexivity|].
  unfold kw_among, kw_mem in *.
  cbn [forallb existsb fst Conv2d.integer_keywords Conv2d.keywords] in *.
  rewrite IH.
  repeat match goal with
         | |- context [String.eqb k ?c] =>
             destruct (String.eqb_spec k c) as [-> | ?]
         end;
    cbn;
    repeat match goal with
           | |- context [forallb ?f kw] => destruct (forallb f kw)
           | |- context [existsb ?f kw] => destruct (existsb f kw)
           end;
    try reflexivity; congruence.
Qed.

(** The arguments [Conv2d] is constructed with, and what it then holds. *)
Lemma Conv2d_init_iff (name : string) (i o : Z) (k : ksize) (kw : kwargs)
  (c : Conv2d.t) :
  let groups := kw_get "groups" 1 kw in
  let sides := match k with KInt a => (a, a) | KPair a b => (a, b) end in
  Conv2d.__init__ name i o k kw = Ok c
  <-> kw_among Conv2d.integer_keywords kw = true
      /\ (0 < groups)%Z /\ (i mod groups = 0)%Z /\ (o mod groups = 0)%Z
      /\ (0 <= o)%Z /\ (0 <= i / groups)%Z
      /\ (0 <= fst sides)%Z /\ (0 <= snd sides)%Z
      /\ c = Conv2d.mk i o
               (fresh name [Z.to_nat o; Z.to_nat (i / groups);
                            Z.to_nat (fst sides); Z.to_nat (snd sides)]).
Proof.
  intros groups sides. unfold Conv2d.__init__. fold groups.
  rewrite integer_keywords_spec.
  destruct (kw_among Conv2d.keywords kw); cbn [negb andb];
    [|split; [discriminate | intros [? _]; discriminate]].
  destruct (Z.leb_spec groups 0);
    [split; [discriminate | intros (_ & ? & _); lia]|].
  destruct (Z.eqb_spec (i mod groups) 0); cbn [negb];
    [|split; [discriminate | intros (_ & _ & ? & _); contradiction]].
  destruct (Z.eqb_spec (o mod groups) 0); cbn [negb];
    [|split; [discriminate | intros (_ & _ & _ & ? & _); contradiction]].
  destruct (kw_mem "padding_mode" kw); cbn [negb andb];
    [split; [discriminate | intros [? _]; discriminate]|].
  destruct (kw_mem "dtype" kw); cbn [negb andb];
    [split; [discriminate | intros [? _]; discriminate]|].
  destruct (kw_mem "device" kw); cbn [negb andb];
    [split; [discriminate | intros [? _]; discriminate]|].
  assert (Hs : forall kh kw_,
            (if ((o <? 0) || (i / groups <? 0) || (kh <? 0) || (kw_ <? 0))%Z
             then Raise RuntimeError
             else Ok (Conv2d.mk i o
                        (fresh name [Z.to_nat o; Z.to_nat (i / groups);
                                     Z.to_nat kh; Z.to_nat kw_]))) = Ok c
            <-> true = true /\ (0 < groups)%Z /\ (i mod groups)%Z = 0%Z
                /\ (o mod groups)%Z = 0%Z /\ (0 <= o)%Z
                /\ (0 <= i / groups)%Z /\ (0 <= kh)%Z /\ (0 <= kw_)%Z
                /\ c = Conv2d.mk i o
                         (fresh name [Z.to_nat o; Z.to_nat (i / groups);
                                      Z.to_nat kh; Z.to_nat kw_])).
  { intros kh kw_.
    destruct (Z.ltb_spec o 0); cbn [orb];
      [split; [discriminate | intros (_ & _ & _ & _ & ? & _); lia]|].
    destruct (Z.ltb_spec (i / groups) 0); cbn [orb];
      [split; [discriminate | intros (_ & _ & _ & _ & _ & ? & _); lia]|].
    destruct (Z.ltb_spec kh 0); cbn [orb];
      [split; [discriminate | intros (_ & _ & _ & _ & _ & _ & ? & _); lia]|].
    destruct (Z.ltb_spec kw_ 0);
      [split; [discriminate
              | intros (_ & _ & _ & _ & _ & _ & _ & ? & _); lia]|].
    split; [intros [= <-]; repeat split; assumption|].
    intros (_ & _ & _ & _ & _ & _ & _ & _ & ->). reflexivity. }
  unfold sides. destruct k as [a | a b]; cbn [fst snd]; apply Hs.
Qed.

Lemma Conv2d_init_inv (name : string) (i o : Z) (k : ksize) (kw : kwargs)
  (c : Conv2d.t) :
  Conv2d.__init__ name i o k kw = Ok c ->
  Conv2d.in_channels c = i
  /\ Conv2d.out_channels c = o
  /\ (0 <= o)%Z
  /\ (0 < kw_get "groups" 1 kw)%Z
  /\ (i mod kw_get "groups" 1 kw = 0)%Z
  /\ (o mod kw_get "groups" 1 kw = 0)%Z.
Proof.
  intros E. apply Conv2d_init_iff in E.
  destruct E as (_ & Hg & Hi & Ho & Ho0 & _ & _ & _ & ->).
  cbn. repeat split; assumption.
Qed.

(** [init_weights] called with a tensor where the mode is expected never
    returns: neither comparison with a mode name holds. *)
Lemma init_weights_tensor_raises (w m : tensor R) (polar : bool) :
  exists e, init_weights w (PyTensor m) polar = Raise e.
Proof.
  unfold init_weights.
  destruct (_calculate_fan_in_and_fan_out (select0 w 0)) as [[fi fo] | e];
    cbn; eexists; reflexivity.
Qed.

Lemma IGConvCmplx_init_inv (i o n : Z) (k : ksize) (gp : option string)
  (inc : bool) (wi : option string) (kw : kwargs) (self : IGConvCmplx.t) :
  IGConvCmplx.__init__ i o k n gp inc wi kw = Ok self ->
  exists o' re im g,
    match gp with
    | None => n <> 0%Z /\ (o mod n = 0)%Z /\ o' = (o / n)%Z
    | Some _ => o' = o
    end
    /\ Conv2d.__init__ "ReConv.weight" i o' (_pair k) kw = Ok re
    /\ Conv2d.__init__ "ImConv.weight" i o' (_pair k) kw = Ok im
    /\ wi = None
    /\ IGaborCmplx.__init__ n false (_pair k) = Ok g
    /\ self = IGConvCmplx.mk re im g n (IGConvCmplx.select_pooling gp) inc kw.
Proof.
  unfold IGConvCmplx.__init__. intros E.
  assert (Ho : exists o',
            match gp with
            | None => n <> 0%Z /\ (o mod n = 0)%Z /\ o' = (o / n)%Z
            | Some _ => o' = o
            end
            /\ match gp with
               | None =>
                   r <- py_mod o n ;;
                   (if negb (r =? 0)%Z then Raise config_error
                    else py_floordiv o n)
               | Some _ => Ok o
               end = Ok o').
  { destruct gp as [p|]; [exists o; split; reflexivity|].
    unfold py_mod, py_floordiv in *.
    destruct (Z.eqb_spec n 0); cbn [bind] in *; [discriminate|].
    destruct (Z.eqb_spec (o mod n) 0); cbn [negb bind] in *;
      [|discriminate].
    exists (o / n)%Z. repeat split; assumption. }
  destruct Ho as (o' & Hgp & Eo). rewrite Eo in E. cbn [bind] in E.
  destruct (Conv2d.__init__ "ReConv.weight" i o' (_pair k) kw)
    as [re | e] eqn:Ere; cbn [bind] in E; [|discriminate].
  destruct (Conv2d.__init__ "ImConv.weight" i o' (_pair k) kw)
    as [im | e] eqn:Eim; cbn [bind] in E; [|discriminate].
  destruct wi as [s|].
  { destruct (init_weights_tensor_raises (Conv2d.weight re)
                (Conv2d.weight im) (negb (String.eqb s EmptyString)))
      as [e He].
    rewrite He in E. discriminate. }
  cbn [bind] in E.
  destruct (IGaborCmplx.__init__ n false (_pair k)) as [g | e] eqn:Eg;
    cbn [bind] in E; [|discriminate].
  injection E as <-.
  exists o', re, im, g. repeat split; trivial.
Qed.

(** The state of a layer after a forward call: only its filter module has
    changed, also when the convolution raises. *)
Lemma IGConvCmplx_forward_state (self : IGConvCmplx.t) (x : tensor R) :
  fst (IGConvCmplx.forward self x)
  = IGConvCmplx.with_gabor self (fst (IGConvCmplx.enhanced_weight self)).
Proof.
  unfold IGConvCmplx.forward, IGConvCmplx.with_gabor.
  destruct (IGConvCmplx.enhanced_weight self) as [g ew].
  cbn [fst IGConvCmplx.conv_kwargs IGConvCmplx.gabor_pooling].
  destruct (negb _); [reflexivity|].
  destruct (IGConvCmplx.gabor_pooling self); reflexivity.
Qed.

(** The value a forward call returns is a function of the enhanced weight it
    computes, of the input, and of the fixed attributes. *)
Lemma IGConvCmplx_forward_value (s1 s2 : IGConvCmplx.t) (x : tensor R) :
  snd (IGConvCmplx.enhanced_weight s1) = snd (IGConvCmplx.enhanced_weight s2) ->
  IGConvCmplx.no_g s1 = IGConvCmplx.no_g s2 ->
  IGConvCmplx.gabor_pooling s1 = IGConvCmplx.gabor_pooling s2 ->
  IGConvCmplx.conv_kwargs s1 = IGConvCmplx.conv_kwargs s2 ->
  snd (IGConvCmplx.forward s1 x) = snd (IGConvCmplx.forward s2 x).
Proof.
  unfold IGConvCmplx.forward.
  destruct (IGConvCmplx.enhanced_weight s1) as [g1 ew1].
  destruct (IGConvCmplx.enhanced_weight s2) as [g2 ew2].
  cbn [snd IGConvCmplx.conv_kwargs IGConvCmplx.gabor_pooling].
  intros -> En Ep Ek. rewrite Ep, Ek.
  destruct (negb _); [reflexivity|].
  unfold IGConvCmplx.pool_view. cbn [IGConvCmplx.no_g]. rewrite En.
  destruct (IGConvCmplx.gabor_pooling s2); reflexivity.
Qed.

(** A forward call on a layer whose cache is valid leaves the layer as it
    is. *)
Lemma IGConvCmplx_forward_valid (self : IGConvCmplx.t) (x : tensor R) :
  IGaborCmplx.calc_filters (IGConvCmplx.gabor self) = false ->
  fst (IGConvCmplx.forward self x) = self.
Proof.
  intros Hv. rewrite IGConvCmplx_forward_state.
  unfold IGConvCmplx.enhanced_weight. rewrite forward_valid by exact Hv.
  now destruct self.
Qed.

Lemma forwards_keep_valid (es : list IGConvCmplx.event) :
  forall self,
    Forall (fun e => exists y, e = IGConvCmplx.Forward y) es ->
    IGaborCmplx.calc_filters (IGConvCmplx.gabor self) = false ->
    fold_left IGConvCmplx.step es self = self.
Proof.
  induction es as [|e es IH]; intros self Hes Hv; [reflexivity|].
  inversion Hes as [|? ? [y ->] Hes']; subst. cbn [fold_left IGConvCmplx.step].
  rewrite IGConvCmplx_forward_valid by exact Hv. now apply IH.
Qed.

(** C1. For every layer ([IGConvCmplx], with its filter module
    [IGaborCmplx]): the filter-cache flag is Stale ([calc_filters = true])
    in a constructed layer; a forward call of the layer leaves it Valid,
    having stored the bank generated from the current kernels and Gabor
    parameters if the flag was Stale and kept the cached bank if it was
    Valid, also when the convolution raises afterwards, and the value it
    returns is computed from the enhanced weight built on that bank; among
    forward call, backward hook and optimizer step only the backward hook
    turns a Valid flag Stale, and it changes nothing else.  Consequently,
    forward calls that follow a forward call with no gradient computation
    in between reuse the cached bank, compute the identical enhanced
    weight and return the identical value on the same input; a forward
    call after the backward hook regenerates the bank from the parameters
    current at that call, the ones of an optimizer step in between
    included; and an optimizer step without the hook leaves the cached
    bank in use. *)
Theorem filter_cache_lifecycle :
  let stale (l : IGConvCmplx.t) :=
    IGaborCmplx.calc_filters (IGConvCmplx.gabor l) in
  let bank (l : IGConvCmplx.t) :=
    IGaborCmplx.gabor_filters (IGConvCmplx.gabor l) in
  let params (l : IGConvCmplx.t) :=
    IGaborCmplx.gabor_params (IGConvCmplx.gabor l) in
  let weight (l : IGConvCmplx.t) :=
    cmplx (Conv2d.weight (IGConvCmplx.ReConv l))
          (Conv2d.weight (IGConvCmplx.ImConv l)) in
  let enhanced (l : IGConvCmplx.t) := snd (IGConvCmplx.enhanced_weight l) in
  (* construction *)
  (forall i o k n gp inc wi kw l,
      IGConvCmplx.__init__ i o k n gp inc wi kw = Ok l -> stale l = true)
  /\ (forall n layer k g,
        IGaborCmplx.__init__ n layer k = Ok g ->
        IGaborCmplx.calc_filters g = true)
  (* a forward call *)
  /\ (forall l x,
        let l' := fst (IGConvCmplx.forward l x) in
        stale l' = false
        /\ (stale l = true ->
            bank l' = unsqueeze 2 (gabor_cmplx (weight l) (params l)))
        /\ (stale l = false -> bank l' = bank l)
        /\ weight l' = weight l /\ params l' = params l
        /\ enhanced l' = enhanced l
        /\ enhanced l
           = snd (IGaborCmplx.forward
                    (if stale l
                     then IGaborCmplx.generate_gabor_filters
                            (IGConvCmplx.gabor l) (weight l)
                     else IGConvCmplx.gabor l)
                    (weight l))
        /\ (conv_cmplx_accepts x (enhanced l) (IGConvCmplx.conv_kwargs l)
            = false ->
            snd (IGConvCmplx.forward l x) = Raise RuntimeError)
        /\ (conv_cmplx_accepts x (enhanced l) (IGConvCmplx.conv_kwargs l)
            = true ->
            IGConvCmplx.gabor_pooling l = IGConvCmplx.PoolNone ->
            snd (IGConvCmplx.forward l x)
            = Ok (VTensor (conv_cmplx x (enhanced l) false
                             (IGConvCmplx.conv_kwargs l)))))
  (* only the backward hook resets the flag *)
  /\ (forall l e,
        stale l = false -> stale (IGConvCmplx.step l e) = true ->
        e = IGConvCmplx.BackwardHook)
  /\ (forall l,
        let l' := IGConvCmplx.step l IGConvCmplx.BackwardHook in
        stale l' = true /\ bank l' = bank l /\ weight l' = weight l
        /\ params l' = params l)
  (* forward calls with no gradient computation in between *)
  /\ (forall l x es y,
        Forall (fun e => exists z, e = IGConvCmplx.Forward z) es ->
        let l1 := fst (IGConvCmplx.forward l x) in
        let l2 := fold_left IGConvCmplx.step es l1 in
        bank (fst (IGConvCmplx.forward l2 y)) = bank l1
        /\ enhanced l2 = enhanced l
        /\ snd (IGConvCmplx.forward l2 x) = snd (IGConvCmplx.forward l x))
  (* a forward call after a gradient computation *)
  /\ (forall l x,
        let l' := IGConvCmplx.step l IGConvCmplx.BackwardHook in
        bank (fst (IGConvCmplx.forward l' x))
        = unsqueeze 2 (gabor_cmplx (weight l) (params l)))
  /\ (forall l re im p x,
        let l' :=
          IGConvCmplx.step (IGConvCmplx.step l IGConvCmplx.BackwardHook)
            (IGConvCmplx.OptimizerStep re im p) in
        bank (fst (IGConvCmplx.forward l' x))
        = unsqueeze 2 (gabor_cmplx (cmplx re im) p))
  (* an optimizer step alone does not *)
  /\ (forall l re im p x,
        stale l = false ->
        let l' := IGConvCmplx.step l (IGConvCmplx.OptimizerStep re im p) in
        bank (fst (IGConvCmplx.forward l' x)) = bank l).
Proof.
  intros stale bank params weight enhanced.
  assert (Hfwd : forall l x,
            IGConvCmplx.gabor (fst (IGConvCmplx.forward l x))
            = fst (IGaborCmplx.forward (IGConvCmplx.gabor l) (weight l))).
  { intros l x. rewrite IGConvCmplx_forward_state. reflexivity. }
  assert (Hkeep : forall l x,
            weight (fst (IGConvCmplx.forward l x)) = weight l).
  { intros l x. rewrite IGConvCmplx_forward_state. reflexivity. }
  assert (Hagain : forall l x,
            enhanced (fst (IGConvCmplx.forward l x)) = enhanced l).
  { intros l x. unfold enhanced, IGConvCmplx.enhanced_weight.
    fold (weight (fst (IGConvCmplx.forward l x))). rewrite Hkeep, Hfwd.
    apply forward_again. }
  split; [|split; [|split; [|split; [|split; [|split; [|split; [|split]]]]]]].
  - intros i o k n gp inc wi kw l E.
    destruct (IGConvCmplx_init_inv _ _ _ _ _ _ _ _ E)
      as (o' & re & im & g & _ & _ & _ & _ & Eg & ->).
    unfold stale. cbn [IGConvCmplx.gabor].
    now apply IGaborCmplx_init_inv in Eg.
  - intros n layer k g E. now apply IGaborCmplx_init_inv in E.
  - intros l x l'. unfold l', stale, bank, params.
    rewrite !Hfwd, Hkeep, Hagain.
    split; [apply forward_flag|].
    split; [|split; [|split; [reflexivity|split; [|split; [reflexivity|]]]]].
    + intros Hs. unfold IGaborCmplx.forward. rewrite Hs. reflexivity.
    + intros Hs. unfold IGaborCmplx.forward. rewrite Hs. reflexivity.
    + unfold IGaborCmplx.forward.
      destruct (IGaborCmplx.calc_filters (IGConvCmplx.gabor l)); reflexivity.
    + split.
      * unfold enhanced, IGConvCmplx.enhanced_weight. fold (weight l).
        unfold IGaborCmplx.forward at 1. cbn [snd].
        destruct (IGaborCmplx.calc_filters (IGConvCmplx.gabor l)) eqn:Hs;
          unfold IGaborCmplx.forward; cbn [IGaborCmplx.calc_filters
            IGaborCmplx.generate_gabor_filters snd]; rewrite ?Hs; reflexivity.
      * split.
        -- intros Hacc. unfold enhanced in Hacc. unfold IGConvCmplx.forward.
           destruct (IGConvCmplx.enhanced_weight l) as [g ew].
           cbn [snd IGConvCmplx.conv_kwargs] in *. now rewrite Hacc.
        -- intros Hacc Hp. unfold enhanced in *. unfold IGConvCmplx.forward.
           destruct (IGConvCmplx.enhanced_weight l) as [g ew].
           cbn [snd IGConvCmplx.conv_kwargs IGConvCmplx.gabor_pooling] in *.
           now rewrite Hacc, Hp.
  - intros l [x | | re im p] Hv; cbn [IGConvCmplx.step]; trivial.
    + unfold stale. rewrite Hfwd, forward_flag. discriminate.
    + unfold stale in *. cbn. congruence.
  - intros l l'. repeat split.
  - intros l x es y Hes l1 l2.
    assert (Hv1 : stale l1 = false)
      by (unfold stale, l1; rewrite Hfwd; apply forward_flag).
    assert (E2 : l2 = l1) by (now apply forwards_keep_valid).
    rewrite E2.
    split; [now rewrite IGConvCmplx_forward_valid|].
    split; [apply Hagain|].
    apply IGConvCmplx_forward_value; try apply Hagain;
      unfold l1; now rewrite IGConvCmplx_forward_state.
  - intros l x l'. unfold bank. rewrite Hfwd. reflexivity.
  - intros l re im p x l'. unfold bank. rewrite Hfwd. reflexivity.
  - intros l re im p x Hv l'. unfold bank. rewrite Hfwd.
    unfold l', stale in *. cbn [IGConvCmplx.step IGConvCmplx.set_params
      IGConvCmplx.gabor]. unfold IGaborCmplx.forward, IGaborCmplx.set_params.
    cbn [IGaborCmplx.calc_filters]. rewrite Hv. reflexivity.
Qed.

End FilterCache.

Lemma filter_cache_lifecycle_witness :
  let l := Demo.layer IGConvCmplx.PoolNone 1 2 3 5 7 in
  let l1 := fst (@IGConvCmplx.forward Ref.host l Demo.x) in
  let kernel := mkT [3; 1; 1; 1]%nat [1; 1; 1] in
  let hooked := @IGConvCmplx.step Ref.host l1 IGConvCmplx.BackwardHook in
  let stepped :=
    @IGConvCmplx.step Ref.host hooked
      (IGConvCmplx.OptimizerStep kernel kernel (mkT [2; 2]%nat [4; 9; 1; 1])) in
  IGaborCmplx.calc_filters (IGConvCmplx.gabor l) = true
  /\ IGaborCmplx.calc_filters (IGConvCmplx.gabor l1) = false
  /\ snd (@IGConvCmplx.forward Ref.host
            (fold_left (@IGConvCmplx.step Ref.host)
               [IGConvCmplx.Forward Demo.x] l1) Demo.x)
     = snd (@IGConvCmplx.forward Ref.host l Demo.x)
  /\ IGaborCmplx.calc_filters (IGConvCmplx.gabor hooked) = true
  /\ IGaborCmplx.gabor_filters
       (IGConvCmplx.gabor (fst (@IGConvCmplx.forward Ref.host l Demo.x)))
     = mkT [2; 2; 1; 1; 1; 1]%nat [1; 2; 1; 1]
  /\ IGaborCmplx.gabor_filters
       (IGConvCmplx.gabor
          (fst (@IGConvCmplx.forward Ref.host stepped Demo.x)))
     = mkT [2; 2; 1; 1; 1; 1]%nat [4; 9; 1; 1].
Proof.
  intros l l1 kernel hooked stepped.
  pose proof (@filter_cache_lifecycle Ref.host)
    as (_ & _ & Hfw & _ & Hhook & Hcons & _ & Hregen & _).
  split; [reflexivity|].
  split; [exact (proj1 (Hfw l Demo.x))|].
  split.
  { apply (Hcons l Demo.x [IGConvCmplx.Forward Demo.x] Demo.x).
    constructor; [now exists Demo.x | constructor]. }
  split; [exact (proj1 (Hhook l1))|].
  split.
  - rewrite (proj1 (proj2 (Hfw l Demo.x)) eq_refl). reflexivity.
  - unfold stepped, hooked.
    rewrite (Hregen l1 kernel kernel (mkT [2; 2]%nat [4; 9; 1; 1]) Demo.x).
    reflexivity.
Defined.

(* ------------------------------------------------------------------ *)
(** ** Complex convolution *)

Section Elementwise2.
Variables A B C : Type.

Lemma get_tmap2 (da : A) (db : B) (dc : C) (f : A -> B -> C)
  (a : tensor A) (b : tensor B) I :
  wf a -> wf b -> shape b = shape a -> in_range (shape a) I ->
  get dc (tmap2 f a b) I = f (get da a I) (get db b I).
Proof.
  intros Ha Hb Hs HI. unfold get, tmap2; simpl. rewrite Hs.
  pose proof (ravel_lt _ _ HI) as Hlt.
  assert (Hl : length (data a) = length (data b))
    by (unfold wf in *; congruence).
  rewrite (nth_indep _ dc (f da db))
    by (rewrite length_map, length_combine, <- Hl, Nat.min_id, Ha; exact Hlt).
  rewrite (map_nth (fun p => f (fst p) (snd p)) (combine (data a) (data b)) (da, db)).
  now rewrite combine_nth.
Qed.

Lemma wf_tmap2 (f : A -> B -> C) (a : tensor A) (b : tensor B) :
  wf a -> wf b -> shape b = shape a -> wf (tmap2 f a b).
Proof.
  unfold wf, tmap2; simpl. intros Ha Hb Hs.
  rewrite length_map, length_combine, Hb, Hs, <- Ha. apply Nat.min_id.
Qed.

End Elementwise2.

Section ComplexConv.
Context {H : Host}.

(** Transposing axes 1 and 2 of a complex weight exchanges the out and in
    channel axes of each component. *)
Lemma transpose_weight (w : tensor R) (O I kh kw c o i u v : nat) :
  shape w = [2; O; I; kh; kw]%nat ->
  (c < 2)%nat -> (o < O)%nat -> (i < I)%nat -> (u < kh)%nat -> (v < kw)%nat ->
  shape (select0 (transpose 0 1 2 w) c) = [I; O; kh; kw]%nat
  /\ get 0 (select0 (transpose 0 1 2 w) c) [i; o; u; v]%nat
     = get 0 (select0 w c) [o; i; u; v]%nat.
Proof.
  intros Hs Hc Ho Hi Hu Hv.
  assert (Ht : shape (transpose 0 1 2 w) = [2; I; O; kh; kw]%nat)
    by (unfold transpose; simpl; now rewrite Hs).
  split; [unfold select0; simpl; now rewrite Hs|].
  rewrite get_select0 with (d0 := 2%nat) (s := [I; O; kh; kw]%nat)
    by (trivial; simpl; tauto).
  rewrite get_select0 with (d0 := 2%nat) (s := [O; I; kh; kw]%nat)
    by (trivial; simpl; tauto).
  unfold transpose. rewrite Hs.
  change (swap 1 2 [2; O; I; kh; kw]%nat) with [2; I; O; kh; kw]%nat.
  rewrite get_tabulate by (simpl; tauto). reflexivity.
Qed.

(** C3. In both modes complex convolution is the four-real-convolution
    formula: the real part is [conv(re_x, re_w) - conv(im_x, im_w)] and the
    imaginary part is [conv(re_x, im_w) + conv(im_x, re_w)], elementwise;
    in transposed mode [conv] is the transposed-convolution primitive and
    the weight has its out and in channel axes exchanged. *)
Theorem conv_cmplx_four_real_convs (x w : tensor R) (tr : bool) (kw : kwargs) :
  let conv := if tr then conv_transpose2d else conv2d in
  let w' := if tr then transpose 0 1 2 w else w in
  let rr := conv (select0 x 0) (select0 w' 0) kw in
  let ii := conv (select0 x 1) (select0 w' 1) kw in
  let ri := conv (select0 x 0) (select0 w' 1) kw in
  let ir := conv (select0 x 1) (select0 w' 0) kw in
  conv_cmplx x w tr kw = cmplx (tsub rr ii) (tadd ri ir)
  /\ (wf rr -> wf ii -> wf ri -> wf ir ->
      shape ii = shape rr -> shape ri = shape rr -> shape ir = shape rr ->
      forall J, in_range (shape rr) J ->
        get 0 (conv_cmplx x w tr kw) (0%nat :: J) = get 0 rr J - get 0 ii J
        /\ get 0 (conv_cmplx x w tr kw) (1%nat :: J) = get 0 ri J + get 0 ir J)
  /\ (tr = true ->
      forall O I kh kw_ c o i u v,
        shape w = [2; O; I; kh; kw_]%nat ->
        (c < 2)%nat -> (o < O)%nat -> (i < I)%nat ->
        (u < kh)%nat -> (v < kw_)%nat ->
        shape (select0 w' c) = [I; O; kh; kw_]%nat
        /\ get 0 (select0 w' c) [i; o; u; v]%nat
           = get 0 (select0 w c) [o; i; u; v]%nat).
Proof.
  intros conv w' rr ii ri ir.
  assert (E : conv_cmplx x w tr kw = cmplx (tsub rr ii) (tadd ri ir)).
  { unfold conv_cmplx, rr, ii, ri, ir, conv, w'. now destruct tr. }
  split; [exact E|]. split.
  - intros Hrr Hii Hri Hir Sii Sri Sir J HJ. rewrite E.
    assert (W1 : wf (tsub rr ii)) by now apply wf_tmap2.
    assert (W2 : wf (tadd ri ir)).
    { apply wf_tmap2; trivial. congruence. }
    assert (S2 : shape (tadd ri ir) = shape (tsub rr ii)) by exact Sri.
    rewrite get_cmplx_0 by (trivial; exact HJ).
    rewrite get_cmplx_1 by (trivial; exact HJ).
    unfold tsub, tadd. split.
    + now apply get_tmap2.
    + apply get_tmap2; trivial; congruence.
  - intros -> O I kh kw_ c o i u v. apply transpose_weight.
Qed.

End ComplexConv.

Lemma conv_cmplx_four_real_convs_witness :
  let x := mkT [2; 1; 1; 1; 1]%nat [2; 3] in
  let w := mkT [2; 1; 1; 1; 1]%nat [5; 7] in
  (shape w = [2; 1; 1; 1; 1]%nat
   /\ shape (select0 (transpose 0 1 2 w) 1) = [1; 1; 1; 1]%nat
   /\ get 0 (select0 (transpose 0 1 2 w) 1) [0; 0; 0; 0]%nat
      = get 0 (select0 w 1) [0; 0; 0; 0]%nat)
  /\ (in_range [1; 1; 1; 1]%nat [0; 0; 0; 0]%nat
      /\ get 0 (@conv_cmplx Ref.host x w false []) [0; 0; 0; 0; 0]%nat
         = get 0 (Ref.conv2d (select0 x 0) (select0 w 0) []) [0; 0; 0; 0]%nat
           - get 0 (Ref.conv2d (select0 x 1) (select0 w 1) []) [0; 0; 0; 0]%nat).
Proof.
  intros x w.
  assert (HJ : in_range [1; 1; 1; 1]%nat [0; 0; 0; 0]%nat) by (simpl; lia).
  split; [split; [reflexivity|] | split; [exact HJ|]].
  - exact (proj2 (proj2 (@conv_cmplx_four_real_convs Ref.host x w true []))
             eq_refl 1 1 1 1 1 0 0 0 0 eq_refl
             (Nat.lt_succ_diag_r 1) Nat.lt_0_1 Nat.lt_0_1 Nat.lt_0_1 Nat.lt_0_1)%nat.
  - exact (proj1 (proj1 (proj2 (@conv_cmplx_four_real_convs Ref.host x w false []))
             eq_refl eq_refl eq_refl eq_refl eq_refl eq_refl eq_refl
             [0; 0; 0; 0]%nat HJ)).
Defined.

(* ------------------------------------------------------------------ *)
(** ** Dispatch of spatial pooling *)

Lemma py_eq_str_true (o : pyobj) (s : string) :
  py_eq_str o s = true <-> o = PyStr s.
Proof.
  destruct o as [|s'|t]; simpl; try (split; [discriminate|congruence]).
  rewrite String.eqb_eq. split; congruence.
Qed.

Lemma py_eq_str_false (o : pyobj) (s : string) :
  py_eq_str o s = false <-> o <> PyStr s.
Proof.
  rewrite <- py_eq_str_true. destruct (py_eq_str o s); split; congruence.
Qed.

Section PoolDispatch.
Context {H : Host}.

(** C10. [pool_cmplx] performs magnitude-consistent pooling only for the
    operator ['mag']; for every other operator it applies the real pooling
    primitive (average for ['avg'] and ['average'], max otherwise) to the
    real and the imaginary part separately.  [MaxPoolCmplx] passes
    ['maxmag'] or [None], so its forward call is always the separate max
    pooling of the two parts. *)
Theorem pool_cmplx_dispatch (x : tensor R) (k : ksize) (kw : kwargs) :
  let x' := fst (_compress_shape x) in
  let xs := snd (_compress_shape x) in
  let apart pool :=
    Ok (_recover_shape
          (cmplx (pool (select0 x' 0) k kw) (pool (select0 x' 1) k kw)) xs) in
  pool_cmplx x k (PyStr "mag") kw
  = (m <- max_mag_pool x' k kw ;; Ok (_recover_shape m xs))
  /\ (forall op, op = PyStr "avg" \/ op = PyStr "average" ->
        pool_cmplx x k op kw = apart avg_pool2d)
  /\ (forall op, op <> PyStr "mag" -> op <> PyStr "avg" ->
        op <> PyStr "average" ->
        pool_cmplx x k op kw = apart max_pool2d)
  /\ (forall maxmag,
        let self := MaxPoolCmplx.__init__ k maxmag kw in
        MaxPoolCmplx.operator self <> PyStr "mag"
        /\ MaxPoolCmplx.forward self x
           = Ok (_recover_shape
                   (cmplx (max_pool2d (select0 x' 0) (_pair k) kw)
                          (max_pool2d (select0 x' 1) (_pair k) kw)) xs)).
Proof.
  intros x' xs apart. unfold apart, x', xs.
  split; [|split; [|split]].
  - unfold pool_cmplx. now destruct (_compress_shape x).
  - intros op [-> | ->]; unfold pool_cmplx; now destruct (_compress_shape x).
  - intros op Hm Ha Hv. unfold pool_cmplx.
    apply py_eq_str_false in Hm, Ha, Hv. rewrite Hm, Ha, Hv.
    now destruct (_compress_shape x).
  - intros maxmag. split.
    + destruct maxmag; simpl; discriminate.
    + unfold MaxPoolCmplx.forward, MaxPoolCmplx.__init__, pool_cmplx.
      cbn [MaxPoolCmplx.kernel_size MaxPoolCmplx.operator
           MaxPoolCmplx.pool_kwargs].
      destruct maxmag; now destruct (_compress_shape x).
Qed.

End PoolDispatch.

Lemma pool_cmplx_dispatch_witness :
  let x := mkT [2; 1; 1; 1; 1]%nat [2; 3] in
  PyStr "maxmag" <> PyStr "mag"
  /\ @pool_cmplx Ref.host x (KInt 1) (PyStr "maxmag") []
     = Ok (cmplx (Ref.max_pool2d (select0 x 0) (KInt 1) [])
                 (Ref.max_pool2d (select0 x 1) (KInt 1) [])).
Proof.
  intros x.
  assert (N1 : PyStr "maxmag" <> PyStr "mag") by discriminate.
  assert (N2 : PyStr "maxmag" <> PyStr "avg") by discriminate.
  assert (N3 : PyStr "maxmag" <> PyStr "average") by discriminate.
  split; [exact N1|].
  exact (proj1 (proj2 (proj2 (@pool_cmplx_dispatch Ref.host x (KInt 1) [])))
           (PyStr "maxmag") N1 N2 N3).
Defined.

(** On the window [{3 + 0i, 1 + 4i}] the default [MaxPoolCmplx] returns
    [3 + 4i], which is neither of the two inputs: the maxima of the two
    parts are taken at different positions. *)
Example MaxPoolCmplx_mixes_positions :
  @MaxPoolCmplx.forward Ref.host
    (@MaxPoolCmplx.__init__ Ref.host (KPair 1 2) true [])
    (mkT [2; 1; 1; 1; 2]%nat [3; 1; 0; 4])
  = Ok (mkT [2; 1; 1; 1; 1]%nat [3; 4]).
Proof.
  cbv - [Rplus Rminus Rmult Rdiv Rinv Ropp IZR Rmax]. do 2 f_equal.
  unfold Rmax. repeat destruct (Rle_dec _ _); repeat f_equal; lra.
Qed.

(* ------------------------------------------------------------------ *)
(** ** Construction of [IGConvCmplx] *)

Lemma py_mod_nonzero (a b : Z) : b <> 0%Z -> py_mod a b = Ok (a mod b)%Z.
Proof. intros Hb. unfold py_mod. now destruct (Z.eqb_spec b 0). Qed.

Lemma py_floordiv_nonzero (a b : Z) : b <> 0%Z -> py_floordiv a b = Ok (a / b)%Z.
Proof. intros Hb. unfold py_floordiv. now destruct (Z.eqb_spec b 0). Qed.

Section Construction.
Context {H : Host}.

Lemma init_weights_error (w : tensor R) (mode : pyobj) (polar : bool) :
  init_weights w mode polar <> Raise config_error.
Proof.
  unfold init_weights, _calculate_fan_in_and_fan_out, py_inv.
  destruct (dim (select0 w 0) <? 2)%nat; simpl; [discriminate|].
  destruct (py_eq_str mode "he"), (py_eq_str mode "glorot"); simpl;
    repeat match goal with
           | |- context [(?a =? 0)%Z] => destruct (a =? 0)%Z; simpl
           | |- context [if polar then _ else _] => destruct polar
           end; discriminate.
Qed.

Lemma gabor_init_error (no_g : Z) (layer : bool) (k : ksize) :
  IGaborCmplx.__init__ no_g layer k <> Raise config_error.
Proof.
  unfold IGaborCmplx.__init__.
  destruct (no_g <? 0)%Z; [discriminate|].
  destruct (no_g =? 0)%Z; simpl; [discriminate|].
  destruct k as [c | kh kw]; [discriminate|].
  destruct ((kh <? 0) || (kw <? 0))%Z; discriminate.
Qed.

Lemma conv2d_init_error (name : string) (i o : Z) (k : ksize) (kw : kwargs) :
  Conv2d.__init__ name i o k kw <> Raise config_error.
Proof.
  unfold Conv2d.__init__.
  repeat match goal with
         | |- (if ?c then _ else _) <> _ => destruct c; [discriminate|]
         end.
  destruct k;
    match goal with
    | |- context [if ?c then _ else _] => destruct c; discriminate
    end.
Qed.

(** The arguments [Conv2d] takes, for a kernel size given as a pair. *)
Lemma Conv2d_init_ok (name : string) (i o kh kw_ : Z) (kw : kwargs) :
  let groups := kw_get "groups" 1 kw in
  kw_among Conv2d.integer_keywords kw = true ->
  (0 < groups)%Z -> (i mod groups = 0)%Z -> (o mod groups = 0)%Z ->
  (0 <= i)%Z -> (0 <= o)%Z -> (0 <= kh)%Z -> (0 <= kw_)%Z ->
  Conv2d.__init__ name i o (KPair kh kw_) kw
  = Ok (Conv2d.mk i o
          (fresh name [Z.to_nat o; Z.to_nat (i / groups);
                       Z.to_nat kh; Z.to_nat kw_])).
Proof.
  intros groups Hk Hg Hi Ho Hi0 Ho0 Hkh Hkw.
  apply Conv2d_init_iff. cbn [fst snd]. fold groups.
  assert (0 <= i / groups)%Z by (apply Z.div_pos; lia).
  repeat split; assumption.
Qed.

Lemma Conv2d_init_sizes (name : string) (i o kh kw_ : Z) (kw : kwargs)
  (c : Conv2d.t) :
  Conv2d.__init__ name i o (KPair kh kw_) kw = Ok c ->
  kw_among Conv2d.integer_keywords kw = true
  /\ (0 <= i)%Z /\ (0 <= kh)%Z /\ (0 <= kw_)%Z.
Proof.
  intros E. apply Conv2d_init_iff in E. cbn [fst snd] in E.
  destruct E as (Hk & Hg & _ & _ & _ & Hq & Hkh & Hkw & _).
  repeat split; try assumption.
  set (groups := kw_get "groups" 1 kw) in *.
  destruct (Z.lt_ge_cases i 0) as [Hneg|]; [|assumption].
  assert (i / groups < 0)%Z by (apply Z.div_lt_upper_bound; lia). lia.
Qed.

Lemma call_pooling_error (f : IGConvCmplx.pooling) (t : tensor R) :
  (r <- IGConvCmplx.call_pooling f t ;;
   p <- unpack2 r ;;
   let '(pool_out, max_idxs) := p in Ok pool_out) <> Raise config_error.
Proof.
  destruct f; cbn [IGConvCmplx.call_pooling bind]; try discriminate.
  - cbn [unpack2].
    generalize (torch_mean t 3). intros [[|[|[|[|d]]] sh] m]; cbn;
      discriminate.
  - unfold max_mag_gabor_pool.
    destruct (gather _ _ _ _); cbn; discriminate.
Qed.

(** Whatever a forward call raises, it is not the configuration error. *)
Lemma forward_error (self : IGConvCmplx.t) (x : tensor R) :
  snd (IGConvCmplx.forward self x) <> Raise config_error.
Proof.
  unfold IGConvCmplx.forward.
  destruct (IGConvCmplx.enhanced_weight self) as [g ew].
  cbn [IGConvCmplx.conv_kwargs IGConvCmplx.gabor_pooling].
  destruct (negb _); [discriminate|].
  unfold IGConvCmplx.pool_view, py_floordiv. cbn [IGConvCmplx.no_g].
  destruct (IGConvCmplx.gabor_pooling self); cbn [snd];
    try discriminate;
    (destruct (_ =? 0)%Z; cbn [bind]; [discriminate|]);
    apply call_pooling_error.
Qed.

(** C2. For a filter count other than zero and no orientation pooling,
    construction raises the configuration error exactly when
    [output_features] is not divisible by [no_g], and no forward call of
    any layer raises it.  A layer that has been constructed has
    [output_features / no_g] raw channels in both kernels.  A divisible
    [output_features] constructs exactly when the remaining arguments are
    taken by the constructors called next: no weight initialiser, a
    positive filter count, a kernel size that [_pair] turns into a pair of
    sides that are not negative, channel counts that are not negative,
    integer-valued convolution keywords only, and a positive [groups]
    dividing both channel counts. *)
Theorem IGConvCmplx_init_divisibility
  (input_features output_features no_g : Z) (kernel_size : ksize)
  (include_gparams : bool) (weight_init : option string) (kw : kwargs) :
  no_g <> 0%Z ->
  let made :=
    IGConvCmplx.__init__ input_features output_features kernel_size no_g
      None include_gparams weight_init kw in
  let groups := kw_get "groups" 1 kw in
  (made = Raise config_error <-> ~ (no_g | output_features)%Z)
  /\ (forall self x, snd (IGConvCmplx.forward self x) <> Raise config_error)
  /\ (forall self, made = Ok self ->
        (no_g | output_features)%Z
        /\ Conv2d.out_channels (IGConvCmplx.ReConv self)
           = (output_features / no_g)%Z
        /\ Conv2d.out_channels (IGConvCmplx.ImConv self)
           = (output_features / no_g)%Z
        /\ IGConvCmplx.no_g self = no_g
        /\ IGConvCmplx.gabor_pooling self = IGConvCmplx.PoolNone)
  /\ ((exists self, made = Ok self)
      <-> (no_g | output_features)%Z
          /\ weight_init = None
          /\ (0 < no_g)%Z
          /\ (exists kh kw_,
                _pair kernel_size = KPair kh kw_ /\ (0 <= kh)%Z
                /\ (0 <= kw_)%Z)
          /\ (0 <= input_features)%Z
          /\ (0 <= output_features / no_g)%Z
          /\ kw_among Conv2d.integer_keywords kw = true
          /\ (0 < groups)%Z
          /\ (input_features mod groups = 0)%Z
          /\ ((output_features / no_g) mod groups = 0)%Z).
Proof.
  intros Hn made groups.
  assert (Hdiv : (output_features mod no_g = 0)%Z
                 <-> (no_g | output_features)%Z)
    by (apply Z.mod_divide; exact Hn).
  assert (Hinv : forall self, made = Ok self ->
            exists re im g,
              (output_features mod no_g = 0)%Z
              /\ Conv2d.__init__ "ReConv.weight" input_features
                   (output_features / no_g) (_pair kernel_size) kw = Ok re
              /\ Conv2d.__init__ "ImConv.weight" input_features
                   (output_features / no_g) (_pair kernel_size) kw = Ok im
              /\ weight_init = None
              /\ IGaborCmplx.__init__ no_g false (_pair kernel_size) = Ok g
              /\ self = IGConvCmplx.mk re im g no_g IGConvCmplx.PoolNone
                          include_gparams kw).
  { intros self E.
    destruct (IGConvCmplx_init_inv _ _ _ _ _ _ _ _ E)
      as (o' & re & im & g & (_ & Hm & ->) & Ere & Eim & Hw & Eg & ->).
    exists re, im, g. repeat split; assumption. }
  split; [|split; [exact forward_error|split]].
  - (* the configuration error *)
    unfold made, IGConvCmplx.__init__.
    rewrite py_mod_nonzero by exact Hn. cbn [bind].
    destruct (Z.eqb_spec (output_features mod no_g) 0) as [E | E];
      cbn [negb]; [|split; [intros _ Hd; apply E, Hdiv, Hd | reflexivity]].
    split; [|intros Hnd; exfalso; apply Hnd, Hdiv, E].
    rewrite py_floordiv_nonzero by exact Hn. cbn [bind].
    intros Hr. exfalso. revert Hr.
    pose proof (conv2d_init_error "ReConv.weight" input_features
                  (output_features / no_g) (_pair kernel_size) kw) as Hre.
    destruct (Conv2d.__init__ "ReConv.weight" _ _ _ _) as [re | e];
      cbn [bind]; [|intros Hr; apply Hre; injection Hr as ->; reflexivity].
    pose proof (conv2d_init_error "ImConv.weight" input_features
                  (output_features / no_g) (_pair kernel_size) kw) as Him.
    destruct (Conv2d.__init__ "ImConv.weight" _ _ _ _) as [im | e];
      cbn [bind]; [|intros Hr; apply Him; injection Hr as ->; reflexivity].
    pose proof (gabor_init_error no_g false (_pair kernel_size)) as Hg.
    destruct weight_init as [s|]; cbn [bind].
    + pose proof (init_weights_error (Conv2d.weight re)
                    (PyTensor (Conv2d.weight im))
                    (negb (String.eqb s EmptyString))) as Hw.
      destruct (init_weights _ _ _) as [w | e]; cbn [bind];
        [| intros Hr; apply Hw; injection Hr as ->; reflexivity].
      destruct (IGaborCmplx.__init__ _ _ _); cbn [bind];
        [discriminate | intros Hr; apply Hg; injection Hr as ->; reflexivity].
    + destruct (IGaborCmplx.__init__ _ _ _); cbn [bind];
        [discriminate | intros Hr; apply Hg; injection Hr as ->; reflexivity].
  - (* a constructed layer *)
    intros self E.
    destruct (Hinv self E) as (re & im & g & Hm & Ere & Eim & _ & _ & ->).
    apply Conv2d_init_inv in Ere, Eim.
    cbn [IGConvCmplx.ReConv IGConvCmplx.ImConv IGConvCmplx.no_g
         IGConvCmplx.gabor_pooling].
    repeat split; tauto.
  - (* the arguments that construct *)
    split.
    + intros [self E].
      destruct (Hinv self E) as (re & im & g & Hm & Ere & Eim & Hw & Eg & _).
      apply IGaborCmplx_init_inv in Eg.
      destruct Eg as (Hpos & (kh & kw_ & Hk & Hkh & Hkw) & _).
      rewrite Hk in Ere.
      pose proof (Conv2d_init_sizes _ _ _ _ _ _ Ere) as (Hkey & Hi0 & _ & _).
      apply Conv2d_init_inv in Ere.
      destruct Ere as (_ & _ & Ho0 & Hg & Hig & Hog).
      split; [now apply Hdiv|]. split; [exact Hw|]. split; [exact Hpos|].
      split; [now exists kh, kw_|]. repeat split; assumption.
    + intros (Hd & -> & Hpos & (kh & kw_ & Hk & Hkh & Hkw) & Hi0 & Ho0
              & Hkey & Hg & Hig & Hog).
      unfold made, IGConvCmplx.__init__.
      rewrite py_mod_nonzero by exact Hn. cbn [bind].
      apply Hdiv in Hd. rewrite Hd. cbn [Z.eqb negb].
      rewrite py_floordiv_nonzero by exact Hn. cbn [bind]. rewrite Hk.
      rewrite !Conv2d_init_ok by assumption. cbn [bind].
      unfold IGaborCmplx.__init__.
      destruct (Z.ltb_spec no_g 0); [lia|].
      destruct (Z.eqb_spec no_g 0); [lia|]. cbn [bind].
      destruct (Z.ltb_spec kh 0); [lia|].
      destruct (Z.ltb_spec kw_ 0); [lia|]. cbn [orb].
      eexists. reflexivity.
Qed.

End Construction.

(** With 4 filters, 10 output features are refused and 12 give 3 raw
    channels per orientation. *)
Lemma IGConvCmplx_init_divisibility_witness :
  ~ (4 | 10)%Z
  /\ @IGConvCmplx.__init__ Ref.host 1 10 (KInt 3) 4 None false None []
     = Raise config_error
  /\ (4 | 12)%Z
  /\ exists self,
       @IGConvCmplx.__init__ Ref.host 1 12 (KInt 3) 4 None false None []
       = Ok self
       /\ Conv2d.out_channels (IGConvCmplx.ReConv self) = 3%Z
       /\ Conv2d.out_channels (IGConvCmplx.ImConv self) = 3%Z.
Proof.
  assert (N : 4%Z <> 0%Z) by discriminate.
  assert (D10 : ~ (4 | 10)%Z) by (intros [q Hq]; lia).
  assert (D12 : (4 | 12)%Z) by (exists 3%Z; reflexivity).
  pose proof (@IGConvCmplx_init_divisibility Ref.host 1 10 4 (KInt 3) false
                None [] N) as W10.
  pose proof (@IGConvCmplx_init_divisibility Ref.host 1 12 4 (KInt 3) false
                None [] N) as W12.
  split; [exact D10|].
  split; [exact (proj2 (proj1 W10) D10)|]. split; [exact D12|].
  destruct W12 as (_ & _ & Hmade & Hok).
  destruct (proj2 Hok) as [self Hself].
  { split; [exact D12|]. split; [reflexivity|]. split; [reflexivity|].
    split; [exists 3%Z, 3%Z; repeat split; discriminate|].
    repeat split; (discriminate || reflexivity). }
  exists self. split; [exact Hself|].
  destruct (Hmade self Hself) as (_ & Hre & Him & _).
  split; [exact Hre | exact Him].
Defined.

(* ------------------------------------------------------------------ *)
(** ** Magnitude-consistent spatial pooling *)

(** Merging the two trailing axes of a rank-5 shape keeps the offsets. *)
Lemma ravel_flatten3 (a b c d e i0 i1 i2 i3 i4 : nat) :
  ravel [a; b; c; d; e] [i0; i1; i2; i3; i4]
  = ravel [a; b; c; numel [d; e]] [i0; i1; i2; (i3 * e + i4)%nat].
Proof. simpl. ring. Qed.

Lemma get_in (t : tensor nat) (I : list nat) :
  wf t -> in_range (shape t) I -> In (get 0%nat t I) (data t).
Proof.
  intros Hw HI. unfold get. apply nth_In. rewrite Hw. now apply ravel_lt.
Qed.

Section MagPool.
Context {H : Host}.

(** C6. [max_mag_pool] takes the index tensor returned by the real max
    pooling primitive on the magnitude and gathers the real and the
    imaginary component at that index: for every window, both components of
    the output are the components of the input at one and the same spatial
    position [(p / W, p mod W)], where [p] is the index the primitive
    returned for that window. *)
Theorem max_mag_pool_shared_index (x : tensor R) (k : ksize) (kw : kwargs)
  (B C Hh W Ho Wo : nat) :
  let idxs :=
    snd (max_pool2d_return_indices (magnitude x eps_default false) k kw) in
  shape x = [2; B; C; Hh; W]%nat ->
  shape idxs = [B; C; Ho; Wo]%nat -> wf idxs ->
  (forall p, In p (data idxs) -> (p < Hh * W)%nat) ->
  exists out,
    max_mag_pool x k kw = Ok out
    /\ shape out = [2; B; C; Ho; Wo]%nat
    /\ forall b c i j,
         (b < B)%nat -> (c < C)%nat -> (i < Ho)%nat -> (j < Wo)%nat ->
         let p := get 0%nat idxs [b; c; i; j] in
         get 0 out [0; b; c; i; j]%nat
         = get 0 x [0; b; c; p / W; p mod W]%nat
         /\ get 0 out [1; b; c; i; j]%nat
            = get 0 x [1; b; c; p / W; p mod W]%nat.
Proof.
  intros idxs Hx Hi Hw Hrange. unfold max_mag_pool. fold idxs.
  set (ci := cmplx idxs idxs).
  assert (Hci : shape ci = [2; B; C; Ho; Wo]%nat)
    by (unfold ci; rewrite shape_cmplx, Hi; reflexivity).
  unfold gather.
  assert (Hall : forallb (fun v => (v <? nth 3 (shape (flatten_from 3 x)) 0)%nat)
                   (data (flatten_from 3 ci)) = true).
  { apply forallb_forall. intros v Hv. apply Nat.ltb_lt.
    unfold flatten_from. rewrite Hx. simpl.
    rewrite Nat.mul_1_r. apply Hrange.
    simpl in Hv. rewrite app_nil_r in Hv.
    apply in_app_or in Hv. tauto. }
  rewrite Hall. eexists. split; [reflexivity|]. split; [exact Hci|].
  intros b c i j Hb Hc Hi' Hj.
  set (p := get 0%nat idxs [b; c; i; j]).
  assert (Hp : (p < Hh * W)%nat).
  { apply Hrange. unfold p. apply get_in; [exact Hw|]. rewrite Hi. simpl. tauto. }
  assert (HW : W <> 0%nat) by (intros ->; lia).
  assert (Hq : (i * Wo + j < numel [Ho; Wo])%nat) by (simpl; nia).
  assert (Hpick : forall cc, (cc < 2)%nat ->
            get 0%nat ci [cc; b; c; i; j] = p).
  { intros cc Hcc. unfold ci, p.
    assert (HI : in_range (shape idxs) [b; c; i; j]) by (rewrite Hi; simpl; tauto).
    destruct cc as [|[|cc]]; [| |lia].
    - now rewrite get_cmplx_0.
    - now rewrite get_cmplx_1. }
  assert (Hsel : forall cc, (cc < 2)%nat ->
            get 0 (view_as
                     (tabulate (shape (flatten_from 3 ci))
                        (fun I => get 0 (flatten_from 3 x)
                                    (replace_at 3 (get 0%nat (flatten_from 3 ci) I) I)))
                     ci) [cc; b; c; i; j]
            = get 0 x [cc; b; c; p / W; p mod W]%nat).
  { intros cc Hcc.
    assert (Hf : shape (flatten_from 3 ci) = [2; B; C; numel [Ho; Wo]]%nat)
      by (unfold flatten_from; now rewrite Hci).
    set (g := tabulate _ _).
    assert (Hg : shape g = [2; B; C; numel [Ho; Wo]]%nat) by exact Hf.
    transitivity (get 0 g [cc; b; c; (i * Wo + j)%nat]).
    { unfold get, view_as. cbn [shape data]. rewrite Hci, Hg.
      now rewrite ravel_flatten3. }
    unfold g. rewrite Hf, get_tabulate by (cbn [in_range]; tauto).
    assert (Hv : get 0%nat (flatten_from 3 ci) [cc; b; c; (i * Wo + j)%nat] = p).
    { rewrite <- (Hpick cc Hcc). unfold get. rewrite Hf, Hci.
      now rewrite ravel_flatten3. }
    rewrite Hv. cbn [replace_at firstn skipn app].
    unfold get, flatten_from. rewrite Hx. cbn [firstn skipn app shape data].
    assert (Hdm : (p / W * W + p mod W)%nat = p)
      by (rewrite (Nat.div_mod_eq p W) at 3; ring).
    now rewrite ravel_flatten3, Hdm. }
  split; apply Hsel; lia.
Qed.

End MagPool.

(** One window per element (kernel 1): each output pair is the input pair
    at the window's own position. *)
Lemma max_mag_pool_shared_index_witness :
  let x := mkT [2; 1; 1; 1; 2]%nat [5; 7; 6; 8] in
  let idxs :=
    snd (Ref.max_pool2d_return_indices (magnitude x eps_default false)
           (KInt 1) []) in
  shape idxs = [1; 1; 1; 2]%nat /\ wf idxs
  /\ (forall p, In p (data idxs) -> (p < 1 * 2)%nat)
  /\ exists out,
       @max_mag_pool Ref.host x (KInt 1) [] = Ok out
       /\ get 0 out [0; 0; 0; 0; 1]%nat = 7
       /\ get 0 out [1; 0; 0; 0; 1]%nat = 8.
Proof.
  intros x idxs.
  assert (Hs : shape idxs = [1; 1; 1; 2]%nat) by reflexivity.
  assert (Hw : wf idxs) by reflexivity.
  assert (Hr : forall p, In p (data idxs) -> (p < 1 * 2)%nat).
  { change (data idxs) with [0; 1]%nat. simpl. intros p [<- | [<- | []]]; lia. }
  split; [exact Hs|]. split; [exact Hw|]. split; [exact Hr|].
  destruct (@max_mag_pool_shared_index Ref.host x (KInt 1) [] 1 1 1 2 1 2
              eq_refl Hs Hw Hr) as (out & Hout & _ & Hget).
  exists out. split; [exact Hout|].
  exact (Hget 0 0 0 1 Nat.lt_0_1 Nat.lt_0_1 Nat.lt_0_1 (Nat.lt_succ_diag_r 1))%nat.
Defined.

(* ------------------------------------------------------------------ *)
(** ** Channel layout of the enhanced weight and of the pooled view *)

Lemma if_one_same (n : nat) : (if (n =? 1)%nat then 1%nat else n) = n.
Proof. destruct (Nat.eqb_spec n 1); congruence. Qed.

Lemma if_same (A : Type) (b : bool) (a : A) : (if b then a else a) = a.
Proof. now destruct b. Qed.

Lemma if_one_index (d i : nat) :
  (i < d)%nat -> (if (d =? 1)%nat then 0%nat else i) = i.
Proof. intros Hi. destruct (Nat.eqb_spec d 1); lia. Qed.

Lemma leb_0_of_nat (n : nat) : (0 <=? Z.of_nat n)%Z = true.
Proof. apply Z.leb_le, Nat2Z.is_nonneg. Qed.

Lemma of_nat_not_minus_one (n : nat) : (Z.of_nat n =? -1)%Z = false.
Proof. apply Z.eqb_neq. lia. Qed.

(** The broadcast product of a filter bank [[2, G, 1, 1, kh, kw]] with a
    weight [[2, 1, O, I, kh, kw]]. *)
Lemma bank_times_weight (gf x : tensor R) (G O I kh kw : nat) :
  shape gf = [2; G; 1; 1; kh; kw]%nat ->
  shape x = [2; O; I; kh; kw]%nat ->
  let out := bop 0 0 Rmult gf (unsqueeze 1 x) in
  shape out = [2; G; O; I; kh; kw]%nat
  /\ length (data out) = (G * O * (2 * (I * (kh * (kw * 1)))))%nat
  /\ forall c g o i u v,
       (c < 2)%nat -> (g < G)%nat -> (o < O)%nat -> (i < I)%nat ->
       (u < kh)%nat -> (v < kw)%nat ->
       get 0 out [c; g; o; i; u; v]
       = get 0 gf [c; g; 0; 0; u; v]%nat * get 0 x [c; o; i; u; v].
Proof.
  intros Hg Hx out.
  assert (Hs : shape out = [2; G; O; I; kh; kw]%nat).
  { unfold out, bop, unsqueeze, bshape, pad. cbn [shape tabulate].
    rewrite Hg, Hx. cbn. now rewrite if_one_same, !if_same. }
  split; [exact Hs|]. split.
  { unfold out, bop, tabulate in *. cbn [shape data] in *.
    rewrite length_map, length_seq, Hs. simpl. ring. }
  intros c g o i u v Hc Hg' Ho Hi Hu Hv.
  unfold out, bop in *. cbn [shape tabulate] in Hs. rewrite Hs.
  rewrite get_tabulate by (simpl; tauto).
  unfold unsqueeze at 2. cbn [shape]. rewrite Hg, Hx.
  cbn [bidx firstn skipn app length Nat.sub combine map fst snd Nat.eqb].
  rewrite (if_one_index Hg'), (if_one_index Ho), (if_one_index Hi),
    !(if_one_index Hu), !(if_one_index Hv).
  f_equal. unfold get, unsqueeze. cbn [shape data]. rewrite Hx.
  cbn [firstn skipn app]. f_equal. simpl. ring.
Qed.

Section Layout.
Context {H : Host}.

(** Channel [g * O + o] of the enhanced weight is filter [g] times base
    channel [o]: the channels are listed filter by filter. *)
Lemma enhanced_weight_layout (self : IGaborCmplx.t) (x : tensor R)
  (G O I kh kw : nat) :
  IGaborCmplx.layer self = false ->
  let bank := IGaborCmplx.gabor_filters (fst (IGaborCmplx.forward self x)) in
  let ew := snd (IGaborCmplx.forward self x) in
  shape bank = [2; G; 1; 1; kh; kw]%nat ->
  shape x = [2; O; I; kh; kw]%nat ->
  forall c g o i u v,
    (c < 2)%nat -> (g < G)%nat -> (o < O)%nat -> (i < I)%nat ->
    (u < kh)%nat -> (v < kw)%nat ->
    shape ew = [2; G * O; I; kh; kw]%nat
    /\ get 0 ew [c; (g * O + o)%nat; i; u; v]
       = get 0 bank [c; g; 0; 0; u; v]%nat * get 0 x [c; o; i; u; v].
Proof.
  intros Hl bank ew Hb Hx c g o i u v Hc Hg Ho Hi Hu Hv.
  unfold ew, bank in *. unfold IGaborCmplx.forward in *.
  set (s1 := if IGaborCmplx.calc_filters self
             then IGaborCmplx.generate_gabor_filters self x else self) in *.
  assert (Hl1 : IGaborCmplx.layer s1 = false)
    by (unfold s1; now destruct (IGaborCmplx.calc_filters self)).
  cbn [fst snd] in *. rewrite Hl1.
  destruct (@bank_times_weight (IGaborCmplx.gabor_filters s1) x G O I kh kw Hb Hx)
    as (Hs & Hlen & Hget).
  set (out := bop 0 0 Rmult (IGaborCmplx.gabor_filters s1) (unsqueeze 1 x)) in *.
  assert (Hv' : shape (view ([2; -1] ++ map Z.of_nat (skipn 3 (shape out)))%Z out)
                = [2; G * O; I; kh; kw]%nat).
  { unfold view, resolve_view. cbn [shape]. rewrite Hs, Hlen.
    cbn [skipn map app filter Z.leb Z.compare Z.eqb Pos.eqb].
    rewrite !leb_0_of_nat, !of_nat_not_minus_one.
    cbn [map Z.to_nat Pos.to_nat Pos.iter_op Nat.add numel fold_right].
    rewrite !Nat2Z.id. do 2 f_equal.
    change (Pos.to_nat 2) with 2%nat.
    assert (0 < I * (kh * (kw * 1)))%nat
      by (repeat apply Nat.mul_pos_pos; lia).
    apply Nat.div_mul. lia. }
  split; [exact Hv'|].
  rewrite <- Hget by assumption.
  unfold get. rewrite Hv'. cbn [view data]. rewrite Hs.
  f_equal. simpl. ring.
Qed.

End Layout.

(** The view that [IGConvCmplx.forward] pools over reads output channel
    [o * G + g] at group [o], orientation [g]. *)
Lemma pool_view_entry (self : IGConvCmplx.t) (ew out : tensor R)
  (B O G Hh W : nat) :
  shape out = [2; B; O * G; Hh; W]%nat ->
  size ew 1 = Z.of_nat (O * G) ->
  IGConvCmplx.no_g self = Z.of_nat G -> G <> 0%nat ->
  exists pool_out,
    IGConvCmplx.pool_view self ew out = Ok pool_out
    /\ shape pool_out = [2; B; O; G; Hh; W]%nat
    /\ forall c b o g h w,
         get 0 pool_out [c; b; o; g; h; w]
         = get 0 out [c; b; (o * G + g)%nat; h; w].
Proof.
  intros Hs He Hn HG. unfold IGConvCmplx.pool_view.
  rewrite He, Hn, py_floordiv_nonzero by lia. cbn [bind].
  rewrite Nat2Z.inj_mul, Z.div_mul by lia.
  eexists. split; [reflexivity|].
  assert (Hv : shape (view [2%Z; size out 1; Z.of_nat O; Z.of_nat G;
                            size out 3; size out 4] out)
               = [2; B; O; G; Hh; W]%nat).
  { unfold view, resolve_view, size. cbn [shape]. rewrite Hs.
    cbn [nth map Z.eqb Pos.eqb Z.to_nat Pos.to_nat Pos.iter_op Nat.add].
    now rewrite !of_nat_not_minus_one, !Nat2Z.id. }
  split; [exact Hv|].
  intros c b o g h w. unfold get. rewrite Hv. cbn [view data].
  rewrite Hs. f_equal. simpl. ring.
Qed.

(* ------------------------------------------------------------------ *)
(** ** Running the layers on the reference host *)

(** Evaluation that leaves the arithmetic of the reals symbolic. *)
Ltac run :=
  cbv - [Rplus Rminus Rmult Rdiv Rinv Ropp IZR sqrt Rmax PI cos sin
         Rlt_dec Rle_dec].

(** C4 (as the code behaves). With 2 filters and 3 base channels the
    enhanced weight lists its channels filter by filter, and the reshaped
    output read at (group, orientation) is
    [f0*w0, f0*w1 | f0*w2, f1*w0 | f1*w1, f1*w2]: the entry at group 0,
    orientation 1 is filter 0 on base channel 1, not filter 1 on base
    channel 0 (5 against 6 for filters 1, 2 and kernels 3, 5, 7), and max
    pooling over that axis returns [max (f0*w0) (f0*w1)] for group 0. *)
Theorem pool_view_mixes_base_channels (f0 f1 w0 w1 w2 : R) :
  let self := Demo.layer IGConvCmplx.PoolTorchMax f0 f1 w0 w1 w2 in
  select0 (snd (@IGConvCmplx.enhanced_weight Ref.host self)) 0
  = mkT [6; 1; 1; 1]%nat
      [f0 * w0; f0 * w1; f0 * w2; f1 * w0; f1 * w1; f1 * w2]
  /\ (exists pool_out,
        Demo.pool_out self = Ok pool_out
        /\ shape pool_out = [2; 1; 3; 2; 1; 1]%nat
        /\ map (fun og => get 0 pool_out [0; 0; fst og; snd og; 0; 0]%nat)
               [(0, 0); (0, 1); (1, 0); (1, 1); (2, 0); (2, 1)]%nat
           = [f0 * w0; f0 * w1; f0 * w2; f1 * w0; f1 * w1; f1 * w2])
  /\ (exists pool_out,
        Demo.pool_out (Demo.layer IGConvCmplx.PoolTorchMax 1 2 3 5 7)
        = Ok pool_out
        /\ get 0 pool_out [0; 0; 0; 1; 0; 0]%nat = 1 * 5
        /\ get 0 pool_out [0; 0; 0; 1; 0; 0]%nat <> 2 * 3)
  /\ (exists im,
        snd (@IGConvCmplx.forward Ref.host self Demo.x)
        = Ok (VTensor
                (mkT [2; 1; 3; 1; 1]%nat
                   ([Rmax (f0 * w0) (f0 * w1); Rmax (f0 * w2) (f1 * w0);
                     Rmax (f1 * w1) (f1 * w2)] ++ im)))).
Proof.
  intros self. split; [reflexivity|]. split; [|split].
  - eexists. split; [reflexivity|]. split; [reflexivity|].
    unfold self. run. repeat (f_equal; try ring).
  - eexists. split; [reflexivity|]. split; run; lra.
  - unfold self. run. eexists. do 3 f_equal.
    repeat (apply f_equal2; [f_equal; ring|]).
    simpl. reflexivity.
Qed.

Section OrientationPooling.
Context {H : Host}.

(** With [torch.max] as pooling callable, a [forward] whose convolution
    takes the input returns the values of the maximum, a tensor that keeps
    the complex axis. *)
Lemma forward_max_values (self : IGConvCmplx.t) (x : tensor R) :
  IGConvCmplx.gabor_pooling self = IGConvCmplx.PoolTorchMax ->
  let ew := snd (IGConvCmplx.enhanced_weight self) in
  conv_cmplx_accepts x ew (IGConvCmplx.conv_kwargs self) = true ->
  snd (IGConvCmplx.forward self x)
  = (pool_out <- IGConvCmplx.pool_view self ew
                   (conv_cmplx x ew false (IGConvCmplx.conv_kwargs self)) ;;
     Ok (VTensor (fst (torch_max pool_out 3 false)))).
Proof.
  intros Hp ew. unfold IGConvCmplx.forward, ew.
  destruct (IGConvCmplx.enhanced_weight self) as [g w].
  cbn [IGConvCmplx.gabor_pooling IGConvCmplx.conv_kwargs snd].
  intros ->. cbn [negb]. rewrite Hp. cbn [snd].
  destruct (IGConvCmplx.pool_view _ _ _); reflexivity.
Qed.

(** With [torch.mean] as pooling callable, a [forward] whose convolution
    takes the input unpacks the mean tensor itself along its leading
    (complex) axis and returns the first slice, the mean of the real
    part. *)
Lemma forward_avg_first_slice (self : IGConvCmplx.t) (x : tensor R) :
  IGConvCmplx.gabor_pooling self = IGConvCmplx.PoolTorchMean ->
  let ew := snd (IGConvCmplx.enhanced_weight self) in
  conv_cmplx_accepts x ew (IGConvCmplx.conv_kwargs self) = true ->
  snd (IGConvCmplx.forward self x)
  = (pool_out <- IGConvCmplx.pool_view self ew
                   (conv_cmplx x ew false (IGConvCmplx.conv_kwargs self)) ;;
     Ok (VTensor (select0 (torch_mean pool_out 3) 0))).
Proof.
  intros Hp ew. unfold IGConvCmplx.forward, ew.
  destruct (IGConvCmplx.enhanced_weight self) as [g w].
  cbn [IGConvCmplx.gabor_pooling IGConvCmplx.conv_kwargs snd].
  intros ->. cbn [negb]. rewrite Hp. cbn [snd]. unfold IGConvCmplx.pool_view.
  destruct (py_floordiv _ _); reflexivity.
Qed.

End OrientationPooling.

(** C5 (as the code behaves). With ['avg'] orientation pooling the mean
    over the pooled axis has a real and an imaginary component, but
    [forward] returns a tensor without complex axis that holds the means
    of the real component only. *)
Theorem avg_pooling_returns_real_part_only (f0 f1 w0 w1 w2 : R) :
  let self := Demo.layer IGConvCmplx.PoolTorchMean f0 f1 w0 w1 w2 in
  let re_mean :=
    [(f0 * w0 + f0 * w1) / 2; (f0 * w2 + f1 * w0) / 2;
     (f1 * w1 + f1 * w2) / 2] in
  (exists pool_out,
     Demo.pool_out self = Ok pool_out
     /\ torch_mean pool_out 3
        = mkT [2; 1; 3; 1; 1]%nat (re_mean ++ [1; 1; 1]))
  /\ snd (@IGConvCmplx.forward Ref.host self Demo.x)
     = Ok (VTensor (mkT [1; 3; 1; 1]%nat re_mean)).
Proof.
  intros self re_mean. unfold self, re_mean. split.
  - eexists. split; [reflexivity|].
    run. f_equal. repeat (apply f_equal2; [field|]). reflexivity.
  - run. do 3 f_equal. repeat (apply f_equal2; [field|]). reflexivity.
Qed.

(* ------------------------------------------------------------------ *)
(** ** Weight initialisation *)

Section InitWeights.
Context {H : Host}.

(** The scale handed to the Rayleigh sampler is [1 / fan_in] for ['he'] and
    [1 / (fan_in + fan_out)] for ['glorot'], the fans being those of the
    real kernel [w[0]]; phases are drawn between [-PI] and [PI]; cartesian
    storage is [(mag * cos phase, mag * sin phase)], polar storage
    [(mag, phase)]. *)
Lemma init_weights_scale (w : tensor R) (O I kh kw : nat) (mode : string) :
  shape w = [2; O; I; kh; kw]%nat ->
  let s := [O; I; kh; kw]%nat in
  let fan_in := (Z.of_nat I * Z.of_nat (kh * kw))%Z in
  let fan_out := (Z.of_nat O * Z.of_nat (kh * kw))%Z in
  let n := if String.eqb mode "he" then fan_in else (fan_in + fan_out)%Z in
  (mode = "he" \/ mode = "glorot")%string -> n <> 0%Z ->
  let mag := rayleigh (1 / IZR n) s in
  let phase := uniform (- PI) PI s in
  init_weights w (PyStr mode) false
  = Ok (cmplx (tmul mag (tmap cos phase)) (tmul mag (tmap sin phase)))
  /\ init_weights w (PyStr mode) true = Ok (cmplx mag phase).
Proof.
  intros Hs s fan_in fan_out n Hmode Hn mag phase.
  unfold init_weights, _calculate_fan_in_and_fan_out, size, dim, select0.
  rewrite Hs. cbn [tl shape length Nat.ltb Nat.leb nth skipn numel fold_right bind].
  rewrite Nat.mul_1_r. fold fan_in fan_out.
  unfold py_inv.
  apply Z.eqb_neq in Hn.
  destruct Hmode as [-> | ->]; cbn [py_eq_str String.eqb Ascii.eqb Bool.eqb] in *;
    subst n mag; rewrite Hn; cbn [bind]; split; reflexivity.
Qed.

(** A mode that is neither ['he'] nor ['glorot'] leaves [sigma] unbound. *)
Lemma init_weights_other_mode (w : tensor R) (mode : pyobj) (polar : bool) :
  (2 <= dim (select0 w 0))%nat ->
  mode <> PyStr "he" -> mode <> PyStr "glorot" ->
  init_weights w mode polar = Raise (UnboundLocalError "sigma").
Proof.
  intros Hd Hhe Hgl. unfold init_weights, _calculate_fan_in_and_fan_out.
  destruct (Nat.ltb_spec (dim (select0 w 0)) 2); [lia|]. cbn [bind].
  apply py_eq_str_false in Hhe, Hgl. now rewrite Hhe, Hgl.
Qed.

(** C9 (as the code behaves). For a weight with one input channel and 3x3
    kernels ([fan_in = 9], [fan_out = 36]) the magnitudes are drawn with
    Rayleigh scale [1/9] in ['he'] mode and [1/45] in ['glorot'] mode: the
    scale is the reciprocal of the fan itself, so its square is [1/81]
    (resp. [1/2025]), not [1/9] (resp. [1/45]). *)
Theorem init_weights_rayleigh_scale :
  let w := Ref.const 0 [2; 4; 1; 3; 3]%nat in
  let s := [4; 1; 3; 3]%nat in
  let phase := uniform (- PI) PI s in
  init_weights w (PyStr "he") false
  = Ok (cmplx (tmul (rayleigh (1 / 9) s) (tmap cos phase))
              (tmul (rayleigh (1 / 9) s) (tmap sin phase)))
  /\ init_weights w (PyStr "glorot") false
     = Ok (cmplx (tmul (rayleigh (1 / 45) s) (tmap cos phase))
                 (tmul (rayleigh (1 / 45) s) (tmap sin phase)))
  /\ (1 / 9) ^ 2 <> 1 / 9
  /\ (1 / 45) ^ 2 <> 1 / 45.
Proof.
  intros w s phase.
  split; [|split; [|split]]; try lra.
  - exact (proj1 (@init_weights_scale w 4 1 3 3 "he" eq_refl
                    (or_introl eq_refl) ltac:(discriminate))).
  - exact (proj1 (@init_weights_scale w 4 1 3 3 "glorot" eq_refl
                    (or_intror eq_refl) ltac:(discriminate))).
Qed.

End InitWeights.

(* ================================================================== *)
(** * Further properties *)

(** ** Broadcast operators on equal and on stacked shapes *)

Lemma bshape_cons_l (d0 : nat) (s : list nat) : bshape (d0 :: s) s = d0 :: s.
Proof.
  unfold bshape, pad. simpl length.
  rewrite Nat.max_l by lia.
  replace (S (length s) - length s)%nat with 1%nat by lia.
  rewrite Nat.sub_diag. simpl. f_equal.
  - destruct (Nat.eqb_spec d0 1); congruence.
  - apply map_combine_self. intros d; simpl. now destruct (d =? 1)%nat.
Qed.

Section Broadcast.
Variables A B C : Type.
Variables (da : A) (db : B) (dc : C) (f : A -> B -> C).

Lemma shape_bop_same (a : tensor A) (b : tensor B) s :
  shape a = s -> shape b = s -> shape (bop da db f a b) = s.
Proof. intros Ha Hb. unfold bop. simpl. now rewrite Ha, Hb, bshape_same. Qed.

Lemma get_bop_same (a : tensor A) (b : tensor B) s I :
  shape a = s -> shape b = s -> in_range s I ->
  get dc (bop da db f a b) I = f (get da a I) (get db b I).
Proof.
  intros Ha Hb HI. unfold bop. rewrite Ha, Hb, bshape_same.
  rewrite get_tabulate by exact HI. now rewrite (bidx_full _ _ HI).
Qed.

Lemma shape_bop_cons (a : tensor A) (b : tensor B) d0 s :
  shape a = s -> shape b = d0 :: s -> shape (bop da db f a b) = d0 :: s.
Proof. intros Ha Hb. unfold bop. simpl. now rewrite Ha, Hb, bshape_cons. Qed.

Lemma get_bop_cons (a : tensor A) (b : tensor B) d0 s c I :
  shape a = s -> shape b = d0 :: s -> (c < d0)%nat -> in_range s I ->
  get dc (bop da db f a b) (c :: I) = f (get da a I) (get db b (c :: I)).
Proof.
  intros Ha Hb Hc HI. unfold bop. rewrite Ha, Hb, bshape_cons.
  assert (HI' : in_range (d0 :: s) (c :: I)) by (simpl; tauto).
  rewrite get_tabulate by exact HI'.
  now rewrite (bidx_full _ _ HI'), bidx_tail.
Qed.

Lemma shape_bop_cons_l (a : tensor A) (b : tensor B) d0 s :
  shape a = d0 :: s -> shape b = s -> shape (bop da db f a b) = d0 :: s.
Proof. intros Ha Hb. unfold bop. simpl. now rewrite Ha, Hb, bshape_cons_l. Qed.

Lemma get_bop_cons_l (a : tensor A) (b : tensor B) d0 s c I :
  shape a = d0 :: s -> shape b = s -> (c < d0)%nat -> in_range s I ->
  get dc (bop da db f a b) (c :: I) = f (get da a (c :: I)) (get db b I).
Proof.
  intros Ha Hb Hc HI. unfold bop. rewrite Ha, Hb, bshape_cons_l.
  assert (HI' : in_range (d0 :: s) (c :: I)) by (simpl; tauto).
  rewrite get_tabulate by exact HI'.
  now rewrite (bidx_full _ _ HI'), bidx_tail.
Qed.

Lemma wf_bop (a : tensor A) (b : tensor B) : wf (bop da db f a b).
Proof. apply wf_tabulate. Qed.

End Broadcast.

Lemma shape_select0 (A : Type) (t : tensor A) d0 s i :
  shape t = d0 :: s -> shape (select0 t i) = s.
Proof. intros Hs. unfold select0. simpl. now rewrite Hs. Qed.


(* ------------------------------------------------------------------ *)
(** ** Phase *)

Lemma get_phase (x : tensor R) (eps : R) (s I : list nat) :
  shape x = 2%nat :: s -> wf x -> in_range s I ->
  shape (phase x eps) = s
  /\ get 0 (phase x eps) I
     = atan (get 0 x (1%nat :: I) / Rmax (get 0 x (0%nat :: I)) eps).
Proof.
  intros Hs Hw HI.
  assert (S0 : shape (select0 x 0) = s) by now apply shape_select0 with (d0 := 2%nat).
  assert (S1 : shape (select0 x 1) = s) by now apply shape_select0 with (d0 := 2%nat).
  assert (W0 : wf (select0 x 0))
    by (apply wf_select0 with (d0 := 2%nat) (s := s); trivial; lia).
  assert (Sq : shape (bdiv (select0 x 1)
                        (tmap (fun v => Rmax v eps) (select0 x 0))) = s)
    by (apply shape_bop_same; trivial).
  split; [exact Sq|].
  unfold phase.
  rewrite get_tmap with (d := 0); [| apply wf_bop | now rewrite Sq].
  unfold bdiv. rewrite get_bop_same with (s := s) by trivial.
  rewrite get_tmap with (d := 0) by (trivial; now rewrite S0).
  now rewrite !get_select0 with (d0 := 2%nat) (s := s) by trivial.
Qed.

(** X2. Every element of [phase(x, eps)] is computed as
    [atan (im / max re eps)].  Where [re <= eps], in particular on the
    whole left half plane, the real part is replaced by [eps], so the
    result no longer depends on it: two complex numbers with the same
    imaginary part and real parts not above [eps] get the same phase. *)
Theorem phase_clamped_atan (x x' : tensor R) (eps : R) (s I : list nat) :
  shape x = 2%nat :: s -> wf x ->
  shape x' = 2%nat :: s -> wf x' ->
  in_range s I ->
  let re := get 0 x (0%nat :: I) in
  let im := get 0 x (1%nat :: I) in
  let p := get 0 (phase x eps) I in
  shape (phase x eps) = s
  /\ p = atan (im / Rmax re eps)
  /\ (re <= eps -> p = atan (im / eps))
  /\ (re <= eps -> get 0 x' (0%nat :: I) <= eps ->
      get 0 x' (1%nat :: I) = im ->
      get 0 (phase x' eps) I = p).
Proof.
  intros Hs Hw Hs' Hw' HI re im p.
  destruct (@get_phase x eps s I Hs Hw HI) as [Sq Hp].
  destruct (@get_phase x' eps s I Hs' Hw' HI) as [_ Hp'].
  fold re im p in Hp.
  split; [exact Sq|]. split; [exact Hp|]. split.
  - intros Hle. now rewrite Hp, Rmax_right.
  - intros Hle Hle' Him.
    rewrite Hp', Hp, Him, !Rmax_right by assumption. reflexivity.
Qed.

(** The values [-1 + 0i] and [-2 + 0i] have the phase [atan (0 / eps)],
    that of a positive real number. *)
Lemma phase_clamped_atan_witness :
  let x := mkT [2; 1]%nat [-1; 0] in
  let x' := mkT [2; 1]%nat [-2; 0] in
  shape x = [2; 1]%nat /\ wf x /\ shape x' = [2; 1]%nat /\ wf x'
  /\ in_range [1%nat] [0%nat]
  /\ (-1 <= eps_default ->
      get 0 (phase x eps_default) [0%nat] = atan (0 / eps_default))
  /\ (-1 <= eps_default -> -2 <= eps_default -> 0 = 0 ->
      get 0 (phase x' eps_default) [0%nat]
      = get 0 (phase x eps_default) [0%nat]).
Proof.
  intros x x'.
  assert (HI : in_range [1%nat] [0%nat]) by (simpl; lia).
  split; [reflexivity|]. split; [reflexivity|].
  split; [reflexivity|]. split; [reflexivity|]. split; [exact HI|].
  exact (proj2 (proj2
           (@phase_clamped_atan x x' eps_default [1%nat] [0%nat]
              eq_refl eq_refl eq_refl eq_refl HI))).
Defined.

(* ------------------------------------------------------------------ *)
(** ** Complex multiplication *)

Lemma shape_mult (x y : tensor R) (s : list nat) :
  shape x = 2%nat :: s -> shape y = 2%nat :: s ->
  shape (mult x y) = 2%nat :: s.
Proof.
  intros Hx Hy. unfold mult, stack. cbn [shape length]. f_equal.
  unfold bsub. apply shape_bop_same; apply shape_bop_same;
    now apply shape_select0 with (d0 := 2%nat).
Qed.

Lemma get_mult (x y : tensor R) (s I : list nat) :
  shape x = 2%nat :: s -> shape y = 2%nat :: s -> in_range s I ->
  get 0 (mult x y) (0%nat :: I)
  = get 0 x (0%nat :: I) * get 0 y (0%nat :: I)
    - get 0 x (1%nat :: I) * get 0 y (1%nat :: I)
  /\ get 0 (mult x y) (1%nat :: I)
     = get 0 x (0%nat :: I) * get 0 y (1%nat :: I)
       + get 0 x (1%nat :: I) * get 0 y (0%nat :: I).
Proof.
  intros Hx Hy HI.
  assert (Sx : forall c, shape (select0 x c) = s)
    by (intros c; now apply shape_select0 with (d0 := 2%nat)).
  assert (Sy : forall c, shape (select0 y c) = s)
    by (intros c; now apply shape_select0 with (d0 := 2%nat)).
  assert (Sp : forall cx cy, shape (bmul (select0 x cx) (select0 y cy)) = s)
    by (intros; now apply shape_bop_same).
  unfold mult.
  set (A := bsub _ _). set (B := badd _ _).
  assert (SA : shape A = s) by (apply shape_bop_same; apply Sp).
  assert (SB : shape B = s) by (apply shape_bop_same; apply Sp).
  change (stack [A; B]) with (cmplx A B).
  rewrite get_cmplx_0 by (try apply wf_bop; now rewrite SA).
  rewrite get_cmplx_1
    by (try apply wf_bop; try (now rewrite SA); now rewrite SA, SB).
  unfold A, B, bsub, badd, bmul.
  rewrite !get_bop_same with (s := s) by (trivial; apply Sp).
  now rewrite !get_select0 with (d0 := 2%nat) (s := s) by trivial.
Qed.

(** X4. [cmplx_mult] without arguments raises [IndexError]; with one
    argument it returns it unchanged; with more it multiplies from the
    left, the two-argument case included.  On equally shaped tensors the
    pairwise product has real part [x0 * y0 - x1 * y1] and imaginary part
    [x0 * y1 + x1 * y0] at every position, and swapping the two factors
    gives the same tensor elementwise. *)
Theorem cmplx_mult_chain :
  cmplx_mult [] = Raises IndexError
  /\ (forall x, cmplx_mult [x] = Returns x)
  /\ (forall x items,
        cmplx_mult (x :: items) = Returns (fold_left mult items x))
  /\ (forall x y s I,
        shape x = 2%nat :: s -> shape y = 2%nat :: s -> in_range s I ->
        shape (mult x y) = 2%nat :: s
        /\ get 0 (mult x y) (0%nat :: I)
           = get 0 x (0%nat :: I) * get 0 y (0%nat :: I)
             - get 0 x (1%nat :: I) * get 0 y (1%nat :: I)
        /\ get 0 (mult x y) (1%nat :: I)
           = get 0 x (0%nat :: I) * get 0 y (1%nat :: I)
             + get 0 x (1%nat :: I) * get 0 y (0%nat :: I)
        /\ forall c, (c < 2)%nat ->
             get 0 (mult x y) (c :: I) = get 0 (mult y x) (c :: I)).
Proof.
  split; [reflexivity|]. split; [reflexivity|]. split.
  - intros x [|y [|z items]]; reflexivity.
  - intros x y s I Hx Hy HI.
    destruct (@get_mult x y s I Hx Hy HI) as [A0 A1].
    destruct (@get_mult y x s I Hy Hx HI) as [B0 B1].
    split; [now apply shape_mult|]. split; [exact A0|].
    split; [exact A1|].
    intros [|[|c]] Hc; [| |lia].
    + rewrite A0, B0. ring.
    + rewrite A1, B1. ring.
Qed.

Lemma cmplx_mult_chain_witness :
  let x := mkT [2; 1]%nat [1; 2] in
  let y := mkT [2; 1]%nat [3; 4] in
  in_range [1%nat] [0%nat]
  /\ cmplx_mult [x; y] = Returns (mult x y)
  /\ get 0 (mult x y) [0; 0]%nat = 1 * 3 - 2 * 4
  /\ get 0 (mult x y) [1; 0]%nat = 1 * 4 + 2 * 3
  /\ get 0 (mult x y) [1; 0]%nat = get 0 (mult y x) [1; 0]%nat.
Proof.
  intros x y.
  assert (HI : in_range [1%nat] [0%nat]) by (simpl; lia).
  split; [exact HI|].
  destruct cmplx_mult_chain as (_ & _ & Hfold & Hprod).
  split; [exact (Hfold x [y])|].
  destruct (Hprod x y [1%nat] [0%nat] eq_refl eq_refl HI)
    as (_ & H0 & H1 & Hc).
  split; [exact H0|]. split; [exact H1|].
  exact (Hc 1%nat (Nat.lt_succ_diag_r 1)).
Defined.

(* ------------------------------------------------------------------ *)
(** ** Rectifiers 'c' and 'z' *)

Lemma relu_relu (t : tensor R) : relu (relu t) = relu t.
Proof.
  unfold relu, tmap. simpl. f_equal. rewrite map_map.
  apply map_ext. intros v. unfold Rmax.
  repeat destruct (Rle_dec _ _); lra.
Qed.

Lemma get_relu_cmplx (x : tensor R) (s I : list nat) (c : nat) :
  shape x = 2%nat :: s -> wf x -> (c < 2)%nat -> in_range s I ->
  get 0 (relu_cmplx x) (c :: I) = Rmax (get 0 x (c :: I)) 0.
Proof.
  intros Hs Hw Hc HI. unfold relu_cmplx, relu.
  assert (S0 : forall k, shape (select0 x k) = s)
    by (intros k; now apply shape_select0 with (d0 := 2%nat)).
  assert (W : forall k, (k < 2)%nat -> wf (select0 x k))
    by (intros k Hk; now apply wf_select0 with (d0 := 2%nat) (s := s)).
  assert (Sr : forall k, shape (tmap (fun v => Rmax v 0) (select0 x k)) = s)
    by (intros k; exact (S0 k)).
  assert (Wr : forall k, (k < 2)%nat ->
            wf (tmap (fun v => Rmax v 0) (select0 x k)))
    by (intros k Hk; apply wf_tmap; now apply W).
  destruct c as [|[|c]]; [| |lia].
  - rewrite get_cmplx_0 by (try (apply Wr; lia); now rewrite Sr).
    rewrite get_tmap with (d := 0) by (try (apply W; lia); now rewrite S0).
    now rewrite get_select0 with (d0 := 2%nat) (s := s).
  - rewrite get_cmplx_1
      by (try (apply Wr; lia); try (now rewrite Sr); now rewrite !Sr).
    rewrite get_tmap with (d := 0) by (try (apply W; lia); now rewrite S0).
    now rewrite get_select0 with (d0 := 2%nat) (s := s).
Qed.

(** X5. [relu_cmplx] rectifies the two components separately: every output
    element is [max v 0] of the input element, hence nonnegative, and
    applying it twice is applying it once. *)
Theorem relu_cmplx_componentwise (x : tensor R) (s I : list nat) (c : nat) :
  shape x = 2%nat :: s -> wf x -> (c < 2)%nat -> in_range s I ->
  shape (relu_cmplx x) = 2%nat :: s
  /\ get 0 (relu_cmplx x) (c :: I) = Rmax (get 0 x (c :: I)) 0
  /\ 0 <= get 0 (relu_cmplx x) (c :: I)
  /\ relu_cmplx (relu_cmplx x) = relu_cmplx x.
Proof.
  intros Hs Hw Hc HI.
  assert (S0 : forall k, shape (select0 x k) = s)
    by (intros k; now apply shape_select0 with (d0 := 2%nat)).
  assert (W : forall k, (k < 2)%nat -> wf (relu (select0 x k))).
  { intros k Hk. apply wf_tmap.
    now apply wf_select0 with (d0 := 2%nat) (s := s). }
  assert (G := @get_relu_cmplx x s I c Hs Hw Hc HI).
  split; [unfold relu_cmplx; rewrite shape_cmplx; f_equal; exact (S0 0%nat)|].
  split; [exact G|]. split; [rewrite G; apply Rmax_r|].
  unfold relu_cmplx at 1.
  unfold relu_cmplx at 1 2.
  rewrite select0_cmplx_0 by (apply W; lia).
  rewrite select0_cmplx_1
    by (try (apply W; lia); exact (eq_trans (S0 1%nat) (eq_sym (S0 0%nat)))).
  now rewrite !relu_relu.
Qed.

Lemma relu_cmplx_componentwise_witness :
  let x := mkT [2; 2]%nat [1; -5; 2; 3] in
  in_range [2%nat] [1%nat]
  /\ get 0 (relu_cmplx x) [0; 1]%nat = Rmax (-5) 0
  /\ relu_cmplx (relu_cmplx x) = relu_cmplx x.
Proof.
  intros x.
  assert (HI : in_range [2%nat] [1%nat]) by (simpl; lia).
  pose proof (@relu_cmplx_componentwise x [2%nat] [1%nat] 0%nat
                eq_refl eq_refl Nat.lt_0_2 HI) as (_ & G & _ & Hid).
  split; [exact HI|]. split; [exact G | exact Hid].
Defined.

Lemma shape_relu_cmplx_z (x : tensor R) (s : list nat) :
  shape x = 2%nat :: s -> shape (relu_cmplx_z x) = 2%nat :: s.
Proof.
  intros Hs. unfold relu_cmplx_z.
  set (x1 := where_ 0 _ x (zeros_like x)).
  assert (Hx1 : shape x1 = 2%nat :: s)
    by (apply shape_where; trivial; simpl; now rewrite Hs).
  clearbody x1.
  apply shape_where; [simpl; now rewrite Hx1 | exact Hx1 | exact Hx1].
Qed.

Lemma wf_relu_cmplx_z (x : tensor R) : wf (relu_cmplx_z x).
Proof. apply wf_tabulate. Qed.

Lemma Rgtb_false_spec (a : R) : Rgtb a 0 = false <-> a <= 0.
Proof.
  unfold Rgtb. destruct (Rlt_dec 0 a); split; intros; (congruence || lra).
Qed.

(** X6. The rectifiers 'c' and 'z' agree at the positions where the two
    components are both positive or both non-positive; where exactly one is
    positive, 'c' keeps it and 'z' returns zero.  Either rectifier applied
    after 'z' changes nothing. *)
Theorem relu_cmplx_vs_relu_cmplx_z (x : tensor R) (s I : list nat) :
  shape x = 2%nat :: s -> wf x -> in_range s I ->
  let re := get 0 x (0%nat :: I) in
  let im := get 0 x (1%nat :: I) in
  let c_at k := get 0 (relu_cmplx x) (k :: I) in
  let z_at k := get 0 (relu_cmplx_z x) (k :: I) in
  ((0 < re /\ 0 < im) \/ (re <= 0 /\ im <= 0) ->
   c_at 0%nat = z_at 0%nat /\ c_at 1%nat = z_at 1%nat)
  /\ (0 < re /\ im <= 0 ->
      c_at 0%nat = re /\ c_at 1%nat = 0 /\ z_at 0%nat = 0 /\ z_at 1%nat = 0)
  /\ (re <= 0 /\ 0 < im ->
      c_at 0%nat = 0 /\ c_at 1%nat = im /\ z_at 0%nat = 0 /\ z_at 1%nat = 0)
  /\ (forall k, (k < 2)%nat ->
        get 0 (relu_cmplx (relu_cmplx_z x)) (k :: I) = z_at k
        /\ get 0 (relu_cmplx_z (relu_cmplx_z x)) (k :: I) = z_at k).
Proof.
  intros Hs Hw HI re im c_at z_at.
  assert (C : forall k, (k < 2)%nat -> c_at k = Rmax (get 0 x (k :: I)) 0)
    by (intros k Hk; now apply get_relu_cmplx with (s := s)).
  assert (Z : forall k, (k < 2)%nat ->
            z_at k = if Rgtb re 0 && Rgtb im 0 then get 0 x (k :: I) else 0)
    by (intros k Hk; now apply get_relu_cmplx_z with (s := s)).
  assert (C0 := C 0%nat Nat.lt_0_2). assert (C1 := C 1%nat Nat.lt_1_2).
  assert (Z0 := Z 0%nat Nat.lt_0_2). assert (Z1 := Z 1%nat Nat.lt_1_2).
  fold re in C0, Z0. fold im in C1, Z1.
  assert (Sz := @shape_relu_cmplx_z x s Hs).
  assert (Wz := wf_relu_cmplx_z x).
  assert (Z00 : Rgtb 0 0 = false) by (apply Rgtb_false_spec; lra).
  pose proof (Rmax_left) as ML. pose proof (Rmax_right) as MR.
  split; [|split; [|split]].
  - rewrite C0, C1, Z0, Z1.
    destruct (Rgtb re 0) eqn:E1;
      [apply Rgtb_spec in E1 | apply Rgtb_false_spec in E1];
      (destruct (Rgtb im 0) eqn:E2;
       [apply Rgtb_spec in E2 | apply Rgtb_false_spec in E2]);
      cbn [andb]; intros [[? ?] | [? ?]]; try lra;
      unfold Rmax; repeat destruct (Rle_dec _ _); split; lra.
  - intros [Hr Hi]. rewrite C0, C1, Z0, Z1.
    apply Rgtb_false_spec in Hi. rewrite Hi, andb_false_r.
    apply Rgtb_false_spec in Hi.
    unfold Rmax; repeat destruct (Rle_dec _ _); repeat split; lra.
  - intros [Hr Hi]. rewrite C0, C1, Z0, Z1.
    apply Rgtb_false_spec in Hr. rewrite Hr. cbn [andb].
    apply Rgtb_false_spec in Hr.
    unfold Rmax; repeat destruct (Rle_dec _ _); repeat split; lra.
  - intros k Hk. split.
    + rewrite get_relu_cmplx with (s := s) by trivial.
      fold (z_at k). rewrite (Z k Hk).
      destruct (Rgtb re 0) eqn:E1; cbn [andb]; [|apply ML; lra].
      destruct (Rgtb im 0) eqn:E2; [|apply ML; lra].
      apply Rgtb_spec in E1, E2.
      destruct k as [|[|k]]; [| |lia]; apply ML.
      * fold re. lra.
      * fold im. lra.
    + rewrite get_relu_cmplx_z with (s := s) by trivial.
      fold (z_at 0%nat) (z_at 1%nat) (z_at k).
      rewrite Z0, Z1, (Z k Hk).
      destruct (Rgtb re 0) eqn:E1; cbn [andb]; [|now rewrite Z00].
      destruct (Rgtb im 0) eqn:E2; [|now rewrite Z00].
      now rewrite E1, E2.
Qed.

Lemma relu_cmplx_vs_relu_cmplx_z_witness :
  let x := mkT [2; 1]%nat [4; -1] in
  in_range [1%nat] [0%nat]
  /\ (0 < 4 /\ -1 <= 0 ->
      get 0 (relu_cmplx x) [0; 0]%nat = 4
      /\ get 0 (relu_cmplx_z x) [0; 0]%nat = 0).
Proof.
  intros x.
  assert (HI : in_range [1%nat] [0%nat]) by (simpl; lia).
  split; [exact HI|]. intros Hc.
  destruct (proj1 (proj2 (@relu_cmplx_vs_relu_cmplx_z x [1%nat] [0%nat]
                            eq_refl eq_refl HI)) Hc) as (A & _ & B & _).
  split; [exact A | exact B].
Defined.

(* ------------------------------------------------------------------ *)
(** ** Real tensors seen as complex ones *)

(** X1. [new_cmplx] keeps the tensor as real part and has a zero imaginary
    part at every position.  So [relu_cmplx] rectifies the real part and
    keeps the zero, while [relu_cmplx_z], which passes a value only when
    its imaginary part is strictly positive, maps the embedded tensor to
    zero everywhere. *)
Theorem new_cmplx_real_part (x : tensor R) (I : list nat) :
  wf x -> in_range (shape x) I ->
  let z := new_cmplx x in
  shape z = 2%nat :: shape x
  /\ wf z
  /\ get 0 z (0%nat :: I) = get 0 x I
  /\ get 0 z (1%nat :: I) = 0
  /\ get 0 (relu_cmplx z) (0%nat :: I) = Rmax (get 0 x I) 0
  /\ get 0 (relu_cmplx z) (1%nat :: I) = 0
  /\ get 0 (relu_cmplx_z z) (0%nat :: I) = 0
  /\ get 0 (relu_cmplx_z z) (1%nat :: I) = 0.
Proof.
  intros Hw HI z.
  assert (Hz : wf (zeros_like x)) by now apply wf_tmap.
  assert (Sz : shape z = 2%nat :: shape x) by apply shape_cmplx.
  assert (Wz : wf z) by (now apply (@wf_cmplx R)).
  assert (H0 : get 0 z (0%nat :: I) = get 0 x I)
    by (unfold z, new_cmplx; now rewrite get_cmplx_0).
  assert (H1 : get 0 z (1%nat :: I) = 0).
  { unfold z, new_cmplx. rewrite get_cmplx_1 by trivial.
    apply get_zeros_like. }
  assert (Hgate : Rgtb 0 0 = false).
  { destruct (Rgtb 0 0) eqn:E; [apply Rgtb_spec in E; lra | reflexivity]. }
  split; [exact Sz|]. split; [exact Wz|]. split; [exact H0|].
  split; [exact H1|].
  rewrite !(@get_relu_cmplx z (shape x) I) by (trivial; lia).
  rewrite !(@get_relu_cmplx_z z (shape x)) by (trivial; lia).
  rewrite H0, H1, Hgate, andb_false_r.
  repeat split; try reflexivity. apply Rmax_left. lra.
Qed.

Lemma new_cmplx_real_part_witness :
  let x := mkT [2%nat] [3; -4] in
  in_range (shape x) [1%nat]
  /\ get 0 (new_cmplx x) [0; 1]%nat = -4
  /\ get 0 (new_cmplx x) [1; 1]%nat = 0
  /\ get 0 (relu_cmplx_z (new_cmplx x)) [0; 0]%nat = 0.
Proof.
  intros x.
  assert (H0 : in_range (shape x) [0%nat]) by (simpl; lia).
  assert (H1 : in_range (shape x) [1%nat]) by (simpl; lia).
  split; [exact H1|].
  destruct (@new_cmplx_real_part x [1%nat] eq_refl H1)
    as (_ & _ & A & B & _).
  destruct (@new_cmplx_real_part x [0%nat] eq_refl H0)
    as (_ & _ & _ & _ & _ & _ & C & _).
  split; [exact A|]. split; [exact B | exact C].
Defined.

(* ------------------------------------------------------------------ *)
(** ** The modulus rectifier *)

(** A per-channel bias [[C, 1, 1]], given one more trailing axis, is added
    to a magnitude [[N, C, G, H, W]] along the channel axis. *)
Lemma add_channel_bias (r b : tensor R) (N C G Hh W : nat) :
  shape r = [N; C; G; Hh; W]%nat -> shape b = [C; 1; 1]%nat ->
  let t := badd r (unsqueeze 3 b) in
  shape t = [N; C; G; Hh; W]%nat
  /\ forall n c g h w,
       (n < N)%nat -> (c < C)%nat -> (g < G)%nat -> (h < Hh)%nat ->
       (w < W)%nat ->
       get 0 t [n; c; g; h; w]
       = get 0 r [n; c; g; h; w] + get 0 b [c; 0; 0]%nat.
Proof.
  intros Hr Hb t.
  assert (Hs : shape t = [N; C; G; Hh; W]%nat).
  { unfold t, badd, bop, unsqueeze, bshape, pad. cbn [shape tabulate].
    rewrite Hr, Hb. cbn. now rewrite !if_one_same, if_same. }
  split; [exact Hs|].
  intros n c g h w Hn Hc Hg Hh' Hw.
  unfold t, badd, bop in *. cbn [shape tabulate] in Hs. rewrite Hs.
  rewrite get_tabulate by (simpl; tauto).
  rewrite (@bidx_full (shape r) [n; c; g; h; w])
    by (rewrite Hr; simpl; tauto).
  f_equal. unfold unsqueeze. cbn [shape]. rewrite Hb.
  cbn [bidx firstn skipn app length Nat.sub combine map fst snd Nat.eqb].
  rewrite (if_one_index Hc).
  unfold get. cbn [shape data]. rewrite Hb. reflexivity.
Qed.

Lemma magnitude_pos (x : tensor R) (s I : list nat) :
  shape x = 2%nat :: s -> wf x -> in_range s I ->
  0 < get 0 (magnitude x eps_default false) I.
Proof.
  intros Hx Wx HI. rewrite (@get_magnitude x eps_default s I Hx Wx HI).
  apply sqrt_lt_R0.
  assert (Heps : 0 < eps_default) by (unfold eps_default; lra).
  pose proof (Rmax_r (get 0 x (0%nat :: I) ^ 2 + get 0 x (1%nat :: I) ^ 2)
                eps_default). lra.
Qed.

(** The elements of [relu_cmplx_mod] for an input with an orientation axis
    and a per-channel bias. *)
Lemma relu_cmplx_mod_get (x b : tensor R) (N C G Hh W : nat) :
  shape x = [2; N; C; G; Hh; W]%nat -> wf x -> shape b = [C; 1; 1]%nat ->
  exists out,
    relu_cmplx_mod x (BTensor b) = Returns out
    /\ shape out = shape x
    /\ forall n c g h w k,
         (n < N)%nat -> (c < C)%nat -> (g < G)%nat -> (h < Hh)%nat ->
         (w < W)%nat -> (k < 2)%nat ->
         get 0 out (k :: [n; c; g; h; w])
         = Rmax (get 0 (magnitude x eps_default false) [n; c; g; h; w]
                 + get 0 b [c; 0; 0]%nat) 0
           * get 0 x (k :: [n; c; g; h; w])
           / get 0 (magnitude x eps_default false) [n; c; g; h; w].
Proof.
  intros Hx Wx Hb.
  set (s := [N; C; G; Hh; W]%nat).
  assert (Sr : shape (magnitude x eps_default false) = s)
    by (apply shape_magnitude; exact Hx).
  assert (Wr : wf (magnitude x eps_default false)) by apply wf_magnitude.
  unfold relu_cmplx_mod.
  replace (dim (magnitude x eps_default false) <? dim b)%nat with false
    by (unfold dim; now rewrite Sr, Hb).
  replace (dim b <? dim (magnitude x eps_default false))%nat with true
    by (unfold dim; now rewrite Sr, Hb).
  replace (dim b) with 3%nat by (unfold dim; now rewrite Hb).
  destruct (@add_channel_bias (magnitude x eps_default false) b N C G Hh W Sr Hb)
    as [St Gt].
  set (t := badd (magnitude x eps_default false) (unsqueeze 3 b)) in *.
  assert (Wt : wf t) by apply wf_bop.
  assert (Srl : shape (relu t) = s) by exact St.
  assert (Sm : shape (bmul (relu t) x) = 2%nat :: s)
    by (apply shape_bop_cons; trivial).
  eexists. split; [reflexivity|].
  split; [rewrite Hx; now apply shape_bop_cons_l|].
  intros n c g h w k Hn Hc Hg Hh' Hw Hk.
  assert (HI : in_range s [n; c; g; h; w]) by (simpl; tauto).
  unfold bdiv.
  rewrite get_bop_cons_l with (d0 := 2%nat) (s := s) by trivial.
  unfold bmul. rewrite get_bop_cons with (d0 := 2%nat) (s := s) by trivial.
  unfold relu. rewrite get_tmap with (d := 0) by (trivial; now rewrite St).
  rewrite Gt by assumption. reflexivity.
Qed.

(** X9. Called with its own default [b], a float, [relu_cmplx_mod] raises
    [AttributeError].  For an input with an orientation axis,
    [[2, N, C, G, H, W]], and a per-channel bias [[C, 1, 1]] it returns a
    tensor of the shape of the input whose real and imaginary parts are
    [relu (r + b_c) * re / r] and [relu (r + b_c) * im / r], with [r] the
    clamped magnitude at that position and [b_c] the bias of the channel;
    [r] is positive, and where [r + b_c <= 0] both parts of the output are
    zero. *)
Theorem relu_cmplx_mod_scaling (x b : tensor R) (N C G Hh W n c g h w : nat) :
  shape x = [2; N; C; G; Hh; W]%nat -> wf x -> shape b = [C; 1; 1]%nat ->
  (n < N)%nat -> (c < C)%nat -> (g < G)%nat -> (h < Hh)%nat -> (w < W)%nat ->
  let I := [n; c; g; h; w] in
  let re := get 0 x (0%nat :: I) in
  let im := get 0 x (1%nat :: I) in
  let r := get 0 (magnitude x eps_default false) I in
  let beta := get 0 b [c; 0; 0]%nat in
  (forall v, relu_cmplx_mod x (BFloat v) = Raises (AttributeError "dim"))
  /\ exists out,
       relu_cmplx_mod x (BTensor b) = Returns out
       /\ shape out = shape x
       /\ 0 < r
       /\ get 0 out (0%nat :: I) = Rmax (r + beta) 0 * re / r
       /\ get 0 out (1%nat :: I) = Rmax (r + beta) 0 * im / r
       /\ (r + beta <= 0 ->
           get 0 out (0%nat :: I) = 0 /\ get 0 out (1%nat :: I) = 0).
Proof.
  intros Hx Wx Hb Hn Hc Hg Hh' Hw I re im r beta.
  split; [reflexivity|].
  assert (HI : in_range [N; C; G; Hh; W]%nat I) by (simpl; tauto).
  assert (Hrpos : 0 < r)
    by (exact (@magnitude_pos x [N; C; G; Hh; W]%nat I Hx Wx HI)).
  destruct (@relu_cmplx_mod_get x b N C G Hh W Hx Wx Hb)
    as (out & Ho & So & Gout).
  exists out. split; [exact Ho|]. split; [exact So|].
  split; [exact Hrpos|].
  assert (G0 : get 0 out (0%nat :: I) = Rmax (r + beta) 0 * re / r)
    by (apply Gout; assumption || lia).
  assert (G1 : get 0 out (1%nat :: I) = Rmax (r + beta) 0 * im / r)
    by (apply Gout; assumption || lia).
  rewrite G0, G1.
  split; [reflexivity|]. split; [reflexivity|].
  intros Hle. rewrite Rmax_right by exact Hle. split; field; lra.
Qed.

(** The value [3 + 4i], of magnitude 5, with the bias [-10]: the output is
    zero. *)
Lemma relu_cmplx_mod_scaling_witness :
  let x := mkT [2; 1; 1; 1; 1; 1]%nat [3; 4] in
  let b := mkT [1; 1; 1]%nat [-10] in
  relu_cmplx_mod x (BFloat eps_default) = Raises (AttributeError "dim")
  /\ exists out,
       relu_cmplx_mod x (BTensor b) = Returns out
       /\ shape out = [2; 1; 1; 1; 1; 1]%nat
       /\ get 0 out [0; 0; 0; 0; 0; 0]%nat = 0
       /\ get 0 out [1; 0; 0; 0; 0; 0]%nat = 0.
Proof.
  intros x b.
  assert (HI : in_range [1; 1; 1; 1; 1]%nat [0; 0; 0; 0; 0]%nat)
    by (simpl; lia).
  assert (Hr : get 0 (magnitude x eps_default false) [0; 0; 0; 0; 0]%nat = 5).
  { rewrite (@get_magnitude x eps_default [1; 1; 1; 1; 1]%nat
               [0; 0; 0; 0; 0]%nat eq_refl eq_refl HI).
    change (get 0 x [0; 0; 0; 0; 0; 0]%nat) with 3.
    change (get 0 x [1; 0; 0; 0; 0; 0]%nat) with 4.
    rewrite Rmax_left by (unfold eps_default; lra).
    replace (3 ^ 2 + 4 ^ 2) with (5 * 5) by ring.
    apply sqrt_square. lra. }
  destruct (@relu_cmplx_mod_scaling x b 1 1 1 1 1 0 0 0 0 0
              eq_refl eq_refl eq_refl
              Nat.lt_0_1 Nat.lt_0_1 Nat.lt_0_1 Nat.lt_0_1 Nat.lt_0_1)
    as (Hf & out & Ho & Hs & _ & _ & _ & Hz).
  split; [exact (Hf eps_default)|].
  exists out. split; [exact Ho|]. split; [exact Hs|].
  apply Hz. rewrite Hr. change (get 0 b [0; 0; 0]%nat) with (-10). lra.
Defined.

(* ------------------------------------------------------------------ *)
(** ** Orientation pooling by magnitude *)

Lemma argmax_from_spec (l : list R) :
  forall (pre : list R) (best : nat) (vbest : R),
    (best < length pre)%nat -> nth best pre 0 = vbest ->
    (forall k, (k < length pre)%nat -> nth k pre 0 <= vbest) ->
    let r := argmax_from (length pre) best vbest l in
    (r < length pre + length l)%nat
    /\ forall k, (k < length pre + length l)%nat ->
         nth k (pre ++ l) 0 <= nth r (pre ++ l) 0.
Proof.
  induction l as [|v l IH]; intros pre best vbest Hb Hv Hmax; cbn [argmax_from].
  - cbn [length]. rewrite app_nil_r, Nat.add_0_r. split; [exact Hb|].
    intros k Hk. rewrite Hv. now apply Hmax.
  - assert (Hlen : length (pre ++ [v]) = S (length pre))
      by (rewrite length_app; simpl; lia).
    assert (Happ : (pre ++ [v]) ++ l = pre ++ v :: l)
      by (rewrite <- app_assoc; reflexivity).
    cbn [length]. unfold Rgtb.
    destruct (Rlt_dec vbest v) as [Hlt | Hge].
    + specialize (IH (pre ++ [v]) (length pre) v).
      rewrite Hlen, Happ in IH.
      replace (length pre + S (length l))%nat
        with (S (length pre) + length l)%nat by lia.
      apply IH.
      * lia.
      * rewrite app_nth2, Nat.sub_diag by lia. reflexivity.
      * intros k Hk. destruct (Nat.eq_dec k (length pre)) as [-> | Hne].
        -- rewrite app_nth2, Nat.sub_diag by lia. simpl. lra.
        -- rewrite app_nth1 by lia.
           assert (nth k pre 0 <= vbest) by (apply Hmax; lia). lra.
    + specialize (IH (pre ++ [v]) best vbest).
      rewrite Hlen, Happ in IH.
      replace (length pre + S (length l))%nat
        with (S (length pre) + length l)%nat by lia.
      apply IH.
      * lia.
      * rewrite app_nth1 by lia. exact Hv.
      * intros k Hk. destruct (Nat.eq_dec k (length pre)) as [-> | Hne].
        -- rewrite app_nth2, Nat.sub_diag by lia. simpl. lra.
        -- rewrite app_nth1 by lia. apply Hmax. lia.
Qed.

(** [argmax] returns a position of a largest element. *)
Lemma argmax_spec (l : list R) :
  l <> [] ->
  (argmax l < length l)%nat
  /\ forall k, (k < length l)%nat -> nth k l 0 <= nth (argmax l) l 0.
Proof.
  destruct l as [|a l]; [congruence|]. intros _.
  apply (@argmax_from_spec l [a] 0%nat a).
  - simpl; lia.
  - reflexivity.
  - intros k Hk. simpl in Hk. replace k with 0%nat by lia. simpl. lra.
Qed.

Lemma length_fibre (A : Type) (d : A) (ax : nat) (t : tensor A) (J : list nat) :
  length (fibre d ax t J) = nth ax (shape t) 0%nat.
Proof. unfold fibre. now rewrite length_map, length_seq. Qed.

Lemma nth_fibre (d : R) (ax : nat) (t : tensor R) (J : list nat) (g : nat) :
  (g < nth ax (shape t) 0)%nat ->
  nth g (fibre d ax t J) 0 = get d t (insert_at ax g J).
Proof.
  intros Hg. unfold fibre.
  rewrite (nth_indep _ 0 (get d t (insert_at ax 0 J)))
    by (now rewrite length_map, length_seq).
  rewrite (map_nth (fun g => get d t (insert_at ax g J))).
  now rewrite seq_nth.
Qed.

Lemma repeat0_unsqueeze (A : Type) (t : tensor A) :
  repeat0 2 (unsqueeze 0 t) = cmplx t t.
Proof. reflexivity. Qed.

(** X10. [max_mag_gabor_pool] returns, at every position, the complex
    value of one orientation, the same for the real and the imaginary part,
    and that orientation has the largest (clamped) magnitude among the
    orientations at that position. *)
Theorem max_mag_gabor_pool_argmax (x : tensor R) (B O G Hh W : nat) :
  shape x = [2; B; O; G; Hh; W]%nat -> wf x -> (0 < G)%nat ->
  let r := magnitude x eps_default false in
  exists out idxs,
    max_mag_gabor_pool x = Ok (out, idxs)
    /\ shape out = [2; B; O; Hh; W]%nat
    /\ forall b o h w,
         (b < B)%nat -> (o < O)%nat -> (h < Hh)%nat -> (w < W)%nat ->
         let g := get 0%nat idxs [0; b; o; 0; h; w]%nat in
         (g < G)%nat
         /\ get 0%nat idxs [1; b; o; 0; h; w]%nat = g
         /\ get 0 out [0; b; o; h; w]%nat = get 0 x [0; b; o; g; h; w]%nat
         /\ get 0 out [1; b; o; h; w]%nat = get 0 x [1; b; o; g; h; w]%nat
         /\ forall g', (g' < G)%nat ->
              get 0 r [b; o; g'; h; w] <= get 0 r [b; o; g; h; w].
Proof.
  intros Hx Wx HG r.
  assert (Sr : shape r = [B; O; G; Hh; W]%nat)
    by (apply shape_magnitude; exact Hx).
  unfold max_mag_gabor_pool. fold r.
  rewrite repeat0_unsqueeze.
  set (idx0 := snd (torch_max r 2 true)).
  assert (S0 : shape idx0 = [B; O; 1; Hh; W]%nat)
    by (unfold idx0, torch_max, reduce_dim, replace_at; cbn [snd shape tabulate];
        now rewrite Sr).
  assert (W0 : wf idx0) by apply wf_tabulate.
  assert (G0 : forall b o h w,
            (b < B)%nat -> (o < O)%nat -> (h < Hh)%nat -> (w < W)%nat ->
            get 0%nat idx0 [b; o; 0; h; w]%nat
            = argmax (fibre 0 2 r [b; o; h; w])).
  { intros b o h w Hb Ho Hh' Hw.
    unfold idx0, torch_max, reduce_dim. cbn [snd].
    unfold replace_at at 1. rewrite Sr. cbn [firstn skipn app].
    rewrite get_tabulate by (simpl; repeat split; lia). reflexivity. }
  assert (Hmax : forall J, (argmax (fibre 0%R 2 r J) < G)%nat
                 /\ forall g', (g' < G)%nat ->
                      get 0 r (insert_at 2 g' J)
                      <= get 0 r (insert_at 2 (argmax (fibre 0 2 r J)) J)).
  { intros J.
    assert (Hl : length (fibre 0 2 r J) = G)
      by (rewrite length_fibre, Sr; reflexivity).
    assert (Hne : fibre 0 2 r J <> [])
      by (intros E; rewrite E in Hl; simpl in Hl; lia).
    destruct (argmax_spec Hne) as [Hlt Hle]. rewrite Hl in Hlt, Hle.
    split; [exact Hlt|]. intros g' Hg'.
    specialize (Hle g' Hg').
    rewrite !nth_fibre in Hle by (rewrite Sr; simpl; assumption).
    exact Hle. }
  assert (Hall : forallb (fun v => (v <? nth 3 (shape x) 0)%nat)
                   (data (cmplx idx0 idx0)) = true).
  { apply forallb_forall. intros v Hv. apply Nat.ltb_lt.
    rewrite Hx. cbn [nth].
    simpl in Hv. rewrite app_nil_r in Hv.
    assert (Hin : In v (data idx0)) by (apply in_app_or in Hv; tauto).
    unfold idx0, torch_max, reduce_dim in Hin. cbn [snd tabulate data] in Hin.
    apply in_map_iff in Hin. destruct Hin as (k & <- & _).
    apply Hmax. }
  unfold gather. rewrite Hall.
  assert (Sc : shape (cmplx idx0 idx0) = [2; B; O; 1; Hh; W]%nat)
    by (rewrite shape_cmplx, S0; reflexivity).
  eexists. eexists. split; [reflexivity|].
  split.
  { unfold squeeze. cbn [tabulate shape]. rewrite Sc. reflexivity. }
  intros b o h w Hb Ho Hh' Hw.
  assert (HI0 : in_range (shape idx0) [b; o; 0; h; w]%nat)
    by (rewrite S0; simpl; repeat split; lia).
  assert (E0 : get 0%nat (cmplx idx0 idx0) [0; b; o; 0; h; w]%nat
               = argmax (fibre 0 2 r [b; o; h; w]))
    by (rewrite get_cmplx_0 by trivial; now apply G0).
  assert (E1 : get 0%nat (cmplx idx0 idx0) [1; b; o; 0; h; w]%nat
               = argmax (fibre 0 2 r [b; o; h; w]))
    by (rewrite get_cmplx_1 by trivial; now apply G0).
  cbv zeta. rewrite E0, E1.
  destruct (Hmax [b; o; h; w]) as [Hlt Hle].
  split; [exact Hlt|]. split; [reflexivity|].
  assert (Gsq : forall c, (c < 2)%nat ->
            get 0 (squeeze 3
                     (tabulate (shape (cmplx idx0 idx0))
                        (fun I => get 0 x
                           (replace_at 3 (get 0%nat (cmplx idx0 idx0) I) I))))
              [c; b; o; h; w]
            = get 0 x
                [c; b; o; get 0%nat (cmplx idx0 idx0) [c; b; o; 0; h; w]%nat;
                 h; w]).
  { intros c Hc.
    set (t := tabulate _ _).
    assert (St : shape t = [2; B; O; 1; Hh; W]%nat) by exact Sc.
    transitivity (get 0 t [c; b; o; 0; h; w]%nat).
    - unfold squeeze. rewrite St. cbn [nth Nat.eqb firstn skipn app].
      unfold get. cbn [shape data]. rewrite St. f_equal. simpl. ring.
    - unfold t. rewrite Sc.
      rewrite get_tabulate by (simpl; repeat split; lia). reflexivity. }
  rewrite !Gsq by lia. rewrite E0, E1.
  split; [reflexivity|]. split; [reflexivity|].
  exact Hle.
Qed.

Lemma max_mag_gabor_pool_argmax_witness :
  let x := mkT [2; 1; 1; 1; 1; 1]%nat [3; 4] in
  exists out idxs,
    max_mag_gabor_pool x = Ok (out, idxs)
    /\ shape out = [2; 1; 1; 1; 1]%nat
    /\ get 0 out [1; 0; 0; 0; 0]%nat
       = get 0 x [1; 0; 0; get 0%nat idxs [0; 0; 0; 0; 0; 0]%nat; 0; 0]%nat.
Proof.
  intros x.
  destruct (@max_mag_gabor_pool_argmax x 1 1 1 1 1 eq_refl eq_refl Nat.lt_0_1)
    as (out & idxs & Ho & Hs & Hg).
  exists out, idxs. split; [exact Ho|]. split; [exact Hs|].
  exact (proj1 (proj2 (proj2 (proj2
           (Hg 0 0 0 0 Nat.lt_0_1 Nat.lt_0_1 Nat.lt_0_1 Nat.lt_0_1)))))%nat.
Defined.

Lemma get_reduce_dim_keep (A B : Type) (dA : A) (dB : B) (f : list A -> B)
  (d : nat) (t : tensor A) (I : list nat) :
  in_range (replace_at d 1 (shape t)) I ->
  get dB (reduce_dim dA f d true t) I = f (fibre dA d t (remove_at d I)).
Proof. intros HI. unfold reduce_dim. now rewrite get_tabulate. Qed.

(** Tiling a tensor whose rank is the number of repetitions: the element at
    [I] is the element of the operand at [I] taken modulo its shape. *)
Lemma trepeat_same_rank (A : Type) (d : A) (reps : list nat) (t : tensor A) :
  length reps = length (shape t) ->
  exists u,
    trepeat d reps t = Some u
    /\ shape u = map (fun p => (fst p * snd p)%nat) (combine reps (shape t))
    /\ data u
       = map (fun k =>
                get d t
                  (map (fun p => (snd p mod fst p)%nat)
                     (combine (shape t) (unravel (shape u) k))))
           (seq 0 (numel (shape u)))
    /\ forall I, in_range (shape u) I ->
         get d u I
         = get d t (map (fun p => (snd p mod fst p)%nat)
                      (combine (shape t) I)).
Proof.
  intros Hl. unfold trepeat, pad, dim.
  rewrite Hl, Nat.ltb_irrefl, Nat.sub_diag. cbn [repeat app].
  eexists. split; [reflexivity|]. cbn [shape tabulate data].
  split; [reflexivity|]. split; [reflexivity|].
  intros I HI. rewrite get_tabulate by exact HI. reflexivity.
Qed.

Lemma nth_below (l : list nat) (n G : nat) :
  (0 < G)%nat -> (forall v, In v l -> (v < G)%nat) -> (nth n l 0 < G)%nat.
Proof.
  intros HG Hl. destruct (nth_in_or_default n l 0%nat) as [Hin | E].
  - now apply Hl.
  - now rewrite E.
Qed.

(** X11. [max_summed_mag_gabor_pool] selects one orientation per
    (batch, channel) pair: the one whose magnitudes summed over the whole
    feature map are largest.  Every position and both components then take
    the value of that orientation. *)
Theorem max_summed_mag_gabor_pool_shared (x : tensor R) (B O G Hh W : nat) :
  shape x = [2; B; O; G; Hh; W]%nat -> wf x -> (0 < G)%nat ->
  let r := magnitude x eps_default false in
  let total b o g :=
    sum (map (fun h => sum (map (fun w => get 0 r [b; o; g; h; w])
                              (seq 0 W)))
           (seq 0 Hh)) in
  exists out idxs,
    max_summed_mag_gabor_pool x = Returns (out, idxs)
    /\ shape out = [2; B; O; Hh; W]%nat
    /\ forall b o, (b < B)%nat -> (o < O)%nat ->
       exists g,
         (g < G)%nat
         /\ (forall g', (g' < G)%nat -> total b o g' <= total b o g)
         /\ forall c h w, (c < 2)%nat -> (h < Hh)%nat -> (w < W)%nat ->
              get 0%nat idxs [c; b; o; 0; h; w]%nat = g
              /\ get 0 out [c; b; o; h; w] = get 0 x [c; b; o; g; h; w].
Proof.
  intros Hx Wx HG r total.
  assert (Sr : shape r = [B; O; G; Hh; W]%nat)
    by (apply shape_magnitude; exact Hx).
  unfold max_summed_mag_gabor_pool. fold r.
  assert (Dr : dim r = 5%nat) by (unfold dim; now rewrite Sr).
  assert (Dx : dim x = 6%nat) by (unfold dim; now rewrite Hx).
  rewrite Dr, Dx, Hx. cbn [Nat.sub nth Nat.ltb Nat.leb].
  set (rs1 := reduce_dim 0 sum 4 true r).
  assert (S1 : shape rs1 = [B; O; G; Hh; 1]%nat)
    by (unfold rs1, reduce_dim, replace_at; cbn [shape tabulate];
        now rewrite Sr).
  assert (G1 : forall b o g h,
            (b < B)%nat -> (o < O)%nat -> (g < G)%nat -> (h < Hh)%nat ->
            get 0 rs1 [b; o; g; h; 0]%nat
            = sum (map (fun w => get 0 r [b; o; g; h; w]) (seq 0 W))).
  { intros b o g h Hb Ho Hg Hh'. unfold rs1.
    rewrite get_reduce_dim_keep
      by (rewrite Sr; simpl; repeat split; lia).
    unfold fibre. rewrite Sr. reflexivity. }
  set (rs2 := reduce_dim 0 sum 3 true rs1).
  assert (S2 : shape rs2 = [B; O; G; 1; 1]%nat)
    by (unfold rs2, reduce_dim, replace_at; cbn [shape tabulate];
        now rewrite S1).
  assert (G2 : forall b o g,
            (b < B)%nat -> (o < O)%nat -> (g < G)%nat ->
            get 0 rs2 [b; o; g; 0; 0]%nat = total b o g).
  { intros b o g Hb Ho Hg. unfold rs2.
    rewrite get_reduce_dim_keep
      by (rewrite S1; simpl; repeat split; lia).
    unfold fibre. rewrite S1. cbn [nth remove_at firstn skipn app insert_at].
    unfold total. f_equal. apply map_ext_in. intros h Hin.
    apply in_seq in Hin. apply G1; lia. }
  rewrite S2. cbn [nth].
  replace (G =? 0)%nat with false by (symmetry; apply Nat.eqb_neq; lia).
  set (idx0 := snd (torch_max rs2 2 true)).
  assert (S0 : shape idx0 = [B; O; 1; 1; 1]%nat)
    by (unfold idx0, torch_max, reduce_dim, replace_at; cbn [snd shape tabulate];
        now rewrite S2).
  assert (G0 : forall b o, (b < B)%nat -> (o < O)%nat ->
            get 0%nat idx0 [b; o; 0; 0; 0]%nat
            = argmax (fibre 0 2 rs2 [b; o; 0; 0]%nat)).
  { intros b o Hb Ho. unfold idx0, torch_max. cbn [snd].
    rewrite get_reduce_dim_keep
      by (rewrite S2; simpl; repeat split; lia).
    reflexivity. }
  assert (Hmax : forall J, (argmax (fibre 0%R 2 rs2 J) < G)%nat
                 /\ forall g', (g' < G)%nat ->
                      get 0 rs2 (insert_at 2 g' J)
                      <= get 0 rs2 (insert_at 2 (argmax (fibre 0%R 2 rs2 J)) J)).
  { intros J.
    assert (Hl : length (fibre 0 2 rs2 J) = G)
      by (rewrite length_fibre, S2; reflexivity).
    assert (Hne : fibre 0 2 rs2 J <> [])
      by (intros E; rewrite E in Hl; simpl in Hl; lia).
    destruct (argmax_spec Hne) as [Hlt Hle]. rewrite Hl in Hlt, Hle.
    split; [exact Hlt|]. intros g' Hg'.
    specialize (Hle g' Hg').
    rewrite !nth_fibre in Hle by (rewrite S2; simpl; assumption).
    exact Hle. }
  set (idx1 := unsqueeze 0 idx0).
  assert (Su : shape idx1 = [1; B; O; 1; 1; 1]%nat)
    by (unfold idx1, unsqueeze; cbn [shape firstn skipn app]; now rewrite S0).
  destruct (@trepeat_same_rank nat 0%nat [2; 1; 1; 1; Hh; W]%nat idx1)
    as (idx2 & Et & Sc0 & Dc & Gc0); [now rewrite Su|].
  rewrite Et.
  assert (Sc : shape idx2 = [2; B; O; 1; Hh; W]%nat).
  { rewrite Sc0, Su. cbn [combine map fst snd].
    now rewrite !Nat.mul_1_l, !Nat.mul_1_r. }
  assert (Gc : forall c b o h w,
            (c < 2)%nat -> (b < B)%nat -> (o < O)%nat -> (h < Hh)%nat ->
            (w < W)%nat ->
            get 0%nat idx2 [c; b; o; 0; h; w]%nat
            = argmax (fibre 0 2 rs2 [b; o; 0; 0]%nat)).
  { intros c b o h w Hc Hb Ho Hh' Hw.
    rewrite Gc0 by (rewrite Sc; simpl; repeat split; lia).
    rewrite Su. cbn [combine map fst snd].
    rewrite !Nat.mod_1_r, (Nat.mod_small b B), (Nat.mod_small o O) by lia.
    rewrite <- (G0 b o Hb Ho).
    unfold idx1, unsqueeze, get. cbn [shape data firstn skipn app].
    rewrite S0. reflexivity. }
  assert (Hall : forallb (fun v => (v <? nth 3 [2; B; O; G; Hh; W] 0)%nat)
                   (data idx2) = true).
  { apply forallb_forall. intros v Hv. apply Nat.ltb_lt. cbn [nth].
    rewrite Dc in Hv.
    apply in_map_iff in Hv. destruct Hv as (k & <- & _).
    unfold get.
    apply nth_below; [exact HG|]. intros v Hin.
    unfold idx1, unsqueeze in Hin. cbn [data] in Hin.
    unfold idx0, torch_max, reduce_dim in Hin. cbn [snd tabulate data] in Hin.
    apply in_map_iff in Hin. destruct Hin as (k' & <- & _).
    apply Hmax. }
  assert (Hfit : negb (dim idx2 =? 6)%nat
                 || negb (index_fits 3 (shape idx2) [2; B; O; G; Hh; W]%nat)
                 = false).
  { unfold dim. rewrite Sc. unfold index_fits.
    cbn [length seq forallb nth Nat.eqb orb negb andb].
    rewrite !Nat.leb_refl. reflexivity. }
  rewrite Hfit.
  unfold gather. rewrite Hx, Hall.
  eexists. eexists. split; [reflexivity|].
  split.
  { unfold squeeze. cbn [tabulate shape]. rewrite Sc. reflexivity. }
  intros b o Hb Ho.
  exists (argmax (fibre 0 2 rs2 [b; o; 0; 0]%nat)).
  destruct (Hmax [b; o; 0; 0]%nat) as [Hlt Hle].
  split; [exact Hlt|]. split.
  { intros g' Hg'. rewrite <- !G2 by assumption. exact (Hle g' Hg'). }
  intros c h w Hc Hh' Hw.
  split; [now apply Gc|].
  set (t := tabulate _ _).
  assert (St : shape t = [2; B; O; 1; Hh; W]%nat) by exact Sc.
  transitivity (get 0 t [c; b; o; 0; h; w]%nat).
  - unfold squeeze. rewrite St. cbn [nth Nat.eqb firstn skipn app].
    unfold get. cbn [shape data]. rewrite St. f_equal. simpl. ring.
  - unfold t. rewrite Sc.
    rewrite get_tabulate by (simpl; repeat split; lia).
    rewrite Gc by assumption. reflexivity.
Qed.

Lemma max_summed_mag_gabor_pool_shared_witness :
  let x := mkT [2; 1; 1; 1; 1; 1]%nat [3; 4] in
  exists out idxs,
    max_summed_mag_gabor_pool x = Returns (out, idxs)
    /\ shape out = [2; 1; 1; 1; 1]%nat.
Proof.
  intros x.
  destruct (@max_summed_mag_gabor_pool_shared x 1 1 1 1 1
              eq_refl eq_refl Nat.lt_0_1)
    as (out & idxs & Ho & Hs & _).
  exists out, idxs. split; [exact Ho | exact Hs].
Defined.

(* ------------------------------------------------------------------ *)
(** ** Softmax of a complex tensor *)







(* ------------------------------------------------------------------ *)
(** ** Construction of the complex layers *)

Section Layers.
Context {H : Host}.

(** [init_weights] called with a tensor where the mode is expected: neither
    comparison with a mode name holds, and [sigma] is never bound. *)
Lemma init_weights_tensor_mode (w m : tensor R) (polar : bool)
  (d0 d1 d2 d3 : nat) :
  shape w = [d0; d1; d2; d3]%nat ->
  init_weights w (PyTensor m) polar = Raise (UnboundLocalError "sigma").
Proof.
  intros Hw. unfold init_weights, _calculate_fan_in_and_fan_out, dim, select0.
  cbn [shape]. rewrite Hw. reflexivity.
Qed.

(** The weight of a constructed [Conv2d] is a fresh tensor with four
    axes. *)
Lemma Conv2d_init_weight (name : string) (i o : Z) (k : ksize) (kw : kwargs)
  (c : Conv2d.t) :
  Conv2d.__init__ name i o k kw = Ok c ->
  exists d0 d1 d2 d3, Conv2d.weight c = fresh name [d0; d1; d2; d3]%nat.
Proof.
  intros E. apply Conv2d_init_iff in E.
  destruct E as (_ & _ & _ & _ & _ & _ & _ & _ & ->).
  cbn [Conv2d.weight]. do 4 eexists. reflexivity.
Qed.

(** X13. A weight initialiser can never be used: [IGConvCmplx] and
    [ConvCmplx] hand the imaginary kernel to [init_weights] where the mode
    is expected, so a construction with [weight_init] set never returns a
    layer, whatever the mode name.  For a positive number of output
    channels, once the two real convolutions exist (their weights having
    the four axes asked for), the error is the unbound [sigma] of
    [init_weights]. *)
Theorem weight_init_never_constructs (i o n : Z) (k : ksize)
  (gp : option string) (inc : bool) (s : string) (kw : kwargs) :
  (forall name sh, shape (fresh name sh) = sh) ->
  (exists e, IGConvCmplx.__init__ i o k n gp inc (Some s) kw = Raise e)
  /\ (exists e, ConvCmplx.__init__ i o k (Some s) kw = Raise e)
  /\ ((0 < o)%Z ->
      (exists re,
         Conv2d.__init__ "ReConv.weight" i o (_pair k) kw = Ok re) ->
      (exists im,
         Conv2d.__init__ "ImConv.weight" i o (_pair k) kw = Ok im) ->
      (forall p,
         IGConvCmplx.__init__ i o k n (Some p) inc (Some s) kw
         = Raise (UnboundLocalError "sigma"))
      /\ ConvCmplx.__init__ i o k (Some s) kw
         = Raise (UnboundLocalError "sigma")).
Proof.
  intros Hfresh.
  assert (Hinit : forall name o' c m polar,
            Conv2d.__init__ name i o' (_pair k) kw = Ok c ->
            init_weights (Conv2d.weight c) (PyTensor m) polar
            = Raise (UnboundLocalError "sigma")).
  { intros name o' c m polar E.
    destruct (Conv2d_init_weight _ _ _ _ _ E) as (d0 & d1 & d2 & d3 & ->).
    eapply init_weights_tensor_mode. apply Hfresh. }
  split; [|split].
  - destruct (IGConvCmplx.__init__ i o k n gp inc (Some s) kw)
      as [self | e] eqn:E; [|eexists; reflexivity].
    apply IGConvCmplx_init_inv in E.
    destruct E as (o' & re & im & g & _ & _ & _ & Hw & _). discriminate.
  - unfold ConvCmplx.__init__.
    destruct (Conv2d.__init__ "ReConv.weight" i o (_pair k) kw)
      as [re | e] eqn:Ere; cbn [bind]; [|eexists; reflexivity].
    destruct (Conv2d.__init__ "ImConv.weight" i o (_pair k) kw)
      as [im | e] eqn:Eim; cbn [bind]; [|eexists; reflexivity].
    rewrite (Hinit _ _ _ _ _ Ere). eexists. reflexivity.
  - intros _ [re Ere] [im Eim]. split.
    + intros p. unfold IGConvCmplx.__init__. cbn [bind].
      rewrite Ere, Eim. cbn [bind].
      rewrite (Hinit _ _ _ _ _ Ere). reflexivity.
    + unfold ConvCmplx.__init__. rewrite Ere, Eim. cbn [bind].
      rewrite (Hinit _ _ _ _ _ Ere). reflexivity.
Qed.

End Layers.

Lemma weight_init_never_constructs_witness :
  @ConvCmplx.__init__ Ref.host 1 4 (KInt 3) (Some "he"%string) []
  = Raise (UnboundLocalError "sigma").
Proof.
  apply (proj2 (proj2 (@weight_init_never_constructs Ref.host 1 4 2 (KInt 3)
                         None false "he"%string []
                         (fun name sh => eq_refl)))).
  - reflexivity.
  - eexists. reflexivity.
  - eexists. reflexivity.
Defined.

Section GaborBank.
Context {H : Host}.

(** X14. [IGaborCmplx] is constructed exactly for a positive filter count
    and a kernel size given as a pair of sides that are not negative.  The
    first row of its parameters is then the sweep [g / no_g * pi] for
    [g < no_g]: it starts at 0, is never negative and never decreases; the
    module stores [no_g] and the filter bank is marked as not yet
    generated. *)
Theorem IGaborCmplx_init_orientations (no_g : Z) (layer : bool) (k : ksize) :
  ((exists self, IGaborCmplx.__init__ no_g layer k = Ok self)
   <-> (0 < no_g)%Z
       /\ exists kh kw, k = KPair kh kw /\ (0 <= kh)%Z /\ (0 <= kw)%Z)
  /\ forall self, IGaborCmplx.__init__ no_g layer k = Ok self ->
       shape (IGaborCmplx.gabor_params self) = [2; Z.to_nat no_g]%nat
       /\ IGaborCmplx.no_g self = no_g
       /\ IGaborCmplx.layer self = layer
       /\ IGaborCmplx.calc_filters self = true
       /\ get 0 (IGaborCmplx.gabor_params self) [0; 0]%nat = 0
       /\ forall g, (g < Z.to_nat no_g)%nat ->
            let theta g := get 0 (IGaborCmplx.gabor_params self) [0; g]%nat in
            theta g = INR g / IZR no_g * PI
            /\ 0 <= theta g
            /\ ((S g < Z.to_nat no_g)%nat -> theta g <= theta (S g)).
Proof.
  split.
  { split.
    - intros [self E]. apply IGaborCmplx_init_inv in E. tauto.
    - intros (Hpos & kh & kw & -> & Hkh & Hkw).
      unfold IGaborCmplx.__init__.
      destruct (Z.ltb_spec no_g 0); [lia|].
      destruct (Z.eqb_spec no_g 0); [lia|]. cbn [bind].
      destruct (Z.ltb_spec kh 0); [lia|].
      destruct (Z.ltb_spec kw 0); [lia|]. cbn [orb].
      eexists. reflexivity. }
  intros self E.
  pose proof (IGaborCmplx_init_inv _ _ _ E) as (Hpos & _ & Hn & Hl & Hc).
  assert (HposR : 0 < IZR no_g) by (now apply IZR_lt).
  assert (Hp : exists d,
            IGaborCmplx.gabor_params self
            = mkT [2; Z.to_nat no_g]%nat
                (map (fun k => INR k / IZR no_g * PI)
                   (seq 0 (Z.to_nat no_g)) ++ d)).
  { revert E. unfold IGaborCmplx.__init__.
    destruct (no_g <? 0)%Z; [discriminate|].
    destruct (no_g =? 0)%Z; cbn [bind]; [discriminate|].
    destruct k as [c | kh kw]; [discriminate|].
    destruct ((kh <? 0) || (kw <? 0))%Z; [discriminate|].
    intros [= <-]. cbn [IGaborCmplx.gabor_params]. eexists. reflexivity. }
  destruct Hp as [d Hp].
  assert (Ht : forall j, (j < Z.to_nat no_g)%nat ->
            get 0 (IGaborCmplx.gabor_params self) [0; j]%nat
            = INR j / IZR no_g * PI).
  { intros j Hj. rewrite Hp. unfold get.
    cbn [shape data ravel numel fold_right].
    replace (0 * (Z.to_nat no_g * 1) + (j * 1 + 0))%nat with j by lia.
    rewrite app_nth1 by (now rewrite length_map, length_seq).
    rewrite (nth_indep _ 0 (INR 0 / IZR no_g * PI))
      by (now rewrite length_map, length_seq).
    rewrite (map_nth (fun k => INR k / IZR no_g * PI)).
    rewrite seq_nth by exact Hj. reflexivity. }
  assert (Hq : forall j, 0 <= INR j / IZR no_g).
  { intros j. apply Rmult_le_pos; [apply pos_INR|].
    apply Rlt_le, Rinv_0_lt_compat, HposR. }
  split; [now rewrite Hp|]. split; [exact Hn|]. split; [exact Hl|].
  split; [exact Hc|]. split.
  - rewrite Ht by lia. cbn [INR]. unfold Rdiv. ring.
  - intros g Hg theta. unfold theta. split; [now apply Ht|]. split.
    + rewrite Ht by exact Hg.
      apply Rmult_le_pos; [apply Hq | apply Rlt_le, PI_RGT_0].
    + intros HS. rewrite !Ht by assumption.
      apply Rmult_le_compat_r; [apply Rlt_le, PI_RGT_0|].
      apply Rmult_le_compat_r;
        [apply Rlt_le, Rinv_0_lt_compat, HposR | apply le_INR; lia].
Qed.

(** X15. With an orientation pooling configured, the constructor of
    [IGConvCmplx] never raises the configuration error, whatever the
    filter count and [output_features].  It returns a layer whenever the
    constructors it calls take their arguments (a positive filter count,
    kernel sides and channel counts that are not negative, integer-valued
    convolution keywords, a positive [groups] dividing both channel
    counts), and both convolutions of that
    layer have all [output_features] channels.  A pooling name other than
    ['max'], ['avg'] and ['mag'] is accepted as well, and every forward
    call of such a layer then raises. *)
Theorem IGConvCmplx_init_with_pooling (i o n : Z) (k : ksize) (p : string)
  (inc : bool) (wi : option string) (kw : kwargs) (kh kw_ : Z) :
  let groups := kw_get "groups" 1 kw in
  IGConvCmplx.__init__ i o k n (Some p) inc wi kw <> Raise config_error
  /\ ((0 < n)%Z -> _pair k = KPair kh kw_ -> (0 <= kh)%Z -> (0 <= kw_)%Z ->
      (0 <= i)%Z -> (0 <= o)%Z ->
      kw_among Conv2d.integer_keywords kw = true ->
      (0 < groups)%Z -> (i mod groups = 0)%Z -> (o mod groups = 0)%Z ->
      exists self,
        IGConvCmplx.__init__ i o k n (Some p) inc None kw = Ok self
        /\ Conv2d.out_channels (IGConvCmplx.ReConv self) = o
        /\ Conv2d.out_channels (IGConvCmplx.ImConv self) = o
        /\ IGConvCmplx.no_g self = n
        /\ IGConvCmplx.gabor_pooling self
           = IGConvCmplx.select_pooling (Some p)
        /\ (p <> "max"%string -> p <> "avg"%string -> p <> "mag"%string ->
            forall x, exists e, snd (IGConvCmplx.forward self x) = Raise e)).
Proof.
  intros groups. split.
  - unfold IGConvCmplx.__init__. cbn [bind].
    pose proof (conv2d_init_error "ReConv.weight" i o (_pair k) kw) as Hre.
    destruct (Conv2d.__init__ "ReConv.weight" _ _ _ _) as [re | e];
      cbn [bind]; [|intros Hr; apply Hre; injection Hr as ->; reflexivity].
    pose proof (conv2d_init_error "ImConv.weight" i o (_pair k) kw) as Him.
    destruct (Conv2d.__init__ "ImConv.weight" _ _ _ _) as [im | e];
      cbn [bind]; [|intros Hr; apply Him; injection Hr as ->; reflexivity].
    pose proof (gabor_init_error n false (_pair k)) as Hg.
    destruct wi as [s|]; cbn [bind].
    + pose proof (init_weights_error (Conv2d.weight re)
                    (PyTensor (Conv2d.weight im))
                    (negb (String.eqb s EmptyString))) as Hw.
      destruct (init_weights _ _ _) as [w | e]; cbn [bind];
        [| intros Hr; apply Hw; injection Hr as ->; reflexivity].
      destruct (IGaborCmplx.__init__ _ _ _); cbn [bind];
        [discriminate | intros Hr; apply Hg; injection Hr as ->; reflexivity].
    + destruct (IGaborCmplx.__init__ _ _ _); cbn [bind];
        [discriminate | intros Hr; apply Hg; injection Hr as ->; reflexivity].
  - intros Hn Hk Hkh Hkw Hi Ho Hkey Hg Hig Hog.
    unfold IGConvCmplx.__init__. cbn [bind]. rewrite Hk.
    rewrite !Conv2d_init_ok by assumption. cbn [bind].
    unfold IGaborCmplx.__init__.
    destruct (Z.ltb_spec n 0) as [Hneg | _]; [lia|].
    destruct (Z.eqb_spec n 0) as [Hz | _]; [lia|]. cbn [bind].
    destruct (Z.ltb_spec kh 0); [lia|].
    destruct (Z.ltb_spec kw_ 0); [lia|]. cbn [orb].
    eexists. split; [reflexivity|].
    cbn [IGConvCmplx.ReConv IGConvCmplx.ImConv IGConvCmplx.no_g
         IGConvCmplx.gabor_pooling Conv2d.out_channels].
    split; [reflexivity|]. split; [reflexivity|]. split; [reflexivity|].
    split; [reflexivity|].
    intros Hmax Havg Hmag x.
    unfold IGConvCmplx.forward.
    destruct (IGConvCmplx.enhanced_weight _) as [g ew].
    cbn [IGConvCmplx.gabor_pooling IGConvCmplx.select_pooling
         IGConvCmplx.conv_kwargs].
    destruct (negb _); [eexists; reflexivity|].
    apply String.eqb_neq in Hmax, Havg, Hmag. rewrite Hmax, Havg, Hmag.
    cbn [snd].
    destruct (IGConvCmplx.pool_view _ _ _) as [po | e]; cbn [bind];
      eexists; reflexivity.
Qed.

End GaborBank.

(** Three output features with two filters and the pooling name ['sum']:
    the layer is constructed, and its forward call raises. *)
Lemma IGConvCmplx_init_with_pooling_witness :
  exists self,
    @IGConvCmplx.__init__ Ref.host 1 3 (KInt 1) 2 (Some "sum"%string) false
      None []
    = Ok self
    /\ Conv2d.out_channels (IGConvCmplx.ReConv self) = 3%Z
    /\ exists e, snd (@IGConvCmplx.forward Ref.host self Demo.x) = Raise e.
Proof.
  destruct (proj2 (@IGConvCmplx_init_with_pooling Ref.host 1 3 2 (KInt 1)
                     "sum"%string false None [] 1 1)
              eq_refl eq_refl ltac:(discriminate) ltac:(discriminate)
              ltac:(discriminate) ltac:(discriminate)
              eq_refl eq_refl eq_refl eq_refl)
    as (self & E & Hre & _ & _ & _ & Hfw).
  exists self. split; [exact E|]. split; [exact Hre|].
  apply Hfw; discriminate.
Defined.

Lemma IGaborCmplx_init_orientations_witness :
  exists self,
    @IGaborCmplx.__init__ Ref.host 2 false (KPair 3 3) = Ok self
    /\ get 0 (IGaborCmplx.gabor_params self) [0; 1]%nat = INR 1 / 2 * PI
    /\ get 0 (IGaborCmplx.gabor_params self) [0; 0]%nat
       <= get 0 (IGaborCmplx.gabor_params self) [0; 1]%nat.
Proof.
  eexists. split; [reflexivity|].
  destruct (proj2 (@IGaborCmplx_init_orientations Ref.host 2 false
                     (KPair 3 3)) _ eq_refl) as (_ & _ & _ & _ & _ & Hg).
  split.
  - apply (Hg 1%nat). simpl. lia.
  - apply (Hg 0%nat); simpl; lia.
Defined.

(* ------------------------------------------------------------------ *)
(** ** The activation module *)

Section Activation.
Context {H : Host}.

(** X16. A [ReLUCmplx] of type ['mod'] for [c > 0] channels holds the bias
    it draws at construction, one value per channel between
    [-2 / sqrt c] and [0], and its forward call is [relu_cmplx_mod] with
    that bias.  On an input with an orientation axis the call returns a
    tensor of the shape of the input, each part of an element being
    [relu (r + b) * x / r]; the rectified modulus [relu (r + b)] that
    multiplies the input lies between 0 and the clamped magnitude [r], so
    the module never scales by more than [r / r].  The sampler is taken to
    return the shape asked for and values within the bounds asked for. *)
Theorem ReLUCmplx_mod_rectified_modulus (inplace : bool) (c : Z)
  (x : tensor R) (N G Hh W n ch g h w : nat) :
  (0 < c)%Z ->
  (forall lo hi s, shape (uniform lo hi s) = s) ->
  (forall lo hi s I, lo <= hi -> in_range s I ->
     lo <= get 0 (uniform lo hi s) I <= hi) ->
  shape x = [2; N; Z.to_nat c; G; Hh; W]%nat -> wf x ->
  (n < N)%nat -> (ch < Z.to_nat c)%nat -> (g < G)%nat -> (h < Hh)%nat ->
  (w < W)%nat ->
  let I := [n; ch; g; h; w] in
  let r := get 0 (magnitude x eps_default false) I in
  let b := uniform (- 2 / sqrt (IZR c)) 0 [Z.to_nat c; 1; 1]%nat in
  let beta := get 0 b [ch; 0; 0]%nat in
  exists self out,
    ReLUCmplx.__init__ inplace (PyStr "mod") (Some c) = Returns self
    /\ ReLUCmplx.b self = Some b
    /\ ReLUCmplx.forward self x = relu_cmplx_mod x (BTensor b)
    /\ ReLUCmplx.forward self x = Returns out
    /\ shape out = shape x
    /\ get 0 out (0%nat :: I) = Rmax (r + beta) 0 * get 0 x (0%nat :: I) / r
    /\ get 0 out (1%nat :: I) = Rmax (r + beta) 0 * get 0 x (1%nat :: I) / r
    /\ beta <= 0
    /\ 0 <= Rmax (r + beta) 0 <= r
    /\ 0 < r.
Proof.
  intros Hc Hshape Hrange Hx Wx Hn Hch Hg Hh' Hw I r b beta.
  unfold ReLUCmplx.__init__. cbn [py_eq_str String.eqb Ascii.eqb Bool.eqb].
  destruct (Z.ltb_spec c 0) as [Hneg | _]; [lia|].
  destruct (Z.eqb_spec c 0) as [Hz | _]; [lia|].
  assert (Sb : shape b = [Z.to_nat c; 1; 1]%nat) by apply Hshape.
  assert (Hsq : 0 < sqrt (IZR c)) by (apply sqrt_lt_R0; now apply IZR_lt).
  assert (Hlo : - 2 / sqrt (IZR c) <= 0).
  { assert (0 < 2 / sqrt (IZR c)) by (apply Rdiv_lt_0_compat; lra).
    replace (- 2 / sqrt (IZR c)) with (- (2 / sqrt (IZR c))) by (field; lra).
    lra. }
  assert (Hb : - 2 / sqrt (IZR c) <= beta <= 0).
  { apply Hrange; [exact Hlo|]. simpl. repeat split; lia. }
  destruct (@relu_cmplx_mod_get x b N (Z.to_nat c) G Hh W Hx Wx Sb)
    as (out & Ho & So & Gout).
  eexists. exists out. split; [reflexivity|].
  unfold ReLUCmplx.forward. cbn [ReLUCmplx.relu ReLUCmplx.b].
  split; [reflexivity|]. split; [reflexivity|].
  split; [exact Ho|]. split; [exact So|].
  assert (HI : in_range [N; Z.to_nat c; G; Hh; W]%nat I) by (simpl; tauto).
  assert (Hr : 0 < r)
    by (exact (@magnitude_pos x [N; Z.to_nat c; G; Hh; W]%nat I Hx Wx HI)).
  split; [apply Gout; assumption || lia|].
  split; [apply Gout; assumption || lia|].
  split; [apply Hb|]. split; [|exact Hr].
  split; [apply Rmax_r | apply Rmax_lub; lra].
Qed.

(** X17. [ReLUCmplx] binds [self.relu] for the types ['c'], ['z'] and
    ['mod'] only.  Any other type is accepted by the constructor, and the
    module it returns raises [AttributeError] at every forward call; the
    type ['mod'] without a channel count fails its assertion. *)
Theorem ReLUCmplx_unknown_type (inplace : bool) (relu_type : pyobj) :
  relu_type <> PyStr "c" -> relu_type <> PyStr "z" ->
  relu_type <> PyStr "mod" ->
  forall channels,
    (exists self,
       ReLUCmplx.__init__ inplace relu_type channels = Returns self
       /\ forall x, ReLUCmplx.forward self x = Raises (AttributeError "relu"))
    /\ ReLUCmplx.__init__ inplace (PyStr "mod") None = Raises AssertionError
    /\ (forall x self,
          ReLUCmplx.__init__ inplace (PyStr "c") channels = Returns self ->
          ReLUCmplx.forward self x = Returns (relu_cmplx x))
    /\ (forall x self,
          ReLUCmplx.__init__ inplace (PyStr "z") channels = Returns self ->
          ReLUCmplx.forward self x = Returns (relu_cmplx_z x)).
Proof.
  intros Hc Hz Hm channels.
  apply py_eq_str_false in Hc, Hz, Hm.
  split; [|split; [reflexivity|split]].
  - unfold ReLUCmplx.__init__. rewrite Hc, Hz, Hm.
    eexists. split; [reflexivity|]. intros x. reflexivity.
  - intros x self E. injection E as <-. reflexivity.
  - intros x self E. injection E as <-. reflexivity.
Qed.

End Activation.

Lemma Ref_get_uniform (lo hi : R) (s I : list nat) :
  in_range s I -> get 0 (@uniform Ref.host lo hi s) I = (lo + hi) / 2.
Proof.
  intros HI. unfold get. cbn [uniform Ref.host Ref.const shape data].
  pose proof (ravel_lt _ _ HI) as Hlt.
  rewrite (nth_indep _ 0 ((lo + hi) / 2)) by (now rewrite repeat_length).
  apply nth_repeat.
Qed.

Lemma ReLUCmplx_mod_rectified_modulus_witness :
  let x := mkT [2; 1; 1; 1; 1; 1]%nat [3; 4] in
  exists self out,
    @ReLUCmplx.__init__ Ref.host true (PyStr "mod") (Some 1%Z) = Returns self
    /\ ReLUCmplx.forward self x = Returns out
    /\ shape out = [2; 1; 1; 1; 1; 1]%nat.
Proof.
  intros x.
  assert (Hrange : forall lo hi s I, lo <= hi -> in_range s I ->
            lo <= get 0 (@uniform Ref.host lo hi s) I <= hi).
  { intros lo hi s I Hle HI. rewrite Ref_get_uniform by exact HI. lra. }
  destruct (@ReLUCmplx_mod_rectified_modulus Ref.host true 1%Z x 1 1 1 1
              0 0 0 0 0 eq_refl (fun _ _ _ => eq_refl) Hrange
              eq_refl eq_refl
              Nat.lt_0_1 Nat.lt_0_1 Nat.lt_0_1 Nat.lt_0_1 Nat.lt_0_1)
    as (self & out & E & _ & _ & F & S & _).
  exists self, out. split; [exact E|]. split; [exact F | exact S].
Defined.

Lemma ReLUCmplx_unknown_type_witness :
  exists self,
    @ReLUCmplx.__init__ Ref.host false (PyStr "modrelu") None = Returns self
    /\ ReLUCmplx.forward self Demo.x = Raises (AttributeError "relu").
Proof.
  destruct (proj1 (@ReLUCmplx_unknown_type Ref.host false (PyStr "modrelu")
                     ltac:(discriminate) ltac:(discriminate)
                     ltac:(discriminate) None))
    as (self & E & F).
  exists self. split; [exact E | apply F].
Defined.

(* ------------------------------------------------------------------ *)
(** ** The convolution blocks of igcn/models.py *)

Section Blocks.
Context {H : Host}.

Lemma and_then_returns (A B : Type) (r : outcome A) (k : A -> outcome B)
  (b : B) :
  and_then r k = Returns b -> exists a, r = Returns a /\ k a = Returns b.
Proof. destruct r as [a | e]; simpl; [now exists a | discriminate]. Qed.

Lemma make_Pool_forward (pooling : string) (p : Block.pool_module)
  (x : tensor R) :
  Block.make_Pool (Block.select_Pool pooling) = Returns p ->
  let kw := [("stride"%string, 2%Z)] in
  let x' := fst (_compress_shape x) in
  let xs := snd (_compress_shape x) in
  let apart pool :=
    Ok (_recover_shape
          (cmplx (pool (select0 x' 0) (_pair (KInt 2)) kw)
                 (pool (select0 x' 1) (_pair (KInt 2)) kw)) xs) in
  (contains "max" pooling = true
   /\ p = Block.AMaxPool (MaxPoolCmplx.__init__ (KInt 2) true kw)
   /\ Block.pool_forward p x = apart max_pool2d)
  \/ (contains "max" pooling = false /\ pooling = "avg"%string
      /\ p = Block.AnAvgPool (AvgPoolCmplx.__init__ (KInt 2) kw)
      /\ Block.pool_forward p x = apart avg_pool2d).
Proof.
  unfold Block.select_Pool.
  destruct (contains "max" pooling) eqn:Hmax.
  - cbn [Block.make_Pool]. intros E. injection E as <-. left.
    split; [reflexivity|]. split; [reflexivity|].
    unfold Block.pool_forward, MaxPoolCmplx.forward, MaxPoolCmplx.__init__,
      pool_cmplx.
    cbn [MaxPoolCmplx.kernel_size MaxPoolCmplx.operator
         MaxPoolCmplx.pool_kwargs].
    now destruct (_compress_shape x).
  - destruct (String.eqb_spec pooling "avg") as [-> | Hne];
      cbn [Block.make_Pool]; [|discriminate].
    intros E. injection E as <-. right.
    split; [reflexivity|]. split; [reflexivity|]. split; [reflexivity|].
    unfold Block.pool_forward, AvgPoolCmplx.forward, AvgPoolCmplx.__init__,
      pool_cmplx.
    cbn [AvgPoolCmplx.kernel_size AvgPoolCmplx.pool_kwargs].
    now destruct (_compress_shape x).
Qed.

(** X18. The pooling stage of [SingleIGConvCmplx] and [DoubleIGConvCmplx]
    is chosen by the test ['max' in pooling]: every name containing ['max']
    (the default ['maxmag'] among them) gives the max pooling of the real
    and of the imaginary part taken apart, with window 2 and stride 2;
    ['avg'] gives the average pooling of the two parts; with any other name,
    ['mag'] included, no block is ever constructed.  So no pooling name
    makes a block pool by magnitude. *)
Theorem block_pooling_selection (in_c out_c ks n : Z)
  (prev gp : option string) (pooling : string) (wi : option string)
  (all_gp first last : bool) :
  let single :=
    Block.SingleIGConvCmplx in_c out_c ks n prev gp pooling wi last in
  let double :=
    Block.DoubleIGConvCmplx in_c out_c ks n prev gp pooling wi all_gp first
      last in
  let kw := [("stride"%string, 2%Z)] in
  let apart x pool :=
    Ok (_recover_shape
          (cmplx (pool (select0 (fst (_compress_shape x)) 0)
                    (_pair (KInt 2)) kw)
                 (pool (select0 (fst (_compress_shape x)) 1)
                    (_pair (KInt 2)) kw))
          (snd (_compress_shape x))) in
  let chosen p :=
    (contains "max" pooling = true
     /\ forall x, Block.pool_forward p x = apart x max_pool2d)
    \/ (pooling = "avg"%string
        /\ forall x, Block.pool_forward p x = apart x avg_pool2d) in
  (forall blk, single = Returns blk -> chosen (Block.s_pool blk))
  /\ (forall blk, double = Returns blk -> chosen (Block.d_pool blk))
  /\ (contains "max" pooling = false -> pooling <> "avg"%string ->
      (forall blk, single <> Returns blk)
      /\ (forall blk, double <> Returns blk)).
Proof.
  intros single double kw apart chosen.
  assert (Hchosen : forall p,
            Block.make_Pool (Block.select_Pool pooling) = Returns p ->
            chosen p).
  { intros p Hp. unfold chosen, apart.
    destruct (contains "max" pooling) eqn:Hmax.
    - left. split; [reflexivity|]. intros x.
      destruct (@make_Pool_forward pooling p x Hp)
        as [(_ & _ & F) | (C & _)]; [exact F | congruence].
    - right.
      destruct (@make_Pool_forward pooling p Demo.x Hp)
        as [(C & _) | (_ & E & _)]; [congruence|].
      split; [exact E|]. intros x.
      destruct (@make_Pool_forward pooling p x Hp)
        as [(C & _) | (_ & _ & _ & F)]; [congruence | exact F]. }
  assert (Hsingle : forall blk, single = Returns blk ->
            Block.make_Pool (Block.select_Pool pooling)
            = Returns (Block.s_pool blk)).
  { intros blk E. unfold single, Block.SingleIGConvCmplx in E.
    apply and_then_returns in E. destruct E as (conv & _ & E).
    apply and_then_returns in E. destruct E as (pool & Hp & E).
    apply and_then_returns in E. destruct E as (relu & _ & E).
    injection E as <-. exact Hp. }
  assert (Hdouble : forall blk, double = Returns blk ->
            Block.make_Pool (Block.select_Pool pooling)
            = Returns (Block.d_pool blk)).
  { intros blk E. unfold double, Block.DoubleIGConvCmplx in E.
    apply and_then_returns in E. destruct E as (conv1 & _ & E).
    apply and_then_returns in E. destruct E as (conv2 & _ & E).
    apply and_then_returns in E. destruct E as (pool & Hp & E).
    apply and_then_returns in E. destruct E as (relu & _ & E).
    injection E as <-. exact Hp. }
  split; [|split].
  - intros blk E. apply Hchosen, Hsingle, E.
  - intros blk E. apply Hchosen, Hdouble, E.
  - intros Hmax Havg.
    assert (Hnone : forall p,
              Block.make_Pool (Block.select_Pool pooling) <> Returns p).
    { intros p. unfold Block.select_Pool. rewrite Hmax.
      apply String.eqb_neq in Havg. rewrite Havg. discriminate. }
    split; intros blk E.
    + exact (Hnone _ (Hsingle blk E)).
    + exact (Hnone _ (Hdouble blk E)).
Qed.

(** What a constructed [IGConvCmplx] says about its arguments. *)
Lemma IGConvCmplx_init_fields (i o n : Z) (k : ksize) (gp : option string)
  (inc : bool) (wi : option string) (kw : kwargs) (self : IGConvCmplx.t) :
  IGConvCmplx.__init__ i o k n gp inc wi kw = Ok self ->
  (0 < n)%Z
  /\ Conv2d.in_channels (IGConvCmplx.ReConv self) = i
  /\ Conv2d.in_channels (IGConvCmplx.ImConv self) = i
  /\ Conv2d.out_channels (IGConvCmplx.ReConv self)
     = match gp with None => (o / n)%Z | Some _ => o end
  /\ Conv2d.out_channels (IGConvCmplx.ImConv self)
     = match gp with None => (o / n)%Z | Some _ => o end
  /\ (gp = None -> (n | o)%Z)
  /\ IGConvCmplx.no_g self = n
  /\ IGConvCmplx.gabor_pooling self = IGConvCmplx.select_pooling gp
  /\ IGConvCmplx.conv_kwargs self = kw
  /\ wi = None.
Proof.
  intros E. apply IGConvCmplx_init_inv in E.
  destruct E as (o' & re & im & g & Hgp & Ere & Eim & Hw & Eg & ->).
  apply IGaborCmplx_init_inv in Eg. destruct Eg as (Hn & _).
  apply Conv2d_init_inv in Ere, Eim.
  destruct Ere as (Hi1 & Ho1 & _). destruct Eim as (Hi2 & Ho2 & _).
  cbn [IGConvCmplx.ReConv IGConvCmplx.ImConv IGConvCmplx.no_g
       IGConvCmplx.gabor_pooling IGConvCmplx.conv_kwargs].
  rewrite Hi1, Hi2, Ho1, Ho2.
  destruct gp as [p|].
  - subst o'. repeat split; try assumption; try reflexivity. discriminate.
  - destruct Hgp as (Hnz & Hm & ->).
    repeat split; try assumption; try reflexivity.
    intros _. now apply Z.mod_divide.
Qed.

(** X22. The arguments a constructed [DoubleIGConvCmplx] has passed to its
    two layers, read off their fields.  The filter count is positive and
    no weight initialiser was given.  The second layer is constructed for
    [out_channels // first_div // all_gp_div] input channels, the number
    given to the first layer as [output_features].  The raw kernels of the
    second layer have [out_channels // no_g] output channels with and
    without orientation pooling, and without it [no_g] divides
    [out_channels].  The raw kernels of the first layer have all
    [output_features] channels when it pools over orientations ([all_gp]
    set and a pooling given) and that number divided by [no_g] otherwise.
    The second layer pads one pixel more when [last] is set. *)
Theorem DoubleIGConvCmplx_channel_chain (in_c out_c ks n : Z)
  (prev gp : option string) (pooling : string) (wi : option string)
  (all_gp first last : bool) (blk : Block.double) :
  Block.DoubleIGConvCmplx in_c out_c ks n prev gp pooling wi all_gp first last
  = Returns blk ->
  let mid :=
    (out_c / (if first then 2 else 1) / (if all_gp then n else 1))%Z in
  let gp1 := if all_gp then gp else None in
  let conv1 := Block.d_conv1 blk in
  let conv2 := Block.d_conv2 blk in
  (0 < n)%Z
  /\ wi = None
  /\ Conv2d.in_channels (IGConvCmplx.ReConv conv1)
     = (in_c / Block.div_of n prev)%Z
  /\ Conv2d.out_channels (IGConvCmplx.ReConv conv1)
     = match gp1 with None => (mid / n)%Z | Some _ => mid end
  /\ (gp1 = None -> (n | mid)%Z)
  /\ IGConvCmplx.gabor_pooling conv1 = IGConvCmplx.select_pooling gp1
  /\ Conv2d.in_channels (IGConvCmplx.ReConv conv2) = mid
  /\ Conv2d.in_channels (IGConvCmplx.ImConv conv2) = mid
  /\ Conv2d.out_channels (IGConvCmplx.ReConv conv2) = (out_c / n)%Z
  /\ Conv2d.out_channels (IGConvCmplx.ImConv conv2) = (out_c / n)%Z
  /\ (gp = None -> (n | out_c)%Z)
  /\ IGConvCmplx.gabor_pooling conv2 = IGConvCmplx.select_pooling gp
  /\ IGConvCmplx.no_g conv1 = n
  /\ IGConvCmplx.no_g conv2 = n
  /\ IGConvCmplx.conv_kwargs conv1
     = [("padding"%string, (ks / 2 - 1)%Z)]
  /\ IGConvCmplx.conv_kwargs conv2
     = [("padding"%string, (ks / 2 - 1 + (if last then 1 else 0))%Z)].
Proof.
  intros E mid gp1 conv1 conv2. unfold Block.DoubleIGConvCmplx in E.
  apply and_then_returns in E. destruct E as (c1 & E1 & E).
  apply and_then_returns in E. destruct E as (c2 & E2 & E).
  apply and_then_returns in E. destruct E as (pool & _ & E).
  apply and_then_returns in E. destruct E as (relu & _ & E).
  injection E as <-. subst conv1 conv2. cbn [Block.d_conv1 Block.d_conv2].
  unfold py_floordiv in E1, E2.
  assert (Hfd : ((if first then 2 else 1) =? 0)%Z = false)
    by (now destruct first).
  rewrite Hfd in E1, E2. cbn [bind] in E1, E2.
  destruct (Block.div_of n prev =? 0)%Z; cbn [bind lift] in E1;
    [discriminate|].
  destruct ((if all_gp then n else 1) =? 0)%Z; cbn [bind lift] in E1, E2;
    [discriminate|].
  destruct (Block.div_of n gp =? 0)%Z eqn:Hgd; cbn [bind lift] in E2;
    [discriminate|].
  destruct (IGConvCmplx.__init__ _ _ _ _ _ _ _ _) as [c1' | e] eqn:I1
    in E1; cbn [lift] in E1; [|discriminate].
  injection E1 as ->.
  destruct (IGConvCmplx.__init__ _ _ _ _ _ _ _ _) as [c2' | e] eqn:I2
    in E2; cbn [lift] in E2; [|discriminate].
  injection E2 as ->.
  apply IGConvCmplx_init_fields in I1, I2.
  destruct I1 as (Hn & Hi1 & _ & Ho1 & _ & Hd1 & Hg1 & Hp1 & Hk1 & Hw).
  destruct I2 as (_ & Hi2 & Hi2' & Ho2 & Ho2' & Hd2 & Hg2 & Hp2 & Hk2 & _).
  assert (Hraw : match gp with
                 | None => (out_c / Block.div_of n gp / n)%Z
                 | Some _ => (out_c / Block.div_of n gp)%Z
                 end = (out_c / n)%Z).
  { destruct gp as [p|]; cbn [Block.div_of]; [reflexivity|].
    now rewrite Z.div_1_r. }
  repeat split; try assumption.
  - rewrite Ho2. exact Hraw.
  - rewrite Ho2'. exact Hraw.
  - intros ->. specialize (Hd2 eq_refl). cbn [Block.div_of] in Hd2.
    now rewrite Z.div_1_r in Hd2.
Qed.

End Blocks.

(** A block of 8 output channels with 2 filters and ['max'] orientation
    pooling in its second layer: that layer takes 8 input channels and
    both layers have 4 raw kernels. *)
Lemma DoubleIGConvCmplx_channel_chain_witness :
  exists blk,
    @Block.DoubleIGConvCmplx Ref.host 4 8 3 2 None (Some "max"%string)
      "maxmag" None false false true
    = Returns blk
    /\ Conv2d.out_channels (IGConvCmplx.ReConv (Block.d_conv1 blk)) = 4%Z
    /\ Conv2d.in_channels (IGConvCmplx.ReConv (Block.d_conv2 blk)) = 8%Z
    /\ Conv2d.out_channels (IGConvCmplx.ReConv (Block.d_conv2 blk)) = 4%Z.
Proof.
  destruct (@Block.DoubleIGConvCmplx Ref.host 4 8 3 2 None
              (Some "max"%string) "maxmag" None false false true)
    as [blk | e] eqn:E.
  - exists blk. split; [reflexivity|].
    destruct (@DoubleIGConvCmplx_channel_chain Ref.host 4 8 3 2 None
                (Some "max"%string) "maxmag" None false false true blk E)
      as (_ & _ & _ & Ho1 & _ & _ & Hi2 & _ & Ho2 & _).
    split; [exact Ho1|]. split; [exact Hi2 | exact Ho2].
  - exfalso.
    cbv - [Rplus Rminus Rmult Rdiv Rinv Ropp IZR sqrt Rmax PI cos sin
           Rlt_dec Rle_dec] in E.
    discriminate.
Defined.

Lemma block_pooling_selection_witness :
  contains "max" "mag" = false
  /\ forall blk,
       @Block.SingleIGConvCmplx Ref.host 4 8 3 2 None (Some "mag"%string)
         "mag" None true
       <> Returns blk.
Proof.
  split; [reflexivity|].
  apply (proj2 (proj2 (@block_pooling_selection Ref.host 4 8 3 2 None
                         (Some "mag"%string) "mag" None false false true))).
  - reflexivity.
  - discriminate.
Defined.

(* ------------------------------------------------------------------ *)
(** ** segmentation.py *)

(** X19. [get_metrics_criterion] never returns the attention metrics or the
    attention loss: the choice made for a variant containing ['DAF'] is
    always overwritten by the test for ['RCF'] that follows it.  The result
    is the edge-detection pair exactly for the variants containing ['RCF']
    and otherwise depends on [denoise] and [binary] only. *)
Theorem get_metrics_criterion_never_DAF (variant : string)
  (denoise binary : bool) :
  exists m c,
    Segmentation.get_metrics_criterion variant denoise binary = Some (m, c)
    /\ m <> Segmentation.DAFMetric
    /\ c <> Segmentation.DAFLoss
    /\ (contains "RCF" variant = true <->
        (m, c) = (Segmentation.RCFMetric, Segmentation.RCFLoss))
    /\ (contains "RCF" variant = false ->
        forall variant',
          contains "RCF" variant' = false ->
          Segmentation.get_metrics_criterion variant' denoise binary
          = Some (m, c)).
Proof.
  unfold Segmentation.get_metrics_criterion.
  destruct (contains "RCF" variant) eqn:Hr.
  - eexists. eexists. split; [reflexivity|].
    split; [discriminate|]. split; [discriminate|].
    split; [tauto | discriminate].
  - destruct denoise, binary; eexists; eexists;
      (split; [reflexivity|]);
      (split; [discriminate|]); (split; [discriminate|]);
      (split; [split; discriminate|]);
      intros _ variant' Hr'; rewrite Hr'; reflexivity.
Qed.

Lemma last_component_from_dot (p acc q : string) :
  Segmentation.last_component_from acc
    (String.append p (String (Ascii.ascii_of_nat 46) q))
  = Segmentation.last_component_from EmptyString q.
Proof.
  revert acc. induction p as [|c p IH]; intros acc.
  - reflexivity.
  - cbn [String.append Segmentation.last_component_from].
    destruct (Ascii.eqb c (Ascii.ascii_of_nat 46)); apply IH.
Qed.

Lemma legacy_fix_map (cp : Segmentation.state_dict) :
  (forall k v, In (k, v) cp ->
     Segmentation.last_component k = "gabor_filters"%string ->
     (1 <= dim v)%nat) ->
  Segmentation.legacy_fix cp
  = Returns
      (map (fun kv =>
              if String.eqb (Segmentation.last_component (fst kv))
                   "gabor_filters"
              then (fst kv, unsqueeze 1 (snd kv))
              else kv)
         cp).
Proof.
  induction cp as [|[k v] cp IH]; intros Hrank; [reflexivity|].
  cbn [Segmentation.legacy_fix map fst snd].
  rewrite IH by (intros k' v' Hin; apply Hrank; now right).
  destruct (String.eqb_spec (Segmentation.last_component k) "gabor_filters")
    as [E | _]; [|reflexivity].
  specialize (Hrank k v (or_introl eq_refl) E).
  destruct (Nat.ltb_spec (dim v) 1); [lia | reflexivity].
Qed.

Lemma legacy_fix_scalar (cp : Segmentation.state_dict) (k : string)
  (v : tensor R) :
  In (k, v) cp ->
  Segmentation.last_component k = "gabor_filters"%string ->
  dim v = 0%nat ->
  exists e, Segmentation.legacy_fix cp = Raises e.
Proof.
  induction cp as [|[k' v'] cp IH]; intros Hin Hk Hv; [destruct Hin|].
  cbn [Segmentation.legacy_fix].
  destruct Hin as [E | Hin].
  - injection E as -> ->. rewrite Hk, Hv. eexists; reflexivity.
  - destruct (IH Hin Hk Hv) as [e He]. rewrite He.
    destruct (String.eqb _ _); [destruct (dim v' <? 1)%nat|];
      eexists; reflexivity.
Qed.

(** X20. The legacy conversion of [load] (without the pretraining step)
    gives every entry whose last key component is [gabor_filters], and no
    other, a new axis of size 1 at position 1.  Keys, their order and the
    stored numbers are unchanged, and well-formed tensors stay well formed.
    A key [<prefix>.gabor_filters] is such an entry whatever the prefix.
    The conversion raises if such an entry has no axis at all. *)
Theorem load_legacy_inserts_axis (pre : Segmentation.preprocess)
  (cp : Segmentation.state_dict) (att : bool) :
  ((forall k v, In (k, v) cp ->
      Segmentation.last_component k = "gabor_filters"%string ->
      (1 <= dim v)%nat) ->
   exists cp',
     Segmentation.load pre cp true false att = Returns cp'
     /\ map fst cp' = map fst cp
     /\ Forall2
          (fun kv kv' =>
             data (snd kv') = data (snd kv)
             /\ (wf (snd kv) -> wf (snd kv'))
             /\ if String.eqb (Segmentation.last_component (fst kv))
                     "gabor_filters"
                then exists d0 s,
                       shape (snd kv) = d0 :: s
                       /\ shape (snd kv') = d0 :: 1%nat :: s
                else snd kv' = snd kv)
          cp cp')
  /\ (forall k v, In (k, v) cp ->
        Segmentation.last_component k = "gabor_filters"%string ->
        dim v = 0%nat ->
        exists e, Segmentation.load pre cp true false att = Raises e)
  /\ (forall prefix,
        Segmentation.last_component
          (String.append prefix ".gabor_filters")
        = "gabor_filters"%string).
Proof.
  split; [|split].
  - intros Hrank. eexists.
    unfold Segmentation.load. cbn [and_then].
    split; [now apply legacy_fix_map|]. split.
    + rewrite map_map. apply map_ext. intros kv.
      now destruct (String.eqb _ _).
    + clear pre att. induction cp as [|[k v] cp IH]; [constructor|].
      cbn [map]. constructor.
      * cbn [fst snd].
        destruct (String.eqb_spec (Segmentation.last_component k)
                    "gabor_filters") as [E | _]; cbn [fst snd].
        -- specialize (Hrank k v (or_introl eq_refl) E).
           unfold dim in Hrank.
           destruct v as [[|d0 s] dv]; cbn [shape length] in Hrank; [lia|].
           split; [reflexivity|]. split.
           ++ unfold wf, unsqueeze. cbn [shape data firstn skipn app numel
                                         fold_right]. lia.
           ++ exists d0, s. split; reflexivity.
        -- split; [reflexivity|]. split; [tauto | reflexivity].
      * apply IH. intros k' v' Hin. apply Hrank. now right.
  - intros k v Hin Hk Hv. unfold Segmentation.load. cbn [and_then].
    exact (@legacy_fix_scalar cp k v Hin Hk Hv).
  - intros prefix. unfold Segmentation.last_component.
    change (String.append prefix ".gabor_filters")
      with (String.append prefix
              (String (Ascii.ascii_of_nat 46) "gabor_filters")).
    now rewrite last_component_from_dot.
Qed.

Lemma load_legacy_inserts_axis_witness :
  let cp := [("inc.conv1.gabor.gabor_filters"%string,
              mkT [2; 2; 1; 3; 3]%nat (repeat 0 36));
             ("inc.conv1.ReConv.weight"%string,
              mkT [1; 1; 3; 3]%nat (repeat 0 9))] in
  exists cp',
    Segmentation.load Segmentation.PreNone cp true false false = Returns cp'
    /\ map fst cp' = map fst cp.
Proof.
  intros cp.
  destruct (proj1 (@load_legacy_inserts_axis Segmentation.PreNone cp false))
    as (cp' & E & K & _).
  - intros k v [E | [E | []]] _; injection E as <- <-; unfold dim; simpl; lia.
  - exists cp'. split; [exact E | exact K].
Defined.

Lemma dict_get_set_same (key : string) (v : tensor R)
  (d : Segmentation.state_dict) :
  Segmentation.dict_get key (Segmentation.dict_set key v d) = Some v.
Proof.
  induction d as [|[k w] d IH]; cbn [Segmentation.dict_set Segmentation.dict_get].
  - now rewrite String.eqb_refl.
  - destruct (String.eqb k key) eqn:E;
      cbn [Segmentation.dict_get]; rewrite E; [reflexivity | exact IH].
Qed.

Lemma dict_get_set_other (key key' : string) (v : tensor R)
  (d : Segmentation.state_dict) :
  key' <> key ->
  Segmentation.dict_get key' (Segmentation.dict_set key v d)
  = Segmentation.dict_get key' d.
Proof.
  intros Hne. apply not_eq_sym in Hne.
  induction d as [|[k w] d IH]; cbn [Segmentation.dict_set Segmentation.dict_get].
  - apply String.eqb_neq in Hne. now rewrite Hne.
  - destruct (String.eqb_spec k key) as [-> | Hk];
      cbn [Segmentation.dict_get].
    + apply String.eqb_neq in Hne. now rewrite Hne.
    + destruct (String.eqb k key'); [reflexivity | exact IH].
Qed.

(** X21. The pretraining step of [load] (no attention, no legacy
    conversion) replaces the first convolution kernel, of shape
    [[a, b, c, d, e]], by its tiling along axis 2: the new kernel has
    [2 * n_scaling * c] entries on that axis (with [n_scaling] read as 1
    for a model without preprocessing), entry [k] being entry [k mod c] of
    the old one; every other entry of the state dictionary is kept.
    Without the kernel in the checkpoint the call raises [KeyError]. *)
Theorem load_pretrain_tiles_kernel (pre : Segmentation.preprocess)
  (cp : Segmentation.state_dict) (weight : tensor R) (a b c d e : nat)
  (out_c : Z) :
  let key := "inc.conv1.0.weight"%string in
  Segmentation.dict_get key cp = Some weight ->
  shape weight = [a; b; c; d; e]%nat ->
  (pre = Segmentation.PreNone /\ out_c = 1%Z
   \/ pre = Segmentation.PreScaling out_c /\ (0 <= out_c)%Z) ->
  exists cp' w',
    Segmentation.load pre cp false true false = Returns cp'
    /\ Segmentation.dict_get key cp' = Some w'
    /\ shape w' = [a; b; Z.to_nat (2 * out_c) * c; d; e]%nat
    /\ (forall i j k l m,
          (i < a)%nat -> (j < b)%nat -> (k < Z.to_nat (2 * out_c) * c)%nat ->
          (l < d)%nat -> (m < e)%nat ->
          get 0 w' [i; j; k; l; m] = get 0 weight [i; j; k mod c; l; m]%nat)
    /\ (forall key', key' <> key ->
          Segmentation.dict_get key' cp' = Segmentation.dict_get key' cp)
    /\ forall cp0 legacy,
         Segmentation.dict_get key cp0 = None ->
         Segmentation.load pre cp0 legacy true false = Raises (KeyError key).
Proof.
  intros key Hget Hw Hpre.
  destruct (@trepeat_same_rank R 0 [1; 1; Z.to_nat (2 * out_c); 1; 1]%nat
              weight) as (w' & Et & Sw & _ & Gw); [now rewrite Hw|].
  assert (Sw' : shape w' = [a; b; Z.to_nat (2 * out_c) * c; d; e]%nat).
  { rewrite Sw, Hw. cbn [combine map fst snd]. now rewrite !Nat.mul_1_l. }
  assert (Hnn : (2 * out_c <? 0)%Z = false)
    by (apply Z.ltb_ge; destruct Hpre as [[_ ->] | [_ Hp]]; lia).
  exists (Segmentation.dict_set key w' cp), w'.
  split; [|split; [apply dict_get_set_same|split; [exact Sw'|split; [|split]]]].
  - unfold Segmentation.load. fold key. rewrite Hget.
    destruct Hpre as [[-> ->] | [-> Hp]]; cbn [and_then];
      rewrite ?Hnn; rewrite Et; reflexivity.
  - intros i j k l m Hi Hj Hk Hl Hm.
    rewrite Gw by (rewrite Sw'; cbn [in_range]; repeat split; assumption).
    rewrite Hw. cbn [combine map fst snd].
    now rewrite (Nat.mod_small i a), (Nat.mod_small j b),
      (Nat.mod_small l d), (Nat.mod_small m e) by lia.
  - intros key' Hne. now apply dict_get_set_other.
  - intros cp0 legacy Hnone. unfold Segmentation.load. fold key.
    rewrite Hnone. reflexivity.
Qed.

Lemma load_pretrain_tiles_kernel_witness :
  let weight := mkT [1; 1; 2; 1; 1]%nat [5; 7] in
  exists cp' w',
    Segmentation.load Segmentation.PreNone
      [("inc.conv1.0.weight"%string, weight)] false true false
    = Returns cp'
    /\ Segmentation.dict_get "inc.conv1.0.weight" cp' = Some w'
    /\ get 0 w' [0; 0; 3; 0; 0]%nat = get 0 weight [0; 0; 1; 0; 0]%nat.
Proof.
  intros weight.
  destruct (@load_pretrain_tiles_kernel Segmentation.PreNone
              [("inc.conv1.0.weight"%string, weight)] weight 1 1 2 1 1 1%Z
              eq_refl eq_refl (or_introl (conj eq_refl eq_refl)))
    as (cp' & w' & E & D & _ & G & _).
  exists cp', w'. split; [exact E|]. split; [exact D|].
  apply (G 0 0 3 0 0)%nat; simpl; lia.
Defined.
